(** * The language-server client of filesystem-mcp (lsp/lspService.mjs)

    A shallow embedding of the [LspProcess] and [LspService] classes: the
    stream framer of [_handleData], the request/response correlation of
    [sendRequest] and [_handleMessage], document synchronisation, the edit
    application of [formatDocument], client selection and shutdown.  With
    them, what stands around the service: the path checks of
    utils/fileUtils.mjs, the command table of config.mjs with
    [validateCommand] of utils/security.mjs, and the tool handlers of
    handlers/lspHandlers.mjs.

    Conventions.
    - A JavaScript string that the code only compares, concatenates or
      tests for an ASCII prefix or suffix (method names, paths, URIs) is a
      [string].  Where the code counts or cuts by index -- the receive
      buffer, the text of a document -- a string is the list of its UTF-16
      code units ([list N]), and the content of a file is a list of bytes.
    - [log(...)] has no effect on the state of the program and is left out.
    - Objects with identity (promises, timers) live in stores indexed by
      allocation order; a reference is the index.
    - An [async] method is a function of the world that takes the events
      to come at its [await]s ([Service]); cut at its [await]s, it is a
      sequence of moves that the moves of other calls can come between
      ([Overlap]). *)

From Stdlib Require Import ZArith NArith String Ascii List Lia Bool.
From stdpp Require Import base option list gmap strings.
Import ListNotations.
Local Open Scope string_scope.
Local Open Scope list_scope.
Local Open Scope N_scope.

(** ** JavaScript strings as sequences of UTF-16 code units *)

Module Js.

(** The code units of an ASCII literal. *)
Definition codes (s : string) : list N :=
  map N_of_ascii (list_ascii_of_string s).

Definition REPLACEMENT_CHARACTER : N := 65533.

Definition in_range (lo hi b : N) : bool := (lo <=? b) && (b <=? hi).

(** UTF-16 encoding of one code point. *)
Definition code_units (cp : N) : list N :=
  if cp <? 65536 then [cp]
  else [55296 + (cp - 65536) / 1024; 56320 + (cp - 65536) mod 1024].

(** [Buffer.prototype.toString()] with its default encoding: UTF-8
    decoding of the bytes of one buffer, every maximal ill-formed
    subsequence (also a sequence cut short by the end of the buffer)
    replaced by U+FFFD. *)
Fixpoint utf8_decode (bs : list N) : list N :=
  match bs with
  | [] => []
  | b :: rest =>
    if b <? 128 then b :: utf8_decode rest
    else if in_range 194 223 b then
      match rest with
      | [] => [REPLACEMENT_CHARACTER]
      | c1 :: rest1 =>
        if in_range 128 191 c1
        then ((b - 192) * 64 + (c1 - 128)) :: utf8_decode rest1
        else REPLACEMENT_CHARACTER :: utf8_decode rest
      end
    else if in_range 224 239 b then
      let lo := if b =? 224 then 160 else 128 in
      let hi := if b =? 237 then 159 else 191 in
      match rest with
      | [] => [REPLACEMENT_CHARACTER]
      | c1 :: rest1 =>
        if in_range lo hi c1 then
          match rest1 with
          | [] => [REPLACEMENT_CHARACTER]
          | c2 :: rest2 =>
            if in_range 128 191 c2
            then ((b - 224) * 4096 + (c1 - 128) * 64 + (c2 - 128))
                   :: utf8_decode rest2
            else REPLACEMENT_CHARACTER :: utf8_decode rest1
          end
        else REPLACEMENT_CHARACTER :: utf8_decode rest
      end
    else if in_range 240 244 b then
      let lo := if b =? 240 then 144 else 128 in
      let hi := if b =? 244 then 143 else 191 in
      match rest with
      | [] => [REPLACEMENT_CHARACTER]
      | c1 :: rest1 =>
        if in_range lo hi c1 then
          match rest1 with
          | [] => [REPLACEMENT_CHARACTER]
          | c2 :: rest2 =>
            if in_range 128 191 c2 then
              match rest2 with
              | [] => [REPLACEMENT_CHARACTER]
              | c3 :: rest3 =>
                if in_range 128 191 c3
                then code_units ((b - 240) * 262144 + (c1 - 128) * 4096
                                 + (c2 - 128) * 64 + (c3 - 128))
                       ++ utf8_decode rest3
                else REPLACEMENT_CHARACTER :: utf8_decode rest2
              end
            else REPLACEMENT_CHARACTER :: utf8_decode rest1
          end
        else REPLACEMENT_CHARACTER :: utf8_decode rest
      end
    else REPLACEMENT_CHARACTER :: utf8_decode rest
  end.

(** [data.toString()] for a chunk of bytes. *)
Definition toString (data : list Byte.byte) : list N :=
  utf8_decode (map Byte.to_N data).

(** [Buffer.from(s, 'utf-8')] for a string of ASCII code units and of
    two-byte code points; enough to write test inputs. *)
Definition utf8_encode_unit (c : N) : list N :=
  if c <? 128 then [c]
  else if c <? 2048 then [192 + c / 64; 128 + c mod 64]
  else [224 + c / 4096; 128 + (c / 64) mod 64; 128 + c mod 64].

Definition to_bytes (bs : list N) : list Byte.byte :=
  omap Byte.of_N bs.

Definition high_surrogate (c : N) : bool := in_range 55296 56319 c.
Definition low_surrogate (c : N) : bool := in_range 56320 57343 c.

(** The UTF-8 bytes of a string, as [fs.writeFile(path, s, 'utf-8')] stores
    them: a surrogate pair is one code point of four bytes, a surrogate
    without its partner is written as U+FFFD. *)
Fixpoint utf8_encode (s : list N) : list N :=
  match s with
  | [] => []
  | c :: rest =>
    if c <? 128 then c :: utf8_encode rest
    else if c <? 2048 then 192 + c / 64 :: 128 + c mod 64 :: utf8_encode rest
    else if high_surrogate c then
      match rest with
      | d :: rest' =>
        if low_surrogate d then
          let cp := 65536 + (c - 55296) * 1024 + (d - 56320) in
          240 + cp / 262144 :: 128 + (cp / 4096) mod 64
            :: 128 + (cp / 64) mod 64 :: 128 + cp mod 64 :: utf8_encode rest'
        else 239 :: 191 :: 189 :: utf8_encode rest
      | [] => [239; 191; 189]
      end
    else if low_surrogate c then 239 :: 191 :: 189 :: utf8_encode rest
    else 224 + c / 4096 :: 128 + (c / 64) mod 64 :: 128 + c mod 64
           :: utf8_encode rest
  end.

Definition fromString (s : list N) : list Byte.byte := to_bytes (utf8_encode s).

(** [s.substring(a, b)] for [a <= b] and [s.substring(a)]: indices beyond
    the end are clamped to the length. *)
Definition substring {A} (a b : nat) (s : list A) : list A :=
  take (b - a) (drop a s).
Definition substring_from {A} (a : nat) (s : list A) : list A := drop a s.

End Js.

(** ** The stream framer: the loop of [_handleData] *)

Module Framer.

Definition is_digit (c : N) : bool := Js.in_range 48 57 c.

(** [s] without the prefix [p], when [s] starts with [p]. *)
Fixpoint strip_prefix (p s : list N) : option (list N) :=
  match p, s with
  | [], _ => Some s
  | a :: p', b :: s' => if a =? b then strip_prefix p' s' else None
  | _ :: _, [] => None
  end.

(** The longest prefix of digits, and what follows it. *)
Fixpoint span_digits (s : list N) : list N * list N :=
  match s with
  | c :: s' =>
    if is_digit c then let '(ds, r) := span_digits s' in (c :: ds, r)
    else ([], s)
  | [] => ([], [])
  end.

Definition header_name : list N := Js.codes "Content-Length: ".
Definition header_end : list N := [13; 10; 13; 10].

(** The regular expression [/Content-Length: (\d+)\r\n\r\n/] tried at the
    start of [s]: the matched text [match[0]] and the group [match[1]].
    The digits are followed by a carriage return, so the greedy [\d+]
    never gives a digit back. *)
Definition match_here (s : list N) : option (list N * list N) :=
  match strip_prefix header_name s with
  | Some r =>
    let '(ds, r') := span_digits r in
    match ds with
    | [] => None
    | _ :: _ =>
      match strip_prefix header_end r' with
      | Some _ => Some (header_name ++ ds ++ header_end, ds)
      | None => None
      end
    end
  | None => None
  end.

(** [messageBuffer.match(re)]: the leftmost match in the buffer. *)
Fixpoint regex_match (s : list N) : option (list N * list N) :=
  match match_here s with
  | Some m => Some m
  | None =>
    match s with
    | [] => None
    | _ :: s' => regex_match s'
    end
  end.

(** [parseInt(digits, 10)] on a string of decimal digits.  (A number too
    large for a double is rounded by JavaScript, but stays far above the
    length of any buffer, so the comparison below is not affected.) *)
Definition parseInt (ds : list N) : N :=
  fold_left (fun acc d => 10 * acc + (d - 48)) ds 0.

(** The [while (true)] loop.  Every turn that does not [break] removes at
    least the header from the buffer, so the length of the buffer bounds
    the number of turns; [frame_loop] is run with that bound.  The result
    is the list of [messageJson] strings in the order they are handed to
    [JSON.parse], and the buffer left over. *)
Fixpoint frame_loop (turns : nat) (messageBuffer : list N)
  : list (list N) * list N :=
  match turns with
  | O => ([], messageBuffer)
  | S turns' =>
    match regex_match messageBuffer with
    | None => ([], messageBuffer)
    | Some (match0, match1) =>
      let contentLength := N.to_nat (parseInt match1) in
      let messageStartIndex := length match0 in
      let messageEndIndex := (messageStartIndex + contentLength)%nat in
      if (length messageBuffer <? messageEndIndex)%nat
      then ([], messageBuffer)
      else
        let messageJson :=
          Js.substring messageStartIndex messageEndIndex messageBuffer in
        let messageBuffer' := Js.substring_from messageEndIndex messageBuffer in
        let '(more, rest) := frame_loop turns' messageBuffer' in
        (messageJson :: more, rest)
    end
  end.

(** One call of [_handleData] as far as the buffer is concerned: the
    payloads it emits and the new buffer. *)
Definition handleData (messageBuffer : list N) (data : list Byte.byte)
  : list (list N) * list N :=
  let messageBuffer := messageBuffer ++ Js.toString data in
  frame_loop (length messageBuffer) messageBuffer.

(** The framer run over a sequence of chunks, from a given buffer. *)
Fixpoint feed (messageBuffer : list N) (chunks : list (list Byte.byte))
  : list (list N) * list N :=
  match chunks with
  | [] => ([], messageBuffer)
  | data :: chunks' =>
    let '(out, messageBuffer') := handleData messageBuffer data in
    let '(out', rest) := feed messageBuffer' chunks' in
    (out ++ out', rest)
  end.

(** What a sender writes: [Content-Length: n\r\n\r\n] and the payload,
    with [n] the length of the payload in bytes (as [sendRequest] computes
    it with [Buffer.byteLength]). *)
Definition digit_of (n : N) : N := 48 + n mod 10.

Fixpoint decimal_aux (fuel : nat) (n : N) (acc : list N) : list N :=
  match fuel with
  | O => acc
  | S fuel' =>
    if n <? 10 then digit_of n :: acc
    else decimal_aux fuel' (n / 10) (digit_of n :: acc)
  end.

Definition decimal (n : N) : list N := decimal_aux (S (N.to_nat n)) n [].

Definition frame_bytes (payload : list N) : list N :=
  header_name ++ decimal (N.of_nat (length payload)) ++ header_end ++ payload.

End Framer.

(** * The wire format, as a sender writes it *)

Module Wire.
Import Framer.

(** A framed message as a sender writes it, from the digits of the header
    and the payload. *)
Definition frameText (m : list N * list N) : list N :=
  header_name ++ fst m ++ header_end ++ snd m.

(** The payload is ASCII text: its bytes are its code units. *)
Definition asciiText (payload : list N) : Prop :=
  Forall (fun c => c < 128) payload.

(** A message in ASCII is well framed if the digits of its header are
    decimal digits, at least one, and give the length of the payload, which
    for ASCII text is the same in bytes and in code units. *)
Definition asciiFramed (m : list N * list N) : Prop :=
  Forall (fun c => is_digit c = true) (fst m)
  /\ fst m <> []
  /\ parseInt (fst m) = N.of_nat (length (snd m))
  /\ asciiText (snd m).

(** The messages one after the other, as they travel. *)
Definition stream (msgs : list (list N * list N)) : list N :=
  concat (map frameText msgs).

(** The bytes of the chunks, one after the other. *)
Definition bytesOf (chunks : list (list Byte.byte)) : list N :=
  concat (map (map Byte.to_N) chunks).

(** The bytes of a text in UTF-8, for code points below 2048. *)
Definition utf8 (text : list N) : list N := flat_map Js.utf8_encode_unit text.

(** A response whose result is the string "é" (U+00E9). *)
Definition accented : list N :=
  Js.codes "{" ++ [34] ++ Js.codes "id" ++ [34] ++ Js.codes ":1,"
  ++ [34] ++ Js.codes "result" ++ [34] ++ Js.codes ":" ++ [34; 233; 34]
  ++ Js.codes "}".

(** A response in ASCII. *)
Definition plainMessage : list N :=
  Js.codes "{" ++ [34] ++ Js.codes "id" ++ [34] ++ Js.codes ":2,"
  ++ [34] ++ Js.codes "result" ++ [34] ++ Js.codes ":null}".

(** The header line with its digits, and the empty line after it. *)
Definition header (ds : list N) : list N := header_name ++ ds ++ header_end.

End Wire.

(** ** Errors thrown by the code, and values received from a server *)

Inductive Error : Type :=
| NotReady (command method : string)
    (* `LSP ${command} not ready or process not running for method ${method}.` *)
| TimedOut (command method : string) (id timeoutMs : N)
    (* `LSP ${command} Request ${method} (id: ${id}) timed out after ${timeoutMs}ms` *)
| LspError (message : string) (code : Z)
    (* `LSP Error: ${message} (Code: ${code})` *)
| ProcessNotRunning
    (* 'LSP process not running.' *)
| CouldNotBeInitialized (command : string)
    (* `LSP ${command} could not be initialized.` *)
| NoLspConfigured (relativeFilePath : string)
    (* `No LSP configured for file type of ${relativeFilePath}` *)
| PathError (relativePath : string)
    (* thrown by getAbsolutePath *)
| TypeError (what : string)
    (* a property read on undefined or null *)
| IoError (path : string).
    (* a rejected fs.readFile or fs.writeFile *)

(** ** The edit applier: the body of [if (edits && edits.length > 0)] *)

Module EditApplier.

Record Position := { line : nat; character : nat }.
Record Range := { start : Position; end_ : Position }.
Record TextEdit := { range : Range; newText : list N }.

(** The comparison function given to [edits.sort]:
    [b.range.start.line - a.range.start.line ||
     b.range.start.character - a.range.start.character]. *)
Definition compareEdits (a b : TextEdit) : Z :=
  let d := (Z.of_nat (line (start (range b)))
            - Z.of_nat (line (start (range a))))%Z in
  if (d =? 0)%Z
  then (Z.of_nat (character (start (range b)))
        - Z.of_nat (character (start (range a))))%Z
  else d.

(** [Array.prototype.sort] is a stable sort; a stable insertion sort has
    the same result for every comparison function that orders the array. *)
Fixpoint insert_sorted {A} (cmp : A -> A -> Z) (x : A) (l : list A) : list A :=
  match l with
  | [] => [x]
  | y :: l' =>
    if (cmp x y <=? 0)%Z then x :: l else y :: insert_sorted cmp x l'
  end.

Fixpoint sort {A} (cmp : A -> A -> Z) (l : list A) : list A :=
  match l with
  | [] => []
  | x :: l' => insert_sorted cmp x (sort cmp l')
  end.

(** The code unit of ['\n']. *)
Definition newline : N := 10.

(** [s.split('\n')] *)
Fixpoint split (s : list N) : list (list N) :=
  match s with
  | [] => [[]]
  | c :: s' =>
    if c =? newline then [] :: split s'
    else match split s' with
         | l :: ls => (c :: l) :: ls
         | [] => [[c]]
         end
  end.

(** [lines.join('\n')] *)
Fixpoint join (lines : list (list N)) : list N :=
  match lines with
  | [] => []
  | [l] => l
  | l :: ls => l ++ newline :: join ls
  end.

(** [lines.splice(start, deleteCount, ...items)] for [start] within the
    array; the count is clamped to what is there. *)
Definition splice {A} (start deleteCount : nat) (items lines : list A)
  : list A :=
  take start lines ++ items ++ drop (start + deleteCount) lines.

(** [a.slice(from, to)] *)
Definition slice {A} (from to : nat) (a : list A) : list A :=
  take (to - from) (drop from a).

(** One turn of [for (const edit of edits)]. *)
Definition applyEdit (lines : list (list N)) (edit : TextEdit)
  : Error + list (list N) :=
  let startLine := line (start (range edit)) in
  let startChar := character (start (range edit)) in
  let endLine := line (end_ (range edit)) in
  let endChar := character (end_ (range edit)) in
  if (startLine =? endLine)%nat then
    match lines !! startLine with
    | None => inl (TypeError "lines[startLine].substring")
    | Some l =>
      let prefix := Js.substring 0 startChar l in
      let suffix := Js.substring_from endChar l in
      inr (<[startLine := prefix ++ newText edit ++ suffix]> lines)
    end
  else
    match lines !! startLine with
    | None => inl (TypeError "lines[startLine].substring")
    | Some first =>
      let firstLinePrefix := Js.substring 0 startChar first in
      match lines !! endLine with
      | None => inl (TypeError "lines[endLine].substring")
      | Some last =>
        let lastLineSuffix := Js.substring_from endChar last in
        let middleLines := split (newText edit) in
        let deleteCount := (endLine + 1 - startLine)%nat in
        match middleLines with
        | [] | [_] =>
          inr (splice startLine deleteCount
                 [firstLinePrefix ++ hd [] middleLines ++ lastLineSuffix] lines)
        | m0 :: _ =>
          let newContentLines :=
            [firstLinePrefix ++ m0]
            ++ slice 1 (length middleLines - 1) middleLines
            ++ [List.last middleLines [] ++ lastLineSuffix] in
          inr (splice startLine deleteCount newContentLines lines)
        end
      end
    end.

(** The [for] loop: a thrown error ends it. *)
Fixpoint applyInOrder (lines : list (list N)) (edits : list TextEdit)
  : Error + list (list N) :=
  match edits with
  | [] => inr lines
  | edit :: edits' =>
    match applyEdit lines edit with
    | inl e => inl e
    | inr lines' => applyInOrder lines' edits'
    end
  end.

(** From [edits.sort(...)] to [lines.join('\n')]. *)
Definition applyEdits (content : list N) (edits : list TextEdit)
  : Error + list N :=
  let edits := sort compareEdits edits in
  let lines := split content in
  match applyInOrder lines edits with
  | inl e => inl e
  | inr lines' => inr (join lines')
  end.

(** The same without the sort: the edits applied in the order given. *)
Definition applyUnsorted (content : list N) (edits : list TextEdit)
  : Error + list N :=
  match applyInOrder (split content) edits with
  | inl e => inl e
  | inr lines' => inr (join lines')
  end.

(** [a] starts strictly before [b] (line, then character). *)
Definition startsBefore (a b : TextEdit) : Prop :=
  (line (start (range a)) < line (start (range b)))%nat
  \/ (line (start (range a)) = line (start (range b))
      /\ character (start (range a)) < character (start (range b)))%nat.

(** The ranges do not overlap: [a] ends at or before the start of [b]. *)
Definition endsBeforeStart (a b : TextEdit) : Prop :=
  (line (end_ (range a)) < line (start (range b)))%nat
  \/ (line (end_ (range a)) = line (start (range b))
      /\ character (end_ (range a)) <= character (start (range b)))%nat.

End EditApplier.

(** ** The protocol client: class [LspProcess] *)

Module Lsp.
Import EditApplier.

Record LspConfig := {
  command : string;
  args : list string;
  supportedLanguageIds : list string;
}.

Definition lspServers : list (string * LspConfig) :=
  [ ("typescript",
     {| command := "typescript-language-server";
        args := ["--stdio"];
        supportedLanguageIds :=
          ["javascript"; "typescript"; "javascriptreact"; "typescriptreact"] |}) ].

(** *** Messages *)

(** A result received from the server, as far as the code looks into it:
    [result.capabilities] after the handshake, an array of edits after a
    formatting request; every other result is handed to the caller as it
    is. *)
Inductive Value : Type :=
| VNull
| VObject (capabilities : option (list string))
| VEdits (edits : list TextEdit)
| VOpaque (payload : string).

Inductive RpcId : Type := IdNum (n : N) | IdStr (s : string).

Record RpcError := { err_message : string; err_code : Z }.

Record PublishDiagnosticsParams := {
  pd_uri : string;
  pd_diagnostics : list string;
}.

(** A parsed incoming message.  An absent field is [None] ([VNull] for
    [result]). *)
Record Message := {
  msg_id : option RpcId;
  msg_method : option string;
  msg_result : Value;
  msg_error : option RpcError;
  msg_params : option PublishDiagnosticsParams;
}.

(** The [params] of the messages the code sends. *)
Inductive Params : Type :=
| PNull
| PEmpty
| PInitialize (rootUri : string)
| PDidOpen (uri languageId : string) (version : N) (text : list N)
| PDidChange (uri : string) (version : N) (text : list N)
| PPosition (uri : string) (l c : nat)
| PFormatting (uri : string) (tabSize : N) (insertSpaces : bool).

(** One [process.stdin.write(framedMessage)]: the message that was
    serialised and framed. *)
Record Frame := {
  frame_id : option N;
  frame_method : string;
  frame_params : Params;
}.

Inductive Signal : Type := SIGTERM.

(** *** Promises and timers *)

Inductive PromiseState : Type :=
| Pending
| Fulfilled (v : Value)
| Rejected (e : Error).

(** What the callback given to [setTimeout] in [sendRequest] closes over. *)
Record TimeoutTask := {
  task_id : N;
  task_promise : nat;
  task_method : string;
  task_timeoutMs : N;
}.

Inductive TimerState : Type :=
| Armed (task : TimeoutTask)
| Cleared
| Fired.

(** An entry of [pendingRequests]: [{ resolve, reject, timeout }], the two
    functions being those of one promise. *)
Record PendingRequest := {
  promise : nat;
  timeout : nat;
}.

(** The promise returned by the [async] method [_initialize]: suspended at
    its [await] on the handshake request, or settled. *)
Inductive Initialization : Type :=
| InitAwaiting (request : nat)
| InitFulfilled
| InitRejected (e : Error).

(** *** The object *)

Record LspProcess := {
  config : LspConfig;
  process : option unit;           (* the ChildProcess handle, or null *)
  messageBuffer : list N;
  pendingRequests : gmap N PendingRequest;
  requestIdCounter : N;
  diagnostics : gmap string (list string);
  openDocuments : gmap string N;
  isInitialized : bool;
  initializationPromise : option Initialization;  (* null until _start *)
  (* what the object acts on *)
  promises : list PromiseState;    (* the promises created by sendRequest *)
  timers : list TimerState;        (* the timers created by setTimeout *)
  stdin : list Frame;              (* the writes to the child's stdin, in order *)
  signals : list Signal;           (* the signals sent with process.kill *)
}.

Definition set_process v s :=
  {| config := config s; process := v; messageBuffer := messageBuffer s;
     pendingRequests := pendingRequests s; requestIdCounter := requestIdCounter s;
     diagnostics := diagnostics s; openDocuments := openDocuments s;
     isInitialized := isInitialized s;
     initializationPromise := initializationPromise s;
     promises := promises s; timers := timers s; stdin := stdin s;
     signals := signals s |}.
Definition set_messageBuffer v s :=
  {| config := config s; process := process s; messageBuffer := v;
     pendingRequests := pendingRequests s; requestIdCounter := requestIdCounter s;
     diagnostics := diagnostics s; openDocuments := openDocuments s;
     isInitialized := isInitialized s;
     initializationPromise := initializationPromise s;
     promises := promises s; timers := timers s; stdin := stdin s;
     signals := signals s |}.
Definition set_pendingRequests v s :=
  {| config := config s; process := process s; messageBuffer := messageBuffer s;
     pendingRequests := v; requestIdCounter := requestIdCounter s;
     diagnostics := diagnostics s; openDocuments := openDocuments s;
     isInitialized := isInitialized s;
     initializationPromise := initializationPromise s;
     promises := promises s; timers := timers s; stdin := stdin s;
     signals := signals s |}.
Definition set_requestIdCounter v s :=
  {| config := config s; process := process s; messageBuffer := messageBuffer s;
     pendingRequests := pendingRequests s; requestIdCounter := v;
     diagnostics := diagnostics s; openDocuments := openDocuments s;
     isInitialized := isInitialized s;
     initializationPromise := initializationPromise s;
     promises := promises s; timers := timers s; stdin := stdin s;
     signals := signals s |}.
Definition set_diagnostics v s :=
  {| config := config s; process := process s; messageBuffer := messageBuffer s;
     pendingRequests := pendingRequests s; requestIdCounter := requestIdCounter s;
     diagnostics := v; openDocuments := openDocuments s;
     isInitialized := isInitialized s;
     initializationPromise := initializationPromise s;
     promises := promises s; timers := timers s; stdin := stdin s;
     signals := signals s |}.
Definition set_openDocuments v s :=
  {| config := config s; process := process s; messageBuffer := messageBuffer s;
     pendingRequests := pendingRequests s; requestIdCounter := requestIdCounter s;
     diagnostics := diagnostics s; openDocuments := v;
     isInitialized := isInitialized s;
     initializationPromise := initializationPromise s;
     promises := promises s; timers := timers s; stdin := stdin s;
     signals := signals s |}.
Definition set_isInitialized v s :=
  {| config := config s; process := process s; messageBuffer := messageBuffer s;
     pendingRequests := pendingRequests s; requestIdCounter := requestIdCounter s;
     diagnostics := diagnostics s; openDocuments := openDocuments s;
     isInitialized := v;
     initializationPromise := initializationPromise s;
     promises := promises s; timers := timers s; stdin := stdin s;
     signals := signals s |}.
Definition set_initializationPromise v s :=
  {| config := config s; process := process s; messageBuffer := messageBuffer s;
     pendingRequests := pendingRequests s; requestIdCounter := requestIdCounter s;
     diagnostics := diagnostics s; openDocuments := openDocuments s;
     isInitialized := isInitialized s;
     initializationPromise := v;
     promises := promises s; timers := timers s; stdin := stdin s;
     signals := signals s |}.
Definition set_promises v s :=
  {| config := config s; process := process s; messageBuffer := messageBuffer s;
     pendingRequests := pendingRequests s; requestIdCounter := requestIdCounter s;
     diagnostics := diagnostics s; openDocuments := openDocuments s;
     isInitialized := isInitialized s;
     initializationPromise := initializationPromise s;
     promises := v; timers := timers s; stdin := stdin s;
     signals := signals s |}.
Definition set_timers v s :=
  {| config := config s; process := process s; messageBuffer := messageBuffer s;
     pendingRequests := pendingRequests s; requestIdCounter := requestIdCounter s;
     diagnostics := diagnostics s; openDocuments := openDocuments s;
     isInitialized := isInitialized s;
     initializationPromise := initializationPromise s;
     promises := promises s; timers := v; stdin := stdin s;
     signals := signals s |}.
Definition set_stdin v s :=
  {| config := config s; process := process s; messageBuffer := messageBuffer s;
     pendingRequests := pendingRequests s; requestIdCounter := requestIdCounter s;
     diagnostics := diagnostics s; openDocuments := openDocuments s;
     isInitialized := isInitialized s;
     initializationPromise := initializationPromise s;
     promises := promises s; timers := timers s; stdin := v;
     signals := signals s |}.
Definition set_signals v s :=
  {| config := config s; process := process s; messageBuffer := messageBuffer s;
     pendingRequests := pendingRequests s; requestIdCounter := requestIdCounter s;
     diagnostics := diagnostics s; openDocuments := openDocuments s;
     isInitialized := isInitialized s;
     initializationPromise := initializationPromise s;
     promises := promises s; timers := timers s; stdin := stdin s;
     signals := v |}.

(** What the host platform provides. *)
Record Host := {
  JSON_parse : list N -> option Message;      (* None: a SyntaxError *)
  getAbsolutePath : string -> Error + string; (* utils/fileUtils.mjs, over path.resolve *)
  isAbsolute : string -> bool;                (* path.isAbsolute *)
  fileAt : string -> string;   (* the file that fs finds at a path, links followed *)
  decodeURIComponent : string -> option string; (* None: a URIError *)
  win32 : bool;                               (* process.platform === 'win32' *)
  BASE_DIR : string;
}.

(** [resolve(v)] and [reject(e)]: settling a settled promise does nothing. *)
Definition settle (p : nat) (r : PromiseState) (s : LspProcess) : LspProcess :=
  match promises s !! p with
  | Some Pending => set_promises (<[p := r]> (promises s)) s
  | _ => s
  end.

(** [clearTimeout(t)] *)
Definition clearTimeout (t : nat) (s : LspProcess) : LspProcess :=
  match timers s !! t with
  | Some (Armed _) => set_timers (<[t := Cleared]> (timers s)) s
  | _ => s
  end.

(** The first [n] characters of a name, and the name without them.  The
    code cuts paths and URIs only behind an ASCII prefix or in front of an
    ASCII suffix, where characters and code units are the same. *)
Fixpoint firstChars (n : nat) (s : string) : string :=
  match n, s with
  | S n', String c s' => String c (firstChars n' s')
  | _, _ => EmptyString
  end.

Fixpoint withoutChars (n : nat) (s : string) : string :=
  match n, s with
  | S n', String _ s' => withoutChars n' s'
  | _, _ => s
  end.

(** [s.endsWith(suffix)] *)
Definition endsWith (suffix s : string) : bool :=
  let n := String.length s in
  let k := String.length suffix in
  (k <=? n)%nat && String.eqb (withoutChars (n - k) s) suffix.

Definition startsWith (p s : string) : bool :=
  String.eqb (firstChars (String.length p) s) p.

(** [s.replace(/\\/g, '/')] *)
Fixpoint slashes (s : string) : string :=
  match s with
  | EmptyString => EmptyString
  | String c s' =>
    String (if Ascii.eqb c (ascii_of_nat 92) then ascii_of_nat 47 else c)
           (slashes s')
  end.

Section WithHost.
Context (host : Host).

Definition _pathToUri (filePath : string) : Error + string :=
  match (if isAbsolute host filePath then inr filePath
         else getAbsolutePath host filePath) with
  | inl e => inl e
  | inr absPath => inr ("file://" +:+ slashes absPath)
  end.

(** [fsPath.match(/^\/[A-Za-z]:/)] *)
Definition drive_prefixed (fsPath : string) : bool :=
  match fsPath with
  | String c0 (String c1 (String c2 _)) =>
    Ascii.eqb c0 (ascii_of_nat 47)
    && (let n := nat_of_ascii c1 in
        ((65 <=? n) && (n <=? 90) || (97 <=? n) && (n <=? 122))%nat)
    && Ascii.eqb c2 (ascii_of_nat 58)
  | _ => false
  end.

Definition _uriToPath (uri : string) : option string :=
  if negb (startsWith "file:///" uri) then Some uri
  else
    match decodeURIComponent host uri with
    | None => None
    | Some decodedUri =>
      let fsPath := withoutChars 8 decodedUri in
      if win32 host && drive_prefixed fsPath
      then Some (withoutChars 1 fsPath)
      else Some fsPath
    end.

(** [sendRequest(method, params, timeoutMs)]: the promise it returns. *)
Definition sendRequest (method : string) (params : Params) (timeoutMs : N)
    (s : LspProcess) : nat * LspProcess :=
  if negb (bool_decide (is_Some (process s)))
     || (negb (isInitialized s) && negb (String.eqb method "initialize"))
  then
    (* Promise.reject(new Error(...)) *)
    (length (promises s),
     set_promises
       (promises s ++ [Rejected (NotReady (command (config s)) method)]) s)
  else
    let id := requestIdCounter s in
    let s := set_requestIdCounter (id + 1) s in
    let s := set_stdin (stdin s ++ [ {| frame_id := Some id;
                                        frame_method := method;
                                        frame_params := params |} ]) s in
    let p := length (promises s) in
    let s := set_promises (promises s ++ [Pending]) s in
    let t := length (timers s) in
    let s := set_timers
               (timers s ++ [Armed {| task_id := id; task_promise := p;
                                      task_method := method;
                                      task_timeoutMs := timeoutMs |}]) s in
    let s := set_pendingRequests
               (<[id := {| promise := p; timeout := t |}]> (pendingRequests s)) s in
    (p, s).

(** The callback of [setTimeout] in [sendRequest], when timer [t] expires. *)
Definition timeoutExpires (t : nat) (s : LspProcess) : LspProcess :=
  match timers s !! t with
  | Some (Armed task) =>
    let s := set_timers (<[t := Fired]> (timers s)) s in
    let s := set_pendingRequests (delete (task_id task) (pendingRequests s)) s in
    settle (task_promise task)
           (Rejected (TimedOut (command (config s)) (task_method task)
                               (task_id task) (task_timeoutMs task))) s
  | _ => s
  end.

Definition sendNotification (method : string) (params : Params)
    (s : LspProcess) : LspProcess :=
  if negb (bool_decide (is_Some (process s)))
     || (negb (isInitialized s) && negb (String.eqb method "initialized"))
  then s
  else set_stdin (stdin s ++ [ {| frame_id := None;
                                  frame_method := method;
                                  frame_params := params |} ]) s.

(** [_handleMessage(message)].  An exception it throws (a missing [params],
    a URI that does not decode) is caught by [_handleData] and the state is
    as it was. *)
Definition _handleMessage (message : Message) (s : LspProcess) : LspProcess :=
  let notification (s : LspProcess) : LspProcess :=
    if bool_decide (msg_method message = Some "textDocument/publishDiagnostics")
    then
      match msg_params message with
      | None => s
      | Some ps =>
        match _uriToPath (pd_uri ps) with
        | None => s
        | Some filePath =>
          set_diagnostics (<[filePath := pd_diagnostics ps]> (diagnostics s)) s
        end
      end
    else s (* window/showMessage, window/logMessage, any other: logged *)
  in
  match msg_id message with
  | Some (IdNum id) =>
    match pendingRequests s !! id with
    | Some entry =>
      let s := clearTimeout (timeout entry) s in
      let s :=
        match msg_error message with
        | Some err =>
          settle (promise entry)
                 (Rejected (LspError (err_message err) (err_code err))) s
        | None => settle (promise entry) (Fulfilled (msg_result message)) s
        end in
      set_pendingRequests (delete id (pendingRequests s)) s
    | None => notification s
    end
  | _ => notification s
  end.

(** [_handleData(data)]: the framer, then [JSON.parse] and
    [_handleMessage] on every payload, a payload that does not parse being
    dropped. *)
Definition _handleData (data : list Byte.byte) (s : LspProcess) : LspProcess :=
  let '(payloads, rest) := Framer.handleData (messageBuffer s) data in
  let s := set_messageBuffer rest s in
  fold_left (fun s messageJson =>
               match JSON_parse host messageJson with
               | Some message => _handleMessage message s
               | None => s
               end) payloads s.

(** The ['exit'] and ['error'] listeners installed by [_start]. *)
Definition onExit (s : LspProcess) : LspProcess :=
  set_process None (set_isInitialized false s).

Definition onError (s : LspProcess) : LspProcess :=
  set_process None (set_isInitialized false s).

Definition initializeParams : Params := PInitialize ("file://" +:+ BASE_DIR host).

(** [new LspProcess(lspConfig)]: the constructor runs [_start], which
    spawns the server and runs [_initialize] up to its [await]. *)
Definition new_LspProcess (lspConfig : LspConfig) : LspProcess :=
  let s := {| config := lspConfig; process := Some tt; messageBuffer := [];
              pendingRequests := ∅; requestIdCounter := 1;
              diagnostics := ∅; openDocuments := ∅; isInitialized := false;
              initializationPromise := None;
              promises := []; timers := []; stdin := []; signals := [] |} in
  let '(p, s) := sendRequest "initialize" initializeParams 15000 s in
  set_initializationPromise (Some (InitAwaiting p)) s.

(** [Object.keys(result.capabilities)] *)
Definition capabilityKeys (result : Value) : option (list string) :=
  match result with
  | VObject (Some keys) => Some keys
  | _ => None
  end.

(** The rest of [_initialize], run when the handshake request is settled. *)
Definition _initialize_resume (s : LspProcess) : LspProcess :=
  match initializationPromise s with
  | Some (InitAwaiting p) =>
    match promises s !! p with
    | Some (Fulfilled result) =>
      match capabilityKeys result with
      | Some _ =>
        let s := sendNotification "initialized" PEmpty s in
        let s := set_isInitialized true s in
        set_initializationPromise (Some InitFulfilled) s
      | None =>
        let s := set_isInitialized false s in
        set_initializationPromise
          (Some (InitRejected (TypeError "Object.keys(result.capabilities)"))) s
      end
    | Some (Rejected e) =>
      let s := set_isInitialized false s in
      set_initializationPromise (Some (InitRejected e)) s
    | _ => s
    end
  | _ => s
  end.

(** What reaches one client from outside. *)
Inductive ProcessEvent : Type :=
| StdoutData (data : list Byte.byte)
| ExitEvent
| ErrorEvent
| TimeoutEvent (t : nat).

(** One turn of the event loop for a client: the listener, then the
    continuation of [_initialize] if the listener settled its request. *)
Definition dispatch (e : ProcessEvent) (s : LspProcess) : LspProcess :=
  _initialize_resume
    (match e with
     | StdoutData data => _handleData data s
     | ExitEvent => onExit s
     | ErrorEvent => onError s
     | TimeoutEvent t => timeoutExpires t s
     end).

Definition getDiagnosticsForFile (absoluteFilePath : string) (s : LspProcess)
  : list string :=
  default [] (diagnostics s !! absoluteFilePath).

End WithHost.
End Lsp.

(** ** Paths *)

Module Path.

(** [path.extname] (POSIX flavour, the platform of the Dockerfile): the
    scan of Node's implementation, from the last character to the first. *)
Record Scan := {
  startDot : option nat;
  startPart : nat;
  end_ : option nat;
  matchedSlash : bool;
  preDotState : Z;
}.

Definition slash : ascii := ascii_of_nat 47.
Definition dot : ascii := ascii_of_nat 46.

(** The [for] loop over [i = path.length - 1 .. 0]; [rev_chars] holds the
    characters at [i, i-1, ..., 0]. *)
Fixpoint scan (rev_chars : list ascii) (i : nat) (st : Scan) : Scan :=
  match rev_chars with
  | [] => st
  | code :: before =>
    if Ascii.eqb code slash then
      if negb (matchedSlash st)
      then {| startDot := startDot st; startPart := i + 1; end_ := end_ st;
              matchedSlash := matchedSlash st; preDotState := preDotState st |}
      else scan before (i - 1) st
    else
      let st :=
        match end_ st with
        | None => {| startDot := startDot st; startPart := startPart st;
                     end_ := Some (i + 1)%nat; matchedSlash := false;
                     preDotState := preDotState st |}
        | Some _ => st
        end in
      let st :=
        if Ascii.eqb code dot then
          match startDot st with
          | None => {| startDot := Some i; startPart := startPart st;
                       end_ := end_ st; matchedSlash := matchedSlash st;
                       preDotState := preDotState st |}
          | Some _ =>
            if negb (preDotState st =? 1)%Z
            then {| startDot := startDot st; startPart := startPart st;
                    end_ := end_ st; matchedSlash := matchedSlash st;
                    preDotState := 1 |}
            else st
          end
        else
          match startDot st with
          | Some _ => {| startDot := startDot st; startPart := startPart st;
                         end_ := end_ st; matchedSlash := matchedSlash st;
                         preDotState := (-1) |}
          | None => st
          end in
      scan before (i - 1) st
  end.

Definition extname (path : string) : string :=
  let chars := list_ascii_of_string path in
  let st := scan (rev chars) (length chars - 1)
                 {| startDot := None; startPart := 0; end_ := None;
                    matchedSlash := true; preDotState := 0 |} in
  match startDot st, end_ st with
  | Some sd, Some e =>
    if (preDotState st =? 0)%Z
       || ((preDotState st =? 1)%Z && (sd =? e - 1)%nat
           && (sd =? startPart st + 1)%nat)
    then EmptyString
    else string_of_list_ascii (take (e - sd) (drop sd chars))
  | _, _ => EmptyString
  end.

End Path.

(** ** The event loop, and the [async] methods *)

Module Service.
Import EditApplier Lsp.

(** What the environment does next: something reaches the client stored
    under a key of [lspInstances], or the file operation (or the timer of
    [getDiagnostics]) that the running method waits for completes. *)
Inductive Event : Type :=
| ClientEvent (key : string) (e : ProcessEvent)
| Completion (failed : bool).

(** The program ([lspService], a singleton) and its surroundings.  The
    events to come are consumed in order by whatever [await]s.  A [Task]
    below is a method that runs alone: no other call starts while it
    waits.  Calls that overlap are the matter of [Overlap]. *)
Record World := {
  lspInstances : list (string * LspProcess);  (* a Map, in insertion order *)
  files : gmap string (list Byte.byte);  (* the bytes of every file, by [fileAt] *)
  future : list Event;
}.

(** [Map.prototype.get] and [Map.prototype.set] *)
Fixpoint map_get {V} (key : string) (m : list (string * V)) : option V :=
  match m with
  | [] => None
  | (k, v) :: m' => if String.eqb k key then Some v else map_get key m'
  end.

Fixpoint map_set {V} (key : string) (v : V) (m : list (string * V))
  : list (string * V) :=
  match m with
  | [] => [(key, v)]
  | (k, v0) :: m' =>
    if String.eqb k key then (k, v) :: m' else (k, v0) :: map_set key v m'
  end.

(** How an [async] method ends: it returns, it throws, or it stays
    suspended at an [await] that the events to come never complete. *)
Inductive Outcome (A : Type) : Type :=
| Returned (a : A)
| Thrown (e : Error)
| Suspended.
Arguments Returned {A} a.
Arguments Thrown {A} e.
Arguments Suspended {A}.

Definition Task (A : Type) : Type := World -> Outcome A * World.

#[global] Instance task_ret : MRet Task := fun A a w => (Returned a, w).
#[global] Instance task_bind : MBind Task := fun A B f m w =>
  match m w with
  | (Returned a, w') => f a w'
  | (Thrown e, w') => (Thrown e, w')
  | (Suspended, w') => (Suspended, w')
  end.

Definition throw {A} (e : Error) : Task A := fun w => (Thrown e, w).

Definition liftE {A} (r : Error + A) : Task A :=
  match r with inl e => throw e | inr a => mret a end.

(** [try { body } catch (error) { handler }] *)
Definition try_catch {A} (body : Task A) (handler : Error -> Task A) : Task A :=
  fun w =>
    match body w with
    | (Thrown e, w') => handler e w'
    | r => r
    end.

(** [try { body } finally { final }] *)
Definition try_finally {A} (body : Task A) (final : Task unit) : Task A :=
  fun w =>
    match body w with
    | (Suspended, w') => (Suspended, w')
    | (r, w') =>
      match final w' with
      | (Returned _, w'') => (r, w'')
      | (Thrown e, w'') => (Thrown e, w'')
      | (Suspended, w'') => (Suspended, w'')
      end
    end.

(** The object stored under [key]; a method called on [undefined] throws. *)
Definition self (key : string) : Task LspProcess := fun w =>
  match map_get key (lspInstances w) with
  | Some s => (Returned s, w)
  | None => (Thrown (TypeError "undefined"), w)
  end.

Definition set_instances v w :=
  {| lspInstances := v; files := files w; future := future w |}.
Definition set_files v w :=
  {| lspInstances := lspInstances w; files := v; future := future w |}.
Definition set_future v w :=
  {| lspInstances := lspInstances w; files := files w; future := v |}.

(** A synchronous method run on the object stored under [key]. *)
Definition call {A} (key : string) (f : LspProcess -> A * LspProcess) : Task A :=
  fun w =>
    match map_get key (lspInstances w) with
    | Some s =>
      let '(a, s') := f s in
      (Returned a, set_instances (map_set key s' (lspInstances w)) w)
    | None => (Thrown (TypeError "undefined"), w)
    end.

Definition update (key : string) (f : LspProcess -> LspProcess) : Task unit :=
  call key (fun s => (tt, f s)).

Section WithHost.
Context (host : Host).

(** One turn of the event loop. *)
Definition deliver (e : Event) (insts : list (string * LspProcess))
  : list (string * LspProcess) :=
  match e with
  | ClientEvent key pe =>
    match map_get key insts with
    | Some s => map_set key (dispatch host pe s) insts
    | None => insts
    end
  | Completion _ => insts
  end.

(** [await p] for the promise [p] of a request of the client [key]: the
    event loop turns until [p] is settled. *)
Fixpoint awaitPromise_loop (key : string) (p : nat) (events : list Event)
    (insts : list (string * LspProcess))
  : Outcome Value * (list (string * LspProcess) * list Event) :=
  match map_get key insts ≫= (fun s => promises s !! p) with
  | Some (Fulfilled v) => (Returned v, (insts, events))
  | Some (Rejected e) => (Thrown e, (insts, events))
  | _ =>
    match events with
    | [] => (Suspended, (insts, []))
    | e :: events' => awaitPromise_loop key p events' (deliver e insts)
    end
  end.

Definition awaitPromise (key : string) (p : nat) : Task Value := fun w =>
  let '(r, (insts, events)) :=
    awaitPromise_loop key p (future w) (lspInstances w) in
  (r, set_future events (set_instances insts w)).

(** [await this.initializationPromise] *)
Fixpoint awaitInitialization_loop (key : string) (events : list Event)
    (insts : list (string * LspProcess))
  : Outcome unit * (list (string * LspProcess) * list Event) :=
  match map_get key insts ≫= initializationPromise with
  | Some InitFulfilled | None => (Returned tt, (insts, events))
  | Some (InitRejected e) => (Thrown e, (insts, events))
  | Some (InitAwaiting _) =>
    match events with
    | [] => (Suspended, (insts, []))
    | e :: events' => awaitInitialization_loop key events' (deliver e insts)
    end
  end.

Definition awaitInitialization (key : string) : Task unit := fun w =>
  let '(r, (insts, events)) :=
    awaitInitialization_loop key (future w) (lspInstances w) in
  (r, set_future events (set_instances insts w)).

(** An [await] on the host: the event loop turns until the operation
    completes (at the latest when nothing else is left to happen). *)
Fixpoint awaitCompletion_loop (events : list Event)
    (insts : list (string * LspProcess))
  : bool * (list (string * LspProcess) * list Event) :=
  match events with
  | [] => (false, (insts, []))
  | Completion failed :: events' => (failed, (insts, events'))
  | e :: events' => awaitCompletion_loop events' (deliver e insts)
  end.

Definition awaitCompletion : Task bool := fun w =>
  let '(failed, (insts, events)) :=
    awaitCompletion_loop (future w) (lspInstances w) in
  (Returned failed, set_future events (set_instances insts w)).

(** [await fs.readFile(path, 'utf-8')]: the bytes of the file that is
    found at the path, decoded. *)
Definition readFile (path : string) : Task (list N) :=
  failed ← awaitCompletion;
  ((fun w =>
      match files w !! fileAt host path with
      | Some content => if failed : bool then (Thrown (IoError path), w)
                        else (Returned (Js.toString content), w)
      | None => (Thrown (IoError path), w)
      end) : Task (list N)).

(** [await fs.writeFile(path, content, 'utf-8')]: the file that is found
    at the path, or the new file there, gets the bytes of the content. *)
Definition writeFile (path : string) (content : list N) : Task unit :=
  failed ← awaitCompletion;
  if failed : bool then throw (IoError path)
  else ((fun w =>
           (Returned tt,
            set_files (<[fileAt host path := Js.fromString content]> (files w)) w))
        : Task unit).

(** The language identifier chosen in [ensureDocumentOpen]. *)
Definition languageIdFor (ids : list string) (absolutePath : string) : string :=
  let matches (id : string) : bool :=
    if String.eqb id "vue" && endsWith ".vue" absolutePath then true
    else if (String.eqb id "javascript" || String.eqb id "typescript")
            && (endsWith ".js" absolutePath || endsWith ".ts" absolutePath)
    then true
    else if (String.eqb id "javascriptreact" || String.eqb id "typescriptreact")
            && (endsWith ".jsx" absolutePath || endsWith ".tsx" absolutePath)
    then true
    else false in
  match List.find matches ids with
  | Some id => id
  | None => if endsWith ".vue" absolutePath then "vue" else "typescript"
  end.

(** [LspProcess.prototype.ensureDocumentOpen], called on the client stored
    under [key]. *)
Definition ensureDocumentOpen (key relativeFilePath : string) : Task string :=
  this ← self key;
  (if negb (isInitialized this) then awaitInitialization key else mret tt);;
  this ← self key;
  if negb (isInitialized this)
  then throw (CouldNotBeInitialized (command (config this)))
  else
    absolutePath ← liftE (getAbsolutePath host relativeFilePath);
    let languageId :=
      languageIdFor (supportedLanguageIds (config this)) absolutePath in
    (if negb (bool_decide (is_Some (openDocuments this !! absolutePath))) then
       content ← readFile absolutePath;
       let version := 1 in
       uri ← liftE (_pathToUri host absolutePath);
       update key (sendNotification "textDocument/didOpen"
                     (PDidOpen uri languageId version content));;
       update key (fun s => set_openDocuments
                              (<[absolutePath := version]> (openDocuments s)) s)
     else mret tt);;
    mret absolutePath.

(** The [finally] block of [close]. *)
Definition closeFinally (key : string) : Task unit :=
  update key (sendNotification "exit" PNull);;
  this ← self key;
  match process this with
  | None => throw (TypeError "this.process.kill")
  | Some _ =>
    update key (fun s => set_signals (signals s ++ [SIGTERM]) s);;
    update key (set_isInitialized false);;
    update key (set_process None)
  end.

(** [LspProcess.prototype.close] *)
Definition close (key : string) : Task unit :=
  this ← self key;
  if bool_decide (is_Some (process this)) then
    try_finally
      (try_catch
         (if isInitialized this then
            p ← call key (sendRequest "shutdown" PNull 2000);
            awaitPromise key p;;
            mret tt
          else mret tt)
         (fun error => mret tt))
      (closeFinally key)
  else mret tt.

(** *** class [LspService] *)

(** [_initializeInstances], for a table of servers. *)
Definition _initializeInstances (servers : list (string * LspConfig))
  : list (string * LspProcess) :=
  fold_left (fun m '(key, config) => map_set key (new_LspProcess host config) m)
            servers [].

(** [new LspService()], with the files and the events to come. *)
Definition new_LspService (fs : gmap string (list Byte.byte)) (events : list Event)
  : World :=
  {| lspInstances := _initializeInstances lspServers;
     files := fs; future := events |}.

(** [_getLspInstanceForFile]: the key of the instance it returns, [None]
    when it returns [undefined]. *)
Definition _getLspInstanceForFile (filePath : string) (w : World)
  : option string :=
  let get key := match map_get key (lspInstances w) with
                 | Some _ => Some key
                 | None => None
                 end in
  let ext := Path.extname filePath in
  if String.eqb ext ".vue" then get "vue"
  else if bool_decide (ext ∈ [".ts"; ".tsx"; ".js"; ".jsx"]) then get "typescript"
  else get "typescript".

(** The first two lines of every public operation. *)
Definition selectOrThrow (relativeFilePath : string) : Task string := fun w =>
  match _getLspInstanceForFile relativeFilePath w with
  | Some lsp => (Returned lsp, w)
  | None => (Thrown (NoLspConfigured relativeFilePath), w)
  end.

Definition getDiagnostics (relativeFilePath : string) : Task (list string) :=
  lsp ← selectOrThrow relativeFilePath;
  absolutePath ← ensureDocumentOpen lsp relativeFilePath;
  awaitCompletion;;
  this ← self lsp;
  mret (getDiagnosticsForFile absolutePath this).

Definition getCompletions (relativeFilePath : string) (l c : nat) : Task Value :=
  lsp ← selectOrThrow relativeFilePath;
  absolutePath ← ensureDocumentOpen lsp relativeFilePath;
  uri ← liftE (_pathToUri host absolutePath);
  p ← call lsp (sendRequest "textDocument/completion" (PPosition uri l c) 5000);
  awaitPromise lsp p.

Definition findDefinition (relativeFilePath : string) (l c : nat) : Task Value :=
  lsp ← selectOrThrow relativeFilePath;
  absolutePath ← ensureDocumentOpen lsp relativeFilePath;
  uri ← liftE (_pathToUri host absolutePath);
  p ← call lsp (sendRequest "textDocument/definition" (PPosition uri l c) 5000);
  awaitPromise lsp p.

Inductive FormatResult : Type :=
| Applied (newContent : list N)   (* { applied: true, newContent } *)
| NotApplied.                     (* { applied: false, message } *)

(** The end of [formatDocument]: the new version is stored and sent. *)
Definition notifyChange (lsp absolutePath : string) (newContent : list N)
  : Task unit :=
  this ← self lsp;
  let currentVersion :=
    match openDocuments this !! absolutePath with
    | Some v => if v =? 0 then 1 else v
    | None => 1
    end in
  let newVersion := currentVersion + 1 in
  update lsp (fun s => set_openDocuments
                         (<[absolutePath := newVersion]> (openDocuments s)) s);;
  uri ← liftE (_pathToUri host absolutePath);
  update lsp (sendNotification "textDocument/didChange"
                (PDidChange uri newVersion newContent)).

Definition formatDocument (relativeFilePath : string) : Task FormatResult :=
  lsp ← selectOrThrow relativeFilePath;
  absolutePath ← ensureDocumentOpen lsp relativeFilePath;
  uri ← liftE (_pathToUri host absolutePath);
  p ← call lsp (sendRequest "textDocument/formatting"
                  (PFormatting uri 2 true) 5000);
  edits ← awaitPromise lsp p;
  match edits with
  | VEdits ((_ :: _) as edits) =>
    content ← readFile absolutePath;
    newContent ← liftE (applyEdits content edits);
    writeFile absolutePath newContent;;
    notifyChange lsp absolutePath newContent;;
    mret (Applied newContent)
  | _ => mret NotApplied
  end.

(** The value of [edits] in [formatDocument]: what the server answers to
    the formatting request of the call. *)
Definition formattingAnswer (relativeFilePath : string) : Task Value :=
  lsp ← selectOrThrow relativeFilePath;
  absolutePath ← ensureDocumentOpen lsp relativeFilePath;
  uri ← liftE (_pathToUri host absolutePath);
  p ← call lsp (sendRequest "textDocument/formatting"
                  (PFormatting uri 2 true) 5000);
  awaitPromise lsp p.

(** [for (const instance of this.lspInstances.values()) await instance.close()] *)
Fixpoint closeEach (keys : list string) : Task unit :=
  match keys with
  | [] => mret tt
  | key :: keys' => close key;; closeEach keys'
  end.

Definition shutdownAll : Task unit := fun w =>
  closeEach (map fst (lspInstances w)) w.

End WithHost.
End Service.

(** ** Vocabulary of the properties *)

Module Trace.
Import Lsp.

(** The client is not in the Ready state. *)
Definition notReady (s : LspProcess) : Prop :=
  process s = None \/ isInitialized s = false.

Definition ready (s : LspProcess) : Prop :=
  process s = Some tt /\ isInitialized s = true.

(** The server exits, or its pipe reports an error. *)
Definition termination (e : ProcessEvent) : Prop :=
  e = ExitEvent \/ e = ErrorEvent.

(** Everything the program ever does to an [LspProcess]: a turn of the
    event loop, and the synchronous steps of the methods. *)
Inductive Action : Type :=
| AEvent (e : ProcessEvent)
| ARequest (method : string) (params : Params) (timeoutMs : N)
| ANotify (method : string) (params : Params)
| ASetVersion (path : string) (version : N)  (* openDocuments.set *)
| AKill                                      (* process.kill('SIGTERM') *)
| AUninitialize                              (* isInitialized = false *)
| ADropProcess.                              (* process = null *)

Section WithHost.
Context (host : Host).

Definition act (a : Action) (s : LspProcess) : LspProcess :=
  match a with
  | AEvent e => dispatch host e s
  | ARequest method params timeoutMs =>
    snd (sendRequest method params timeoutMs s)
  | ANotify method params => sendNotification method params s
  | ASetVersion path version =>
    set_openDocuments (<[path := version]> (openDocuments s)) s
  | AKill => set_signals (signals s ++ [SIGTERM]) s
  | AUninitialize => set_isInitialized false s
  | ADropProcess => set_process None s
  end.

Definition run (actions : list Action) (s : LspProcess) : LspProcess :=
  fold_left (fun s a => act a s) actions s.

End WithHost.

(** The pending requests, their promises and their timers fit together:
    a pending request has an identifier already handed out, a promise that
    is not settled and an armed timer that names it; an armed timer names
    a pending request; two pending requests do not share a promise. *)
Definition consistent (s : LspProcess) : Prop :=
  (forall id entry, pendingRequests s !! id = Some entry ->
     id < requestIdCounter s
     /\ promises s !! promise entry = Some Pending
     /\ exists task, timers s !! timeout entry = Some (Armed task)
                     /\ task_id task = id
                     /\ task_promise task = promise entry)
  /\ (forall t task, timers s !! t = Some (Armed task) ->
        pendingRequests s !! task_id task
        = Some {| promise := task_promise task; timeout := t |})
  /\ (forall id id' entry entry',
        pendingRequests s !! id = Some entry ->
        pendingRequests s !! id' = Some entry' ->
        promise entry = promise entry' -> id = id').

(** The promise is settled. *)
Definition settledAt (s : LspProcess) (p : nat) : Prop :=
  exists x, promises s !! p = Some x /\ x <> Pending.

Record evolves (s s' : LspProcess) : Prop := {
  ev_counter : requestIdCounter s <= requestIdCounter s';
  ev_settled : forall q x, promises s !! q = Some x -> x <> Pending ->
                           promises s' !! q = Some x;
  ev_absent : forall id, id < requestIdCounter s ->
                         pendingRequests s !! id = None ->
                         pendingRequests s' !! id = None;
  ev_timer : forall t task, timers s !! t = Some (Armed task) ->
                            timers s' !! t = Some (Armed task)
                            \/ settledAt s' (task_promise task);
  ev_config : config s' = config s;
}.

(** The guard of [sendRequest] lets the request through. *)
Definition accepts (method : string) (s : LspProcess) : Prop :=
  is_Some (process s) /\ (isInitialized s = true \/ method = "initialize").

(** The client after the [finally] block of [close] has run on it. *)
Definition killed (s : LspProcess) : LspProcess :=
  let s := sendNotification "exit" PNull s in
  set_process None
    (set_isInitialized false (set_signals (signals s ++ [SIGTERM]) s)).

(** The version carried by a frame, if the frame is a document
    notification ("open" or "change") for [uri]. *)
Definition versionOf (uri : string) (f : Frame) : option N :=
  match frame_params f with
  | PDidOpen u _ v _ | PDidChange u v _ =>
    if String.eqb u uri then Some v else None
  | _ => None
  end.

(** The versions sent for [uri], in the order in which they were written. *)
Definition versionsSent (uri : string) (frames : list Frame) : list N :=
  omap (versionOf uri) frames.

Definition isOpenOf (uri : string) (f : Frame) : bool :=
  match frame_params f with
  | PDidOpen u _ _ _ => String.eqb u uri
  | _ => false
  end.

(** The number of "open" notifications sent for [uri]. *)
Definition opensSent (uri : string) (frames : list Frame) : nat :=
  length (filter (fun f => isOpenOf uri f = true) frames).

(** 1, 2, ..., n *)
Definition countUp (n : nat) : list N := map N.of_nat (seq 1 n).

(** The client can no longer become ready: it has no process handle, or
    its handshake is over and it is not initialized. *)
Definition dead (s : LspProcess) : Prop :=
  process s = None
  \/ (isInitialized s = false
      /\ forall p, initializationPromise s <> Some (InitAwaiting p)).

Definition isEvent (a : Action) : Prop := exists e, a = AEvent e.

(** The fields that only the methods change, not the listeners. *)
Definition sameSession (s s' : LspProcess) : Prop :=
  stdin s' = stdin s
  /\ openDocuments s' = openDocuments s
  /\ process s' = process s
  /\ isInitialized s' = isInitialized s
  /\ initializationPromise s' = initializationPromise s.

Definition initializedFrame : Frame :=
  {| frame_id := None; frame_method := "initialized"; frame_params := PEmpty |}.

(** The frames written by the listeners say nothing about documents. *)
Definition silent (frames : list Frame) : Prop :=
  forall uri, versionsSent uri frames = [] /\ opensSent uri frames = 0%nat.

(** The client after the document has been opened. *)
Definition opened (a uri lang : string) (content : list N) (s : LspProcess)
  : LspProcess :=
  let s := sendNotification "textDocument/didOpen"
             (PDidOpen uri lang 1 content) s in
  set_openDocuments (<[a := 1]> (openDocuments s)) s.

Section OpenBlock.
Context (host : Host).
Import Service.

(** The block of [ensureDocumentOpen] that opens the document. *)
Definition openBlock (key absolutePath languageId : string) : Task unit :=
  content ← readFile host absolutePath;
  uri ← liftE (_pathToUri host absolutePath);
  update key (sendNotification "textDocument/didOpen"
                (PDidOpen uri languageId 1 content));;
  update key (fun s => set_openDocuments
                         (<[absolutePath := 1]> (openDocuments s)) s).

(** [ensureDocumentOpen] on a client that is initialized. *)
End OpenBlock.

(** A response to the request [id]: it carries the identifier and no
    method. *)
Definition responseTo (id : N) (message : Message) : Prop :=
  msg_id message = Some (IdNum id) /\ msg_method message = None.

End Trace.

(** ** Vocabulary of the properties of document versions *)

Module Versions.
Import Lsp Service Trace.

(** The client after [formatDocument] has stored and sent a new version. *)
Definition changed (a uri : string) (text : list N) (s : LspProcess)
  : LspProcess :=
  let currentVersion :=
    match openDocuments s !! a with
    | Some v => if v =? 0 then 1 else v
    | None => 1
    end in
  let newVersion := currentVersion + 1 in
  let s := set_openDocuments (<[a := newVersion]> (openDocuments s)) s in
  sendNotification "textDocument/didChange" (PDidChange uri newVersion text) s.

(** No condition on the clients, and none on the paths. *)
Abbreviation anything := (fun _ : list (string * LspProcess) => True).
Definition anyPath : string -> Prop := fun _ => True.

(** A request whose parameters are not those of a document notification. *)
Definition plain (params : Params) : Prop :=
  match params with
  | PDidOpen _ _ _ _ | PDidChange _ _ _ => False
  | _ => True
  end.

Section WithHost.
Context (host : Host).
(** The paths that the operations are called with. *)
Context (used : string -> Prop).

(** Two of the paths used that are different files have different URIs.
    ([_pathToUri] makes every backslash a slash, so that on a POSIX system
    the files [a\b.ts] and [a/b.ts] share a URI.) *)
Definition distinctUris : Prop :=
  forall r1 r2 a1 a2 uri,
    used r1 -> used r2 ->
    getAbsolutePath host r1 = inr a1 -> getAbsolutePath host r2 = inr a2 ->
    _pathToUri host a1 = inr uri -> _pathToUri host a2 = inr uri -> a1 = a2.

(** What the methods and the event loop do to one client, step by step. *)
Inductive sessionStep (s : LspProcess) : LspProcess -> Prop :=
| step_event (e : ProcessEvent) :
    sessionStep s (dispatch host e s)
| step_request (method : string) (params : Params) (timeoutMs : N) :
    plain params ->
    sessionStep s (snd (sendRequest method params timeoutMs s))
| step_exit :
    sessionStep s (sendNotification "exit" PNull s)
| step_signal :
    sessionStep s (set_signals (signals s ++ [SIGTERM]) s)
| step_uninitialize :
    sessionStep s (set_isInitialized false s)
| step_drop :
    sessionStep s (set_process None s)
| step_open (rel a uri lang : string) (content : list N) :
    used rel ->
    getAbsolutePath host rel = inr a ->
    _pathToUri host a = inr uri ->
    openDocuments s !! a = None ->
    isInitialized s = true \/ dead s ->
    sessionStep s (opened a uri lang content s)
| step_change (a uri : string) (text : list N) :
    is_Some (openDocuments s !! a) ->
    _pathToUri host a = inr uri ->
    isInitialized s = true \/ dead s ->
    sessionStep s (changed a uri text s).

(** The versions stored and the versions sent fit together. *)
Definition versioned (s : LspProcess) : Prop :=
  (forall a v, openDocuments s !! a = Some v ->
     (exists rel, used rel /\ getAbsolutePath host rel = inr a)
     /\ exists uri n,
          _pathToUri host a = inr uri
          /\ versionsSent uri (stdin s) = countUp n
          /\ 1 <= v
          /\ (N.of_nat n = v \/ (N.of_nat n <= v /\ dead s)))
  /\ (forall uri, versionsSent uri (stdin s) <> [] ->
        exists a v, openDocuments s !! a = Some v
                    /\ _pathToUri host a = inr uri).

(** The event loop has turned some number of times. *)
Definition turned (insts insts' : list (string * LspProcess)) : Prop :=
  forall key,
    match map_get key insts with
    | Some s => exists actions,
        Forall isEvent actions
        /\ map_get key insts' = Some (run host actions s)
    | None => map_get key insts' = None
    end.

(** Every client has made some number of steps. *)
Definition advances (insts insts' : list (string * LspProcess)) : Prop :=
  forall key,
    match map_get key insts with
    | Some s => exists s', map_get key insts' = Some s'
                           /\ rtc sessionStep s s'
    | None => map_get key insts' = None
    end.

(** A method, started where [P] holds, makes the clients advance by
    steps, and where it returns [Q] holds. *)
Definition spec {A} (P : list (string * LspProcess) -> Prop) (m : Task A)
    (Q : A -> list (string * LspProcess) -> Prop) : Prop :=
  forall w, P (lspInstances w) ->
    advances (lspInstances w) (lspInstances (snd (m w)))
    /\ forall a, fst (m w) = Returned a -> Q a (lspInstances (snd (m w))).

(** [P] cannot be falsified by the event loop. *)
Definition stable (P : list (string * LspProcess) -> Prop) : Prop :=
  forall insts insts', P insts -> turned insts insts' -> P insts'.

(** The document [a] is open on a client that was initialized when the
    method looked. *)
Definition docReady (a : string) (s : LspProcess) : Prop :=
  is_Some (openDocuments s !! a) /\ (isInitialized s = true \/ dead s).

(** The client stored under [key] satisfies [phi]. *)
Definition holds (key : string) (phi : LspProcess -> Prop)
    (insts : list (string * LspProcess)) : Prop :=
  exists s, map_get key insts = Some s /\ phi s.

Definition allVersioned (insts : list (string * LspProcess)) : Prop :=
  forall key s, map_get key insts = Some s -> versioned s.

(** What is done with the service: a public operation is called, or the
    event loop turns while none of them runs. *)
Inductive ApiCall : Type :=
| GetDiagnostics (relativeFilePath : string)
| GetCompletions (relativeFilePath : string) (l c : nat)
| FindDefinition (relativeFilePath : string) (l c : nat)
| FormatDocument (relativeFilePath : string)
| ShutdownAll
| Turn.

Definition perform (c : ApiCall) (w : World) : World :=
  match c with
  | GetDiagnostics path => snd (getDiagnostics host path w)
  | GetCompletions path l c => snd (getCompletions host path l c w)
  | FindDefinition path l c => snd (findDefinition host path l c w)
  | FormatDocument path => snd (formatDocument host path w)
  | ShutdownAll => snd (shutdownAll host w)
  | Turn =>
    match future w with
    | [] => w
    | e :: events =>
      {| lspInstances := deliver host e (lspInstances w);
         files := files w; future := events |}
    end
  end.

(** The operations are called one after the other: each one has returned,
    thrown or come to a halt before the next one is called. *)
Definition oneAfterAnother (calls : list ApiCall) (w : World) : World :=
  fold_left (fun w c => perform c w) calls w.

(** The path that an operation is called with. *)
Definition pathOf (c : ApiCall) : option string :=
  match c with
  | GetDiagnostics path | GetCompletions path _ _
  | FindDefinition path _ _ | FormatDocument path => Some path
  | ShutdownAll | Turn => None
  end.

Definition paths (calls : list ApiCall) : list string := omap pathOf calls.

End WithHost.
End Versions.

(** ** Calls that overlap *)

Module Overlap.
Import Lsp Service Trace.

(** [ensureDocumentOpen] is an [async] method: a call runs up to an
    [await] and goes on in a later turn of the event loop; in between,
    events are delivered and other calls start or go on.  Where a call
    waits: *)
Inductive Waiting : Type :=
| AtInitialization (relativeFilePath : string)
    (* await this.initializationPromise *)
| AtReadFile (relativeFilePath absolutePath languageId : string).
    (* await fs.readFile(absolutePath, 'utf-8') *)

(** A call that has started waits, or is over. *)
Inductive Progress : Type :=
| Waits (where_ : Waiting)
| Ends (result : Error + string).

(** One client, the files, and the calls of [ensureDocumentOpen] that have
    been made on the client, in the order in which they started. *)
Record Session := {
  client : LspProcess;
  disk : gmap string (list Byte.byte);
  calls : list Progress;
}.

(** What happens next: an event reaches the client, a call starts, the
    call number [i] goes on because the handshake is over, or because its
    file has been read (or could not be read). *)
Inductive Move : Type :=
| Event (e : ProcessEvent)
| Call (relativeFilePath : string)
| Initialized (i : nat)
| Read (i : nat) (failed : bool).

Section WithHost.
Context (host : Host).

(** From the second test of [isInitialized] to the [await] of
    [readFile]. *)
Definition look (relativeFilePath : string) (s : LspProcess) : Progress :=
  if negb (isInitialized s)
  then Ends (inl (CouldNotBeInitialized (command (config s))))
  else
    match getAbsolutePath host relativeFilePath with
    | inl e => Ends (inl e)
    | inr absolutePath =>
      let languageId :=
        languageIdFor (supportedLanguageIds (config s)) absolutePath in
      if negb (bool_decide (is_Some (openDocuments s !! absolutePath)))
      then Waits (AtReadFile relativeFilePath absolutePath languageId)
      else Ends (inr absolutePath)
    end.

(** The start of a call, up to its first [await]. *)
Definition begin (relativeFilePath : string) (s : LspProcess) : Progress :=
  if negb (isInitialized s) then Waits (AtInitialization relativeFilePath)
  else look relativeFilePath s.

(** The call goes on behind [await this.initializationPromise], once that
    promise is settled. *)
Definition afterInitialization (relativeFilePath : string) (s : LspProcess)
  : Progress :=
  match initializationPromise s with
  | Some (InitAwaiting _) => Waits (AtInitialization relativeFilePath)
  | Some (InitRejected e) => Ends (inl e)
  | Some InitFulfilled | None => look relativeFilePath s
  end.

(** The call goes on behind [await fs.readFile(...)]. *)
Definition afterReadFile (absolutePath languageId : string)
    (read : Error + list N) (s : LspProcess) : Progress * LspProcess :=
  match read with
  | inl e => (Ends (inl e), s)
  | inr content =>
    match _pathToUri host absolutePath with
    | inl e => (Ends (inl e), s)
    | inr uri =>
      (Ends (inr absolutePath), opened absolutePath uri languageId content s)
    end
  end.

(** What [fs.readFile(path, 'utf-8')] gives. *)
Definition read (files : gmap string (list Byte.byte)) (path : string)
    (failed : bool) : Error + list N :=
  match files !! fileAt host path with
  | Some content => if failed then inl (IoError path) else inr (Js.toString content)
  | None => inl (IoError path)
  end.

Definition move (m : Move) (x : Session) : Session :=
  match m with
  | Event e =>
    {| client := dispatch host e (client x); disk := disk x; calls := calls x |}
  | Call relativeFilePath =>
    {| client := client x; disk := disk x;
       calls := calls x ++ [begin relativeFilePath (client x)] |}
  | Initialized i =>
    match calls x !! i with
    | Some (Waits (AtInitialization relativeFilePath)) =>
      {| client := client x; disk := disk x;
         calls := <[i := afterInitialization relativeFilePath (client x)]> (calls x) |}
    | _ => x
    end
  | Read i failed =>
    match calls x !! i with
    | Some (Waits (AtReadFile _ absolutePath languageId)) =>
      let '(progress, s) :=
        afterReadFile absolutePath languageId
                      (read (disk x) absolutePath failed) (client x) in
      {| client := s; disk := disk x; calls := <[i := progress]> (calls x) |}
    | _ => x
    end
  end.

Definition play (moves : list Move) (x : Session) : Session :=
  fold_left (fun x m => move m x) moves x.

(** The move is not the start of a call. *)
Definition goesOn (m : Move) : Prop :=
  match m with Call _ => False | _ => True end.

End WithHost.
End Overlap.

(** ** Header fields other than the length *)

Module Fields.

(** A header field that a server may write before [Content-Length]:
    [Content-Type: t], ended by a line break. *)
Definition typeField (t : list N) : list N :=
  Js.codes "Content-Type: " ++ t ++ [13; 10].

(** The text has no "C". *)
Definition noC (text : list N) : Prop := Forall (fun c => c <> 67) text.

End Fields.

(** ** Vocabulary of the properties of requests and responses *)

Module Requests.
Import Lsp.

(** The identifiers of the requests written to the server, in order. *)
Definition requestIds (frames : list Frame) : list N := omap frame_id frames.

(** How [_handleMessage] settles the promise of the request a message
    answers: [reject(new Error(...))] if the message has an [error],
    [resolve(message.result)] otherwise. *)
Definition outcome (message : Message) : PromiseState :=
  match msg_error message with
  | Some err => Rejected (LspError (err_message err) (err_code err))
  | None => Fulfilled (msg_result message)
  end.

(** The message is not taken for a response: it has no identifier, or one
    that is not a number, or one that no pending request has. *)
Definition unsolicited (message : Message) (s : LspProcess) : Prop :=
  match msg_id message with
  | Some (IdNum id) => pendingRequests s !! id = None
  | _ => True
  end.

(** The requests written so far carry the identifiers 1, 2, ... up to the
    counter. *)
Definition numbered (s : LspProcess) : Prop :=
  1 <= requestIdCounter s
  /\ requestIds (stdin s)
     = Trace.countUp (N.to_nat (requestIdCounter s) - 1).

(** A [textDocument/publishDiagnostics] notification. *)
Definition publishDiagnostics (uri : string) (diagnostics : list string)
  : Message :=
  {| msg_id := None; msg_method := Some "textDocument/publishDiagnostics";
     msg_result := VNull; msg_error := None;
     msg_params := Some {| pd_uri := uri; pd_diagnostics := diagnostics |} |}.

End Requests.

(** ** Vocabulary of the properties of files and edits *)

Module Files.
Import Service.

(** However the method ends, the files are as they were. *)
Definition keepsFiles {A} (m : Task A) : Prop :=
  forall w, files (snd (m w)) = files w.

End Files.

Module Edits.
Import EditApplier.

(** The text of a document before a position, and from a position on;
    the position is on one of the lines, its character clamped to the
    length of the line as [substring] does. *)
Definition textBefore (lines : list (list N)) (p : Position) : list N :=
  match lines !! line p with
  | Some l => join (take (line p) lines ++ [Js.substring 0 (character p) l])
  | None => []
  end.

Definition textFrom (lines : list (list N)) (p : Position) : list N :=
  match lines !! line p with
  | Some l => join (Js.substring_from (character p) l :: drop (S (line p)) lines)
  | None => []
  end.

(** The edit is on lines of the document, and does not end on a line
    above the one where it starts. *)
Definition onLines (lines : list (list N)) (edit : TextEdit) : Prop :=
  (line (start (range edit)) <= line (end_ (range edit))
   /\ line (end_ (range edit)) < length lines)%nat.

End Edits.

(** ** Vocabulary of the handshake *)

Module Handshake.
Import Lsp.

Section WithHost.
Context (host : Host).

(** The request that [_initialize] writes. *)
Definition initializeFrame : Frame :=
  {| frame_id := Some 1; frame_method := "initialize";
     frame_params := initializeParams host |}.

(** How the promise of [_initialize] is settled by a response to the
    handshake request: fulfilled if the response has a result with
    [capabilities]; rejected with the error of the response; rejected
    with the [TypeError] of [Object.keys(result.capabilities)] if the
    result has no [capabilities]. *)
Definition handshakeOutcome (message : Message) : Initialization :=
  match msg_error message with
  | Some err => InitRejected (LspError (err_message err) (err_code err))
  | None =>
    match capabilityKeys (msg_result message) with
    | Some _ => InitFulfilled
    | None => InitRejected (TypeError "Object.keys(result.capabilities)")
    end
  end.

(** The response has no error and a result with [capabilities]. *)
Definition accepted (message : Message) : bool :=
  match msg_error message, capabilityKeys (msg_result message) with
  | None, Some _ => true
  | _, _ => false
  end.

End WithHost.
End Handshake.

(** ** Paths under the base directory: [utils/fileUtils.mjs] *)

Module FileUtils.

(** What the functions take from Node's [path] module and from
    [config.mjs]. *)
Record Env := {
  normalize : string -> string;           (* path.normalize *)
  resolve : string -> string -> string;   (* path.resolve, with two arguments *)
  sep : string;                           (* path.sep *)
  BASE_DIR : string;
  READ_ONLY_MODE : bool;
}.

Inductive Failure : Type :=
| InvalidRelativePath
    (* 'Invalid relative path provided.' *)
| PathNotAllowed (relativePath : string)
    (* `Path not allowed: ... is outside the configured base directory or is invalid.` *)
| ReadOnlyMode.
    (* 'Operation not allowed: Server is in read-only mode.' *)

Section WithEnv.
Context (env : Env).

(** [isPathAllowed(relativePath)], for a string. *)
Definition isPathAllowed (relativePath : string) : bool :=
  let normalizedRelativePath := normalize env relativePath in
  if Lsp.startsWith ".." normalizedRelativePath then false
  else
    let absolutePath := resolve env (BASE_DIR env) normalizedRelativePath in
    let isAllowed :=
      Lsp.startsWith (BASE_DIR env +:+ sep env) absolutePath
      || String.eqb absolutePath (BASE_DIR env) in
    isAllowed.

(** [getAbsolutePath(relativePath)], for a string; the empty string is
    the one that [!relativePath] refuses. *)
Definition getAbsolutePath (relativePath : string) : Failure + string :=
  if String.eqb relativePath "" then inl InvalidRelativePath
  else if negb (isPathAllowed relativePath)
  then inl (PathNotAllowed relativePath)
  else inr (resolve env (BASE_DIR env) (normalize env relativePath)).

Definition ensureNotReadOnly : Failure + unit :=
  if READ_ONLY_MODE env then inl ReadOnlyMode else inr tt.

(** The path is the base directory or lies below it. *)
Definition inside (absolutePath : string) : Prop :=
  absolutePath = BASE_DIR env
  \/ Lsp.startsWith (BASE_DIR env +:+ sep env) absolutePath = true.

(** The client resolves its paths with [getAbsolutePath] of this module. *)
Definition resolvesPaths (host : Lsp.Host) : Prop :=
  forall relativePath,
    Lsp.getAbsolutePath host relativePath
    = match getAbsolutePath relativePath with
      | inl _ => inl (PathError relativePath)
      | inr absolutePath => inr absolutePath
      end.

End WithEnv.
End FileUtils.

(** ** The commands that may be run: [config.mjs] and [utils/security.mjs] *)

Module Config.

(** An entry of [ALLOWED_COMMANDS]; a field that the entry does not have
    is [None]. *)
Record CommandConfig := {
  baseCommand : option string;
  allowedArgs : option (list string);
}.

Definition ALLOWED_COMMANDS : list (string * CommandConfig) :=
  [ ("git", {| baseCommand := Some "git";
               allowedArgs := Some ["status"; "diff"; "log"; "show"; "branch";
                                    "tag"; "rev-parse"] |});
    ("grep", {| baseCommand := Some "grep"; allowedArgs := None |});
    ("find", {| baseCommand := Some "find"; allowedArgs := None |});
    ("ls", {| baseCommand := Some "ls"; allowedArgs := None |});
    ("cat", {| baseCommand := Some "cat"; allowedArgs := None |});
    ("diff", {| baseCommand := Some "diff"; allowedArgs := None |});
    ("mkdir", {| baseCommand := Some "mkdir"; allowedArgs := None |}) ].

End Config.

Module Security.
Import Config.

(** The properties that an object literal inherits from
    [Object.prototype]; each of them is a function or an object, and has
    neither a [baseCommand] nor an [allowedArgs]. *)
Definition objectPrototypeKeys : list string :=
  [ "constructor"; "__defineGetter__"; "__defineSetter__"; "hasOwnProperty";
    "__lookupGetter__"; "__lookupSetter__"; "isPrototypeOf";
    "propertyIsEnumerable"; "toString"; "valueOf"; "__proto__";
    "toLocaleString" ].

(** [ALLOWED_COMMANDS[command]]: an entry of the table, an inherited
    property, or [undefined]. *)
Definition commandConfigOf (command : string) : option CommandConfig :=
  match Service.map_get command ALLOWED_COMMANDS with
  | Some commandConfig => Some commandConfig
  | None =>
    if bool_decide (command ∈ objectPrototypeKeys)
    then Some {| baseCommand := None; allowedArgs := None |}
    else None
  end.

(** [array.join(', ')] *)
Fixpoint joinComma (items : list string) : string :=
  match items with
  | [] => ""
  | [x] => x
  | x :: rest => x +:+ ", " +:+ joinComma rest
  end.

Definition quote : string := String (ascii_of_nat 34) "".

(** The result of [validateCommand]: [{ isAllowed: false, error }] or
    [{ isAllowed: true, baseCommand, sanitizedArgs }]. *)
Inductive Validation : Type :=
| Denied (error : string)
| Allowed (baseCommand : string) (sanitizedArgs : list string).

(** [validateCommand(command, args)] for a string and an array of
    strings; nothing in its [try] block throws on these. *)
Definition validateCommand (command : string) (args : list string) : Validation :=
  match commandConfigOf command with
  | None =>
    Denied ("Command not allowed: " +:+ command +:+ ". Allowed commands are: "
            +:+ joinComma (map fst ALLOWED_COMMANDS) +:+ ".")
  | Some commandConfig =>
    let allowed :=
      Allowed (match baseCommand commandConfig with
               | Some b => if String.eqb b "" then command else b
               | None => command
               end) args in
    match allowedArgs commandConfig, args with
    | Some permittedFirstArgs, firstArg :: _ =>
      if negb (bool_decide (firstArg ∈ permittedFirstArgs))
      then Denied ("Argument " +:+ quote +:+ firstArg +:+ quote
                   +:+ " for command " +:+ quote
                   +:+ default "undefined" (baseCommand commandConfig) +:+ quote
                   +:+ " is not allowed. Permitted first arguments: "
                   +:+ joinComma permittedFirstArgs +:+ ".")
      else allowed
    | _, _ => allowed
    end
  end.

(** The first arguments that [git] may be given. *)
Definition gitSubcommands : list string :=
  ["status"; "diff"; "log"; "show"; "branch"; "tag"; "rev-parse"].

(** The commands of the table that take any arguments. *)
Definition unrestricted : list string :=
  ["grep"; "find"; "ls"; "cat"; "diff"; "mkdir"].

End Security.

(** ** The tool handlers: [handlers/lspHandlers.mjs] *)

Module Handlers.
Import Lsp Service.

(** A number in a template literal. *)
Definition show (n : N) : string :=
  string_of_list_ascii (map ascii_of_N (Framer.decimal n)).

Definition showZ (z : Z) : string :=
  if (z <? 0)%Z then "-" +:+ show (Z.abs_N z) else show (Z.to_N z).

(** [{ type: "text", text }] *)
Inductive Content : Type := Text (text : string).

(** What a handler returns; [isError] is absent from a result that is not
    an error. *)
Record ToolResult := {
  content : list Content;
  isError : bool;
}.

Section WithHost.
Context (host : Host).
(** [error.message] for the errors that the host throws, and
    [JSON.stringify(value, null, 2)]. *)
Context (hostMessage : Error -> string).
Context (stringifyDiagnostics : list string -> string).
Context (stringify : Value -> string).

(** [error.message] *)
Definition message (error : Error) : string :=
  match error with
  | NotReady command method =>
    "LSP " +:+ command +:+ " not ready or process not running for method "
    +:+ method +:+ "."
  | TimedOut command method id timeoutMs =>
    "LSP " +:+ command +:+ " Request " +:+ method +:+ " (id: " +:+ show id
    +:+ ") timed out after " +:+ show timeoutMs +:+ "ms"
  | LspError text code =>
    "LSP Error: " +:+ text +:+ " (Code: " +:+ showZ code +:+ ")"
  | ProcessNotRunning => "LSP process not running."
  | CouldNotBeInitialized command =>
    "LSP " +:+ command +:+ " could not be initialized."
  | NoLspConfigured relativeFilePath =>
    "No LSP configured for file type of " +:+ relativeFilePath
  | PathError _ | TypeError _ | IoError _ => hostMessage error
  end.

Definition failure (what : string) (error : Error) : ToolResult :=
  {| content := [Text (what +:+ message error)]; isError := true |}.

Definition getDiagnosticsHandler (filePath : string) : Task ToolResult :=
  try_catch
    (diagnostics ← getDiagnostics host filePath;
     mret {| content := [ Text ("Diagnostics for " +:+ filePath +:+ ":");
                          Text (stringifyDiagnostics diagnostics) ];
             isError := false |})
    (fun error => mret (failure "Error getting diagnostics: " error)).

Definition getCompletionsHandler (filePath : string) (line character : nat)
  : Task ToolResult :=
  try_catch
    (completions ← getCompletions host filePath line character;
     mret {| content :=
               [ Text ("Completions for " +:+ filePath +:+ " at line "
                       +:+ show (N.of_nat (line + 1)) +:+ ", char "
                       +:+ show (N.of_nat (character + 1)) +:+ ":");
                 Text (stringify completions) ];
             isError := false |})
    (fun error => mret (failure "Error getting completions: " error)).

Definition findDefinitionHandler (filePath : string) (line character : nat)
  : Task ToolResult :=
  try_catch
    (definition ← findDefinition host filePath line character;
     mret {| content :=
               [ Text ("Definition(s) for " +:+ filePath +:+ " at line "
                       +:+ show (N.of_nat (line + 1)) +:+ ", char "
                       +:+ show (N.of_nat (character + 1)) +:+ ":");
                 Text (stringify definition) ];
             isError := false |})
    (fun error => mret (failure "Error finding definition: " error)).

Definition formatDocumentHandler (filePath : string) : Task ToolResult :=
  try_catch
    (result ← formatDocument host filePath;
     match result with
     | Applied _ =>
       mret {| content := [ Text ("Document " +:+ filePath
                                  +:+ " formatted successfully.") ];
               isError := false |}
     | NotApplied =>
       mret {| content :=
                 [ Text "No formatting changes needed or returned by LSP." ];
               isError := false |}
     end)
    (fun error => mret (failure "Error formatting document: " error)).

(** How a handler ends, given how the operation it wraps ends: the
    result [ok] makes of a value, the error result with the title [what],
    or no end. *)
Definition wraps {A} (operation : Task A) (handler : Task ToolResult)
    (what : string) (ok : A -> ToolResult) : Prop :=
  forall w,
    handler w
    = match operation w with
      | (Returned a, w') => (Returned (ok a), w')
      | (Thrown error, w') => (Returned (failure what error), w')
      | (Suspended, w') => (Suspended, w')
      end.

End WithHost.
End Handlers.

(** ** The paths of a POSIX system, for the examples *)

Module Posix.

(** The pieces of a path between its slashes. *)
Fixpoint segments (path : string) : list string :=
  match path with
  | EmptyString => [EmptyString]
  | String c rest =>
    if Ascii.eqb c Path.slash then EmptyString :: segments rest
    else match segments rest with
         | segment :: more => String c segment :: more
         | [] => [String c EmptyString]
         end
  end.

(** [normalizeString] of Node's [path] module, segment by segment: empty
    segments and [.] are dropped, [..] takes the segment before it away,
    or stays if there is none and the path is relative.  [done] holds the
    segments kept so far, the last one first. *)
Fixpoint normalizeSegments (allowAboveRoot : bool) (done todo : list string)
  : list string :=
  match todo with
  | [] => rev done
  | segment :: todo' =>
    if String.eqb segment "" || String.eqb segment "."
    then normalizeSegments allowAboveRoot done todo'
    else if String.eqb segment ".." then
      match done with
      | last :: done' =>
        if String.eqb last ".."
        then normalizeSegments allowAboveRoot (".." :: done) todo'
        else normalizeSegments allowAboveRoot done' todo'
      | [] =>
        normalizeSegments allowAboveRoot
          (if allowAboveRoot then [".."] else []) todo'
      end
    else normalizeSegments allowAboveRoot (segment :: done) todo'
  end.

Definition normalizeString (path : string) (allowAboveRoot : bool) : string :=
  String.concat "/" (normalizeSegments allowAboveRoot [] (segments path)).

(** [path.posix.normalize] *)
Definition normalize (path : string) : string :=
  if String.eqb path "" then "."
  else
    let isAbsolute := Lsp.startsWith "/" path in
    let trailingSeparator := Lsp.endsWith "/" path in
    let path := normalizeString path (negb isAbsolute) in
    if String.eqb path "" then
      if isAbsolute then "/" else if trailingSeparator then "./" else "."
    else
      (if isAbsolute then "/" else "") +:+ path
      +:+ (if trailingSeparator then "/" else "").

(** [path.posix.resolve(base, path)] for an absolute [base]. *)
Definition resolve (base path : string) : string :=
  if Lsp.startsWith "/" path then "/" +:+ normalizeString path false
  else "/" +:+ normalizeString (base +:+ "/" +:+ path) false.

(** [path] and [config.mjs] on a POSIX system with the project in
    [/project]. *)
Definition env : FileUtils.Env :=
  {| FileUtils.normalize := normalize;
     FileUtils.resolve := resolve;
     FileUtils.sep := "/";
     FileUtils.BASE_DIR := "/project";
     FileUtils.READ_ONLY_MODE := false |}.

End Posix.

(** ** A host and a few messages for the examples *)

Module Demo.
Import EditApplier Lsp Service Trace.

Definition quoted (s : string) : list N := [34] ++ Js.codes s ++ [34].

(** The text of a response [{"id":n,"result":...}]. *)
Definition responseText (id : N) (result : list N) : list N :=
  Js.codes "{" ++ quoted "id" ++ Js.codes ":" ++ Framer.decimal id
  ++ Js.codes "," ++ quoted "result" ++ Js.codes ":" ++ result ++ Js.codes "}".

Definition capabilitiesText : list N :=
  Js.codes "{" ++ quoted "capabilities" ++ Js.codes ":{}}".

Definition response (id : N) (result : Value) : Message :=
  {| msg_id := Some (IdNum id); msg_method := None; msg_result := result;
     msg_error := None; msg_params := None |}.

(** One edit, replacing "let" at the start of the first line by "const",
    and the text of the array that holds it. *)
Definition constEdit : TextEdit :=
  {| range := {| start := {| line := 0; character := 0 |};
                 end_ := {| line := 0; character := 3 |} |};
     newText := Js.codes "const" |}.

Definition editsText : list N :=
  Js.codes "[{" ++ quoted "range" ++ Js.codes ":{"
  ++ quoted "start" ++ Js.codes ":{" ++ quoted "line" ++ Js.codes ":0,"
  ++ quoted "character" ++ Js.codes ":0},"
  ++ quoted "end" ++ Js.codes ":{" ++ quoted "line" ++ Js.codes ":0,"
  ++ quoted "character" ++ Js.codes ":3}},"
  ++ quoted "newText" ++ Js.codes ":" ++ quoted "const" ++ Js.codes "}]".

(** The texts this host knows how to parse: the responses to the first
    requests of a client, with a null result, with capabilities or with
    the edit above. *)
Definition knownMessages : list (list N * Message) :=
  flat_map (fun id =>
              [ (responseText id (Js.codes "null"), response id VNull);
                (responseText id capabilitiesText,
                 response id (VObject (Some [])));
                (responseText id editsText, response id (VEdits [constEdit])) ])
           [1; 2; 3; 4].

Definition demoHost : Host :=
  {| JSON_parse := fun payload =>
       snd <$> List.find (fun '(text, _) => bool_decide (text = payload))
                         knownMessages;
     getAbsolutePath := fun relativePath =>
       match FileUtils.getAbsolutePath Posix.env relativePath with
       | inl _ => inl (PathError relativePath)
       | inr absolutePath => inr absolutePath
       end;
     isAbsolute := startsWith "/";
     fileAt := fun path => path;   (* no links *)
     decodeURIComponent := Some;
     win32 := false;
     BASE_DIR := "/project" |}.

(** The bytes of a framed response, as a server writes them. *)
Definition responseData (id : N) (result : list N) : list Byte.byte :=
  Js.to_bytes (Framer.frame_bytes (responseText id result)).

Definition typescript : LspConfig :=
  {| command := "typescript-language-server"; args := ["--stdio"];
     supportedLanguageIds :=
       ["javascript"; "typescript"; "javascriptreact"; "typescriptreact"] |}.

(** A client whose handshake has been answered. *)
Abbreviation readyClient :=
  (run demoHost [AEvent (StdoutData (responseData 1 capabilitiesText))]
       (new_LspProcess demoHost typescript)).

(** The service, once the handshake of its client has been answered. *)
Definition readyWorld (fs : gmap string (list Byte.byte)) (events : list Event)
  : World :=
  {| lspInstances := [("typescript", readyClient)];
     files := fs; future := events |}.

(** A file is opened and formatted once. *)
Abbreviation formatOnceCalls := [Versions.FormatDocument "src/a.ts"].
Abbreviation formatOnceFiles :=
  ({[ "/project/src/a.ts" := list_byte_of_string "let x = 1" ]}
   : gmap string (list Byte.byte)).
Abbreviation formatOnceEvents :=
  [ ClientEvent "typescript" (StdoutData (responseData 1 capabilitiesText));
    Completion false;
    ClientEvent "typescript" (StdoutData (responseData 2 editsText));
    Completion false;
    Completion false ].
Abbreviation formatOnce :=
  (Versions.oneAfterAnother demoHost formatOnceCalls
     (new_LspService demoHost formatOnceFiles formatOnceEvents)).

(** A file is opened and formatted, then another one is opened. *)
Abbreviation twoFilesCalls :=
  [Versions.FormatDocument "src/a.ts"; Versions.GetDiagnostics "src/b.ts"].
Abbreviation twoFiles :=
  ({[ "/project/src/a.ts" := list_byte_of_string "let x = 1";
      "/project/src/b.ts" := list_byte_of_string "f(x)" ]}
   : gmap string (list Byte.byte)).
Abbreviation twoFilesEvents :=
  [ ClientEvent "typescript" (StdoutData (responseData 1 capabilitiesText));
    Completion false;
    ClientEvent "typescript" (StdoutData (responseData 2 editsText));
    Completion false;
    Completion false;
    Completion false;
    Completion false ].
Abbreviation twoFilesRun :=
  (Versions.oneAfterAnother demoHost twoFilesCalls
     (new_LspService demoHost twoFiles twoFilesEvents)).

(** The server exits while the file of the first call is read. *)
Abbreviation exitWhileReading :=
  (readyWorld formatOnceFiles
     [ClientEvent "typescript" ExitEvent; Completion false]).

(** Two calls for the same file: the second one starts while the first
    one waits for the file to be read. *)
Abbreviation twoCallsOverlap :=
  (Overlap.play demoHost
     [Overlap.Call "src/a.ts"; Overlap.Call "src/a.ts";
      Overlap.Read 0 false; Overlap.Read 1 false]
     {| Overlap.client := readyClient; Overlap.disk := formatOnceFiles;
        Overlap.calls := [] |}).

(** Two files of a POSIX system whose names differ in a backslash and a
    slash, opened one after the other. *)
Abbreviation backslashFiles :=
  ({[ "/project/a\b.ts" := list_byte_of_string "let x = 1";
      "/project/a/b.ts" := list_byte_of_string "let y = 2" ]}
   : gmap string (list Byte.byte)).
Abbreviation backslashCalls :=
  [Versions.GetDiagnostics "a\b.ts"; Versions.GetDiagnostics "a/b.ts"].
Abbreviation backslashEvents :=
  [ ClientEvent "typescript" (StdoutData (responseData 1 capabilitiesText));
    Completion false; Completion false; Completion false; Completion false ].
Abbreviation backslash :=
  (Versions.oneAfterAnother demoHost backslashCalls
     (new_LspService demoHost backslashFiles backslashEvents)).

(** The same host, where [src/a.ts] in the project is a link to a file
    outside of it. *)
Definition linkedHost : Host :=
  {| JSON_parse := JSON_parse demoHost;
     getAbsolutePath := getAbsolutePath demoHost;
     isAbsolute := isAbsolute demoHost;
     fileAt := fun path =>
       if String.eqb path "/project/src/a.ts" then "/home/user/notes.ts"
       else path;
     decodeURIComponent := decodeURIComponent demoHost;
     win32 := false;
     BASE_DIR := "/project" |}.
Abbreviation linkedFiles :=
  ({[ "/home/user/notes.ts" := list_byte_of_string "let x = 1" ]}
   : gmap string (list Byte.byte)).
Abbreviation linkedFormat :=
  (formatDocument linkedHost "src/a.ts"
     (new_LspService linkedHost linkedFiles formatOnceEvents)).

(** Two requests in flight when the server exits. *)
Definition twoRequestsThenExit : LspProcess * nat * nat :=
  let s := readyClient in
  let '(p1, s) := sendRequest "textDocument/completion"
                    (PPosition "file:///project/a.ts" 0 0) 5000 s in
  let '(p2, s) := sendRequest "textDocument/definition"
                    (PPosition "file:///project/a.ts" 0 0) 5000 s in
  (dispatch demoHost ExitEvent s, p1, p2).

End Demo.

(** * Properties *)

Example test_frame :
  Framer.handleData [] (Js.to_bytes (Framer.frame_bytes (Js.codes "{}")))
  = ([Js.codes "{}"], []).
Proof. vm_compute. reflexivity. Qed.

Example test_extname :
  map Path.extname
      ["a.vue"; "src/b.test.ts"; ".bashrc"; "dir.d/x"; "x."; "a/b.js/"; ".."; "a..b"]
  = [".vue"; ".ts"; ""; ""; "."; ".js"; ""; ".b"].
Proof. vm_compute. reflexivity. Qed.

(** ** Framing of the incoming stream *)

Section Framing.
Import Framer Wire.

Example test_accented :
  Js.utf8_decode (utf8 accented) = accented
  /\ length accented = 21%nat /\ length (utf8 accented) = 22%nat
  /\ frame_bytes (utf8 accented)
     = header_name ++ Js.codes "22" ++ header_end ++ utf8 accented.
Proof. vm_compute. repeat split. Qed.

(** C2 fails on the code.  A well-formed message whose payload holds one
    character outside ASCII is never emitted: the header counts 22 bytes,
    the loop compares that with the 21 code units of the decoded text and
    waits for more.  When a second message follows, the first payload is
    emitted with the first character of the next header attached to it, and
    the second message is lost. *)
Theorem framer_loses_non_ascii_message :
  feed [] [Js.to_bytes (frame_bytes (utf8 accented))]
  = ([], header_name ++ Js.codes "22" ++ header_end ++ accented)
  /\ feed [] [Js.to_bytes (frame_bytes (utf8 accented)
                           ++ frame_bytes (utf8 plainMessage))]
     = ([accented ++ Js.codes "C"],
        Js.codes "ontent-Length: " ++ decimal (N.of_nat (length plainMessage))
        ++ header_end ++ plainMessage)
  /\ feed [] (map (fun b => [b])
                  (Js.to_bytes (frame_bytes (utf8 plainMessage))))
     = ([plainMessage], []).
Proof. vm_compute. repeat split. Qed.


(** *** The framer on ASCII messages *)

Lemma utf8_decode_ascii (bs : list N) :
  asciiText bs -> Js.utf8_decode bs = bs.
Proof.
  induction 1 as [|b bs Hb _ IH]; simpl; [reflexivity|].
  apply N.ltb_lt in Hb. rewrite Hb, IH. reflexivity.
Qed.

Lemma strip_prefix_app (p s : list N) : strip_prefix p (p ++ s) = Some s.
Proof.
  induction p as [|a p IH]; simpl; [destruct s; reflexivity|].
  rewrite N.eqb_refl. exact IH.
Qed.

(** A text that stops inside [p] does not start with [p]. *)
Lemma strip_prefix_short (x l : list N) :
  l <> [] -> strip_prefix (x ++ l) x = None.
Proof.
  intros Hl. induction x as [|a x IH]; simpl.
  - destruct l; [congruence|reflexivity].
  - rewrite N.eqb_refl. exact IH.
Qed.

Lemma span_digits_app (ds r : list N) :
  Forall (fun c => is_digit c = true) ds ->
  match r with [] => True | c :: _ => is_digit c = false end ->
  span_digits (ds ++ r) = (ds, r).
Proof.
  intros Hds Hr. induction Hds as [|d ds Hd _ IH]; cbn [span_digits app].
  - destruct r as [|c r]; [reflexivity|]. cbn [span_digits].
    rewrite Hr. reflexivity.
  - rewrite Hd, IH. reflexivity.
Qed.


Lemma match_here_header (ds rest : list N) :
  Forall (fun c => is_digit c = true) ds -> ds <> [] ->
  match_here (header ds ++ rest) = Some (header ds, ds).
Proof.
  intros Hds Hne. unfold match_here, header.
  rewrite <- !app_assoc, strip_prefix_app.
  rewrite (span_digits_app ds (header_end ++ rest) Hds) by reflexivity.
  destruct ds as [|d ds]; [congruence|].
  rewrite strip_prefix_app. reflexivity.
Qed.

Lemma regex_match_header (ds rest : list N) :
  Forall (fun c => is_digit c = true) ds -> ds <> [] ->
  regex_match (header ds ++ rest) = Some (header ds, ds).
Proof.
  intros Hds Hne.
  pose proof (match_here_header ds rest Hds Hne) as Hm.
  destruct (header ds ++ rest); cbn [regex_match]; rewrite Hm; reflexivity.
Qed.

Lemma header_name_C : header_name = 67 :: Js.codes "ontent-Length: ".
Proof. vm_compute. reflexivity. Qed.

(** No match starts at a character other than "C". *)
Lemma regex_match_no_C (s : list N) :
  Forall (fun c => c <> 67) s -> regex_match s = None.
Proof.
  induction 1 as [|c s Hc _ IH]; [reflexivity|].
  cbn [regex_match]. unfold match_here at 1.
  replace (strip_prefix header_name (c :: s)) with (@None (list N)); [exact IH|].
  rewrite header_name_C. cbn [strip_prefix].
  destruct (N.eqb_spec 67 c); [congruence|reflexivity].
Qed.

Lemma digit_not_C (ds : list N) :
  Forall (fun c => is_digit c = true) ds -> Forall (fun c => c <> 67) ds.
Proof.
  intros H. eapply Forall_impl; [exact H|]. intros c Hc ->. discriminate.
Qed.

(** A buffer that stops inside the header has no match. *)
Lemma regex_match_short_header (x l ds : list N) :
  Forall (fun c => is_digit c = true) ds -> ds <> [] ->
  x ++ l = header ds -> l <> [] ->
  regex_match x = None.
Proof.
  intros Hds Hne Hx Hl.
  assert (Hhere : match_here x = None).
  { unfold header in Hx. apply app_eq_app in Hx.
    destruct Hx as [l1 [[Hx1 Hrest] | [Hn Hl1]]].
    - subst x. unfold match_here. rewrite strip_prefix_app.
      apply app_eq_app in Hrest.
      destruct Hrest as [l2 [[Hd Hl2] | [Hl1 He]]].
      + (* the buffer stops inside the digits *)
        assert (Hd1 : Forall (fun c => is_digit c = true) l1).
        { rewrite Hd in Hds. apply Forall_app in Hds. tauto. }
        pose proof (span_digits_app l1 [] Hd1 I) as Hspan.
        rewrite app_nil_r in Hspan. rewrite Hspan.
        destruct l1; reflexivity.
      + (* the buffer stops inside the line ends *)
        subst l1.
        assert (Hl2 : match l2 with [] => True | c :: _ => is_digit c = false end).
        { destruct l2 as [|c l2]; [exact I|].
          unfold header_end in He. cbn [app] in He.
          injection He as <- _. reflexivity. }
        rewrite (span_digits_app ds l2 Hds Hl2).
        destruct ds as [|d ds]; [congruence|].
        rewrite He. rewrite strip_prefix_short by exact Hl. reflexivity.
    - (* the buffer stops inside the name of the header *)
      unfold match_here. destruct l1 as [|c1 l1].
      + rewrite app_nil_r in Hn. subst x.
        pose proof (strip_prefix_app header_name []) as Hs.
        rewrite app_nil_r in Hs. rewrite Hs. reflexivity.
      + rewrite Hn. rewrite strip_prefix_short by discriminate. reflexivity. }
  destruct x as [|c x]; [reflexivity|].
  cbn [regex_match]. rewrite Hhere.
  apply regex_match_no_C.
  assert (HnoC : Forall (fun c => c <> 67) (tl (header ds))).
  { unfold header. rewrite header_name_C. cbn [tl app].
    apply Forall_app. split.
    - apply (bool_decide_unpack _). vm_compute. exact I.
    - apply Forall_app. split; [apply digit_not_C; exact Hds|].
      repeat (constructor; [discriminate|]). constructor. }
  rewrite <- Hx in HnoC. cbn [tl app] in HnoC.
  apply Forall_app in HnoC. tauto.
Qed.


Lemma frameText_header (m : list N * list N) :
  frameText m = header (fst m) ++ snd m.
Proof. unfold frameText, header. rewrite <- !app_assoc. reflexivity. Qed.

(** One turn of the loop on a buffer that starts with a whole message. *)
Lemma frame_loop_message (k : nat) (m : list N * list N) (rest : list N) :
  asciiFramed m ->
  frame_loop (S k) (frameText m ++ rest)
  = (snd m :: fst (frame_loop k rest), snd (frame_loop k rest)).
Proof.
  intros (Hds & Hne & Hlen & _). rewrite frameText_header, <- app_assoc.
  cbn [frame_loop]. rewrite (regex_match_header _ _ Hds Hne).
  rewrite Hlen, Nat2N.id.
  assert (Hlt : (length (header (fst m) ++ snd m ++ rest)
                 <? length (header (fst m)) + length (snd m))%nat = false).
  { apply Nat.ltb_ge. rewrite !length_app. lia. }
  rewrite Hlt. unfold Js.substring, Js.substring_from.
  replace (length (header (fst m)) + length (snd m) - length (header (fst m)))%nat
    with (length (snd m)) by lia.
  rewrite drop_app_length, take_app_length.
  rewrite app_assoc, <- length_app, drop_app_length.
  destruct (frame_loop k rest). reflexivity.
Qed.

(** The loop on a buffer that stops inside a message. *)
Lemma frame_loop_incomplete (k : nat) (m : list N * list N) (x l : list N) :
  asciiFramed m -> x ++ l = frameText m -> l <> [] ->
  frame_loop k x = ([], x).
Proof.
  intros (Hds & Hne & Hlen & _) Hx Hl. destruct k as [|k]; [reflexivity|].
  rewrite frameText_header in Hx. apply app_eq_app in Hx.
  assert (Hbody : forall l1, x = header (fst m) ++ l1 -> snd m = l1 ++ l ->
                             frame_loop (S k) x = ([], x)).
  { intros l1 -> Hp. cbn [frame_loop].
    rewrite (regex_match_header _ _ Hds Hne), Hlen, Nat2N.id.
    assert (Hlt : (length (header (fst m) ++ l1)
                   <? length (header (fst m)) + length (snd m))%nat = true).
    { apply Nat.ltb_lt. rewrite Hp, !length_app.
      destruct l; [congruence|]. simpl. lia. }
    rewrite Hlt. reflexivity. }
  destruct Hx as [l1 [[Hx1 Hp] | [Hh Hl1]]].
  - apply (Hbody l1); assumption.
  - destruct l1 as [|c l1].
    + apply (Hbody []); [rewrite !app_nil_r in *; auto|].
      simpl in *. congruence.
    + cbn [frame_loop].
      rewrite (regex_match_short_header x (c :: l1) (fst m) Hds Hne);
        [reflexivity|symmetry; exact Hh|discriminate].
Qed.

(** The loop on whole messages followed by something else. *)
Lemma frame_loop_stream (msgs : list (list N * list N)) (rest : list N) (k : nat) :
  Forall asciiFramed msgs ->
  frame_loop (length msgs + k) (stream msgs ++ rest)
  = (map snd msgs ++ fst (frame_loop k rest), snd (frame_loop k rest)).
Proof.
  induction 1 as [|m msgs Hm _ IH].
  - simpl. destruct (frame_loop k rest). reflexivity.
  - cbn [length Nat.add map app]. unfold stream in *. cbn [map concat].
    rewrite <- app_assoc.
    rewrite (frame_loop_message _ m _ Hm), IH. reflexivity.
Qed.

Lemma frame_nonempty (m : list N * list N) : (0 < length (frameText m))%nat.
Proof. unfold frameText. rewrite header_name_C. simpl. lia. Qed.

Lemma stream_length (msgs : list (list N * list N)) :
  (length msgs <= length (stream msgs))%nat.
Proof.
  induction msgs as [|m msgs IH]; simpl; [lia|].
  unfold stream in *. cbn [map concat]. rewrite length_app.
  pose proof (frame_nonempty m). lia.
Qed.

(** A text that stops somewhere in a stream: whole messages, then the
    beginning of the next one. *)
Lemma stream_prefix (msgs : list (list N * list N)) (y z : list N) :
  y ++ z = stream msgs ->
  exists done rest x,
    msgs = done ++ rest /\ y = stream done ++ x /\ x ++ z = stream rest
    /\ (x = [] \/ exists m rest' l, rest = m :: rest' /\ x ++ l = frameText m
                                    /\ l <> []).
Proof.
  revert y. induction msgs as [|m msgs IH]; intros y Hy.
  - apply app_eq_nil in Hy as [-> ->]. exists [], [], []. auto.
  - unfold stream in Hy. cbn [map concat] in Hy. fold (stream msgs) in Hy.
    apply app_eq_app in Hy. destruct Hy as [l [[Hy Hz] | [Hf Hz]]].
    + (* the first message is entirely there *)
      symmetry in Hz. destruct (IH l Hz) as (done & rest & x & -> & -> & Hx & Hcase).
      exists (m :: done), rest, x. split; [reflexivity|]. split.
      * rewrite Hy. unfold stream. cbn [map concat]. rewrite app_assoc. reflexivity.
      * split; assumption.
    + destruct l as [|c l].
      * (* exactly the first message *)
        rewrite app_nil_r in Hf. simpl in Hz. subst z.
        exists [m], msgs, []. split; [reflexivity|]. split.
        -- unfold stream. simpl. rewrite !app_nil_r. symmetry. exact Hf.
        -- split; [reflexivity|left; reflexivity].
      * exists [], (m :: msgs), y. split; [reflexivity|]. split; [reflexivity|].
        split.
        -- unfold stream. cbn [map concat]. rewrite Hf, Hz, <- app_assoc. reflexivity.
        -- right. exists m, msgs, (c :: l). split; [reflexivity|].
           split; [symmetry; exact Hf|discriminate].
Qed.


Lemma frame_loop_nil (k : nat) : frame_loop k [] = ([], []).
Proof. destruct k; reflexivity. Qed.

Lemma frameText_ascii (m : list N * list N) : asciiFramed m -> asciiText (frameText m).
Proof.
  intros (Hds & _ & _ & Hascii). unfold frameText, asciiText.
  repeat (apply Forall_app; split); try assumption.
  - apply (bool_decide_unpack _). vm_compute. exact I.
  - eapply Forall_impl; [exact Hds|]. intros c Hc.
    unfold is_digit, Js.in_range in Hc. apply andb_true_iff in Hc as [_ Hc].
    apply N.leb_le in Hc. lia.
  - apply (bool_decide_unpack _). vm_compute. exact I.
Qed.

Lemma stream_ascii (msgs : list (list N * list N)) :
  Forall asciiFramed msgs -> asciiText (stream msgs).
Proof.
  induction 1 as [|m msgs Hm _ IH]; [constructor|].
  unfold stream. cbn [map concat]. apply Forall_app. split; [|exact IH].
  apply frameText_ascii. exact Hm.
Qed.

(** The framer, started on the beginning [x] of a message, fed with the
    rest of the stream in chunks. *)
Lemma feed_stream (chunks : list (list Byte.byte)) :
  forall (msgs : list (list N * list N)) (x : list N),
    Forall asciiFramed msgs ->
    x ++ bytesOf chunks = stream msgs ->
    (x = [] \/ exists m rest l, msgs = m :: rest /\ x ++ l = frameText m /\ l <> []) ->
    feed x chunks = (map snd msgs, []).
Proof.
  induction chunks as [|data chunks IH]; intros msgs x Hwf Hx Hinv.
  - unfold bytesOf in Hx. simpl in Hx. rewrite app_nil_r in Hx. simpl.
    destruct Hinv as [-> | (m & rest & l & -> & Hl & Hne)].
    + pose proof (stream_length msgs) as Hlen. rewrite <- Hx in Hlen.
      destruct msgs; [reflexivity|simpl in Hlen; lia].
    + exfalso. unfold stream in Hx. cbn [map concat] in Hx.
      apply (f_equal (@length N)) in Hx, Hl. rewrite length_app in Hx, Hl.
      destruct l; [congruence|]. cbn [length] in Hl. lia.
  - unfold bytesOf in Hx. cbn [map concat] in Hx. fold (bytesOf chunks) in Hx.
    assert (Hascii : asciiText (map Byte.to_N data)).
    { pose proof (stream_ascii msgs Hwf) as Ha. rewrite <- Hx in Ha.
      unfold asciiText in Ha. apply Forall_app in Ha as [_ Ha].
      apply Forall_app in Ha as [Ha _]. exact Ha. }
    rewrite app_assoc in Hx.
    destruct (stream_prefix msgs _ _ Hx)
      as (done & rest & x' & -> & Hy & Hrest & Hinv').
    apply Forall_app in Hwf as [Hdone Hwrest].
    cbn [feed]. unfold handleData, Js.toString.
    rewrite (utf8_decode_ascii _ Hascii), Hy.
    pose proof (stream_length done) as Hlen.
    replace (length (stream done ++ x'))
      with (length done + (length (stream done ++ x') - length done))%nat
      by (rewrite length_app; lia).
    rewrite (frame_loop_stream done x' _ Hdone).
    assert (Hloop : forall k, frame_loop k x' = ([], x')).
    { intros k. destruct Hinv' as [-> | (m & rest' & l & -> & Hl & Hne)].
      - apply frame_loop_nil.
      - apply (frame_loop_incomplete k m x' l); try assumption.
        apply Forall_cons in Hwrest. tauto. }
    rewrite Hloop. cbn [fst snd].
    rewrite (IH rest x' Hwrest Hrest Hinv').
    rewrite app_nil_r, map_app. reflexivity.
Qed.

(** X1.  For messages in ASCII the framer is right, however the bytes are cut
    into chunks: it emits the payloads of the messages, all of them, once
    each and in order, and ends with an empty buffer. *)
Theorem framer_ascii_any_split
    (msgs : list (list N * list N)) (chunks : list (list Byte.byte)) :
  Forall asciiFramed msgs ->
  bytesOf chunks = stream msgs ->
  feed [] chunks = (map snd msgs, []).
Proof.
  intros Hwf Hx. apply feed_stream; [exact Hwf|exact Hx|left; reflexivity].
Qed.

End Framing.

(** ** Requests and notifications while the client is not ready *)

Section NotReady.
Import Lsp Trace.

Lemma guard_not_ready (s : LspProcess) (method exempt : string) :
  notReady s -> method <> exempt ->
  negb (bool_decide (is_Some (process s)))
  || (negb (isInitialized s) && negb (String.eqb method exempt)) = true.
Proof.
  intros [Hp | Hi] Hm.
  - rewrite Hp. reflexivity.
  - rewrite Hi. apply String.eqb_neq in Hm. rewrite Hm.
    apply orb_true_r.
Qed.

(** C6.  A request other than the handshake, issued while the process
    handle is absent or the client is not initialized, is answered with a
    promise that is already rejected with the "not ready" error; nothing is
    written to the server, no identifier is consumed, no timer is started
    and no entry is added to the pending requests, so nothing is kept for a
    later delivery. *)
Theorem sendRequest_not_ready_rejects
    (s : LspProcess) (method : string) (params : Params) (timeoutMs : N) :
  notReady s -> method <> "initialize" ->
  let '(p, s') := sendRequest method params timeoutMs s in
  promises s' !! p = Some (Rejected (NotReady (command (config s)) method))
  /\ s' = set_promises (promises s
                        ++ [Rejected (NotReady (command (config s)) method)]) s
  /\ stdin s' = stdin s
  /\ pendingRequests s' = pendingRequests s
  /\ timers s' = timers s
  /\ requestIdCounter s' = requestIdCounter s.
Proof.
  intros Hs Hm. unfold sendRequest.
  rewrite (guard_not_ready s method "initialize" Hs Hm).
  cbn [promises set_promises]. split; [|repeat split].
  rewrite lookup_app_r by lia. rewrite Nat.sub_diag. reflexivity.
Qed.

(** C10.  A notification other than "initialized", sent while the process
    handle is absent or the client is not initialized, leaves the whole
    client as it was: nothing is written, nothing is kept for later, and
    the call returns normally. *)
Theorem sendNotification_not_ready_dropped
    (s : LspProcess) (method : string) (params : Params) :
  notReady s -> method <> "initialized" ->
  sendNotification method params s = s.
Proof.
  intros Hs Hm. unfold sendNotification.
  rewrite (guard_not_ready s method "initialized" Hs Hm). reflexivity.
Qed.

End NotReady.

Example test_readyClient :
  let s := Demo.readyClient in
  Lsp.isInitialized s = true
  /\ Lsp.process s = Some tt
  /\ Lsp.initializationPromise s = Some Lsp.InitFulfilled
  /\ map Lsp.frame_method (Lsp.stdin s) = ["initialize"; "initialized"]
  /\ Lsp.pendingRequests s = ∅
  /\ Lsp.requestIdCounter s = 2.
Proof. vm_compute. repeat split. Qed.

(** A request issued before the handshake is answered. *)
Lemma sendRequest_not_ready_rejects_witness :
  let s := Lsp.new_LspProcess Demo.demoHost Demo.typescript in
  let '(p, s') := Lsp.sendRequest "textDocument/completion"
                    (Lsp.PPosition "file:///project/a.ts" 0 0) 5000 s in
  Lsp.promises s' !! p
    = Some (Lsp.Rejected (NotReady "typescript-language-server"
                                   "textDocument/completion"))
  /\ Lsp.stdin s' = Lsp.stdin s.
Proof.
  pose proof (sendRequest_not_ready_rejects
                (Lsp.new_LspProcess Demo.demoHost Demo.typescript)
                "textDocument/completion"
                (Lsp.PPosition "file:///project/a.ts" 0 0) 5000) as H.
  cbv zeta. destruct (Lsp.sendRequest _ _ _ _) as [p s'].
  destruct H as (H1 & _ & H2 & _).
  - right. reflexivity.
  - discriminate.
  - split; [exact H1 | exact H2].
Defined.

(** A document notification issued after the server has exited. *)
Lemma sendNotification_not_ready_dropped_witness :
  let s := Lsp.onExit Demo.readyClient in
  Lsp.sendNotification "textDocument/didChange"
     (Lsp.PDidChange "file:///project/a.ts" 2 (Js.codes "x")) s = s.
Proof.
  apply sendNotification_not_ready_dropped.
  - left. reflexivity.
  - discriminate.
Defined.

(** ** Selecting the client for a file *)

Section Selection.
Import Lsp Service.
Context (host : Host).

Lemma select_by_extension (filePath : string) (w : World) :
  _getLspInstanceForFile filePath w
  = if String.eqb (Path.extname filePath) ".vue"
    then match map_get "vue" (lspInstances w) with
         | Some _ => Some "vue" | None => None end
    else match map_get "typescript" (lspInstances w) with
         | Some _ => Some "typescript" | None => None end.
Proof.
  unfold _getLspInstanceForFile.
  destruct (String.eqb _ ".vue"); [reflexivity|].
  destruct (bool_decide _); reflexivity.
Qed.


End Selection.


(** ** The order of the edits *)

Section EditOrder.
Import EditApplier.

Lemma compareEdits_before (e1 e2 : TextEdit) :
  startsBefore e1 e2 ->
  (0 < compareEdits e1 e2)%Z /\ (compareEdits e2 e1 < 0)%Z.
Proof.
  unfold startsBefore, compareEdits. intros [Hl | [Hl Hc]].
  - destruct (Z.eqb_spec (Z.of_nat (line (start (range e2)))
                          - Z.of_nat (line (start (range e1)))) 0);
    destruct (Z.eqb_spec (Z.of_nat (line (start (range e1)))
                          - Z.of_nat (line (start (range e2)))) 0); lia.
  - rewrite Hl, Z.sub_diag. cbn. lia.
Qed.

Lemma sort_pair_descending (e1 e2 : TextEdit) :
  startsBefore e1 e2 ->
  sort compareEdits [e1; e2] = [e2; e1]
  /\ sort compareEdits [e2; e1] = [e2; e1].
Proof.
  intros H. destruct (compareEdits_before e1 e2 H) as [H12 H21].
  cbn. destruct (Z.leb_spec (compareEdits e1 e2) 0);
    destruct (Z.leb_spec (compareEdits e2 e1) 0); try lia. split; reflexivity.
Qed.

(** C7.  For two edits of which [e1] starts before [e2] (so in particular
    for two edits that do not overlap), the edit applier gives the same
    result, or throws the same error, for the input orders [e1, e2] and
    [e2, e1], and that result is the one of applying [e2] and then [e1],
    the descending order of their positions. *)
Theorem applyEdits_order_independent
    (content : list N) (e1 e2 : TextEdit) :
  startsBefore e1 e2 ->
  applyEdits content [e1; e2] = applyEdits content [e2; e1]
  /\ applyEdits content [e1; e2] = applyUnsorted content [e2; e1].
Proof.
  intros H. destruct (sort_pair_descending e1 e2 H) as [H12 H21].
  unfold applyEdits, applyUnsorted. rewrite H12, H21. split; reflexivity.
Qed.

End EditOrder.

Lemma applyEdits_order_independent_witness :
  let e1 := {| EditApplier.range :=
                 {| EditApplier.start := {| EditApplier.line := 0; EditApplier.character := 0 |};
                    EditApplier.end_ := {| EditApplier.line := 0; EditApplier.character := 3 |} |};
               EditApplier.newText := Js.codes "const" |} in
  let e2 := {| EditApplier.range :=
                 {| EditApplier.start := {| EditApplier.line := 0; EditApplier.character := 9 |};
                    EditApplier.end_ := {| EditApplier.line := 1; EditApplier.character := 0 |} |};
               EditApplier.newText := Js.codes ";" ++ [EditApplier.newline] |} in
  let content := Js.codes "let x = 1" ++ [EditApplier.newline] ++ Js.codes "f(x)" in
  EditApplier.applyEdits content [e1; e2]
  = inr (Js.codes "const x = 1;" ++ [EditApplier.newline] ++ Js.codes "f(x)")
  /\ EditApplier.applyEdits content [e1; e2] = EditApplier.applyEdits content [e2; e1]
  /\ EditApplier.applyEdits content [e1; e2] = EditApplier.applyUnsorted content [e2; e1].
Proof.
  cbv zeta. split; [vm_compute; reflexivity|].
  apply applyEdits_order_independent. right. vm_compute. split; [reflexivity | lia].
Defined.


(** ** The server exits while requests are pending *)

Section Exit.
Import Lsp Trace.
Context (host : Host).

Lemma _initialize_resume_requests (s : LspProcess) :
  pendingRequests (_initialize_resume s) = pendingRequests s
  /\ promises (_initialize_resume s) = promises s
  /\ timers (_initialize_resume s) = timers s
  /\ process (_initialize_resume s) = process s
  /\ config (_initialize_resume s) = config s.
Proof.
  unfold _initialize_resume.
  destruct (initializationPromise s) as [[p| |e]|]; [|repeat split..].
  destruct (promises s !! p) as [[|v|e]|]; [repeat split| |repeat split..].
  destruct (capabilityKeys v); [|repeat split].
  unfold sendNotification. destruct (_ || _); repeat split.
Qed.


End Exit.



(** ** Requests, their promises and their timers *)

Section Correlation.
Import Lsp Trace.
Context (host : Host).

Lemma settle_other (p : nat) (r : PromiseState) (s : LspProcess) :
  pendingRequests (settle p r s) = pendingRequests s
  /\ timers (settle p r s) = timers s
  /\ requestIdCounter (settle p r s) = requestIdCounter s
  /\ stdin (settle p r s) = stdin s
  /\ config (settle p r s) = config s.
Proof. unfold settle. destruct (promises s !! p) as [[]|]; repeat split. Qed.

Lemma settle_lookup_ne (p q : nat) (r : PromiseState) (s : LspProcess) :
  q <> p -> promises (settle p r s) !! q = promises s !! q.
Proof.
  intros Hne. unfold settle. destruct (promises s !! p) as [[]|]; simpl;
    try reflexivity.
  apply list_lookup_insert_ne. congruence.
Qed.

Lemma settle_lookup_pending (p : nat) (r : PromiseState) (s : LspProcess) :
  promises s !! p = Some Pending -> promises (settle p r s) !! p = Some r.
Proof.
  intros Hp. unfold settle. rewrite Hp. simpl.
  apply list_lookup_insert_eq. eapply lookup_lt_Some; eassumption.
Qed.

Lemma settle_settled (p : nat) (r : PromiseState) (s : LspProcess) :
  promises s !! p <> Some Pending -> settle p r s = s.
Proof.
  intros Hp. unfold settle. destruct (promises s !! p) as [[]|]; congruence.
Qed.

(** A promise that is settled stays as it is. *)
Lemma settle_keeps (p q : nat) (r x : PromiseState) (s : LspProcess) :
  promises s !! q = Some x -> x <> Pending ->
  promises (settle p r s) !! q = Some x.
Proof.
  intros Hq Hx. destruct (Nat.eq_dec q p) as [->|Hne].
  - rewrite settle_settled; [exact Hq|]. congruence.
  - rewrite settle_lookup_ne by exact Hne. exact Hq.
Qed.

Lemma clearTimeout_other (t : nat) (s : LspProcess) :
  pendingRequests (clearTimeout t s) = pendingRequests s
  /\ promises (clearTimeout t s) = promises s
  /\ requestIdCounter (clearTimeout t s) = requestIdCounter s
  /\ stdin (clearTimeout t s) = stdin s
  /\ config (clearTimeout t s) = config s.
Proof. unfold clearTimeout. destruct (timers s !! t) as [[]|]; repeat split. Qed.

Lemma clearTimeout_lookup_ne (t u : nat) (s : LspProcess) :
  u <> t -> timers (clearTimeout t s) !! u = timers s !! u.
Proof.
  intros Hne. unfold clearTimeout. destruct (timers s !! t) as [[]|]; simpl;
    try reflexivity.
  apply list_lookup_insert_ne. congruence.
Qed.

Lemma clearTimeout_not_armed (t : nat) (s : LspProcess) (task : TimeoutTask) :
  timers (clearTimeout t s) !! t <> Some (Armed task).
Proof.
  unfold clearTimeout. destruct (timers s !! t) as [[]|] eqn:Ht; simpl;
    try congruence.
  rewrite list_lookup_insert_eq by (eapply lookup_lt_Some; eassumption).
  congruence.
Qed.

Lemma settle_length (p : nat) (r : PromiseState) (s : LspProcess) :
  length (promises (settle p r s)) = length (promises s).
Proof.
  unfold settle. destruct (promises s !! p) as [[]|]; simpl;
    rewrite ?length_insert; reflexivity.
Qed.


(** *** The invariant is kept by every step *)

Lemma consistent_sendRequest method params timeoutMs (s : LspProcess) :
  consistent s -> consistent (snd (sendRequest method params timeoutMs s)).
Proof.
  intros (Hpend & Htim & Hinj). unfold sendRequest.
  destruct (_ || _); simpl.
  - (* rejected at once *)
    split; [|split]; simpl; [|exact Htim|exact Hinj].
    intros id entry Hid. destruct (Hpend id entry Hid) as (Hlt & Hp & Ht).
    split; [exact Hlt|]. split; [|exact Ht].
    rewrite lookup_app_l by (eapply lookup_lt_Some; eassumption). exact Hp.
  - split; [|split]; simpl.
    + intros id entry Hid.
      destruct (decide (requestIdCounter s = id)) as [<-|Hne].
      * rewrite lookup_insert_eq in Hid. injection Hid as <-. simpl.
        split; [lia|]. split.
        -- rewrite lookup_app_r by lia. rewrite Nat.sub_diag. reflexivity.
        -- eexists. split.
           ++ rewrite lookup_app_r by lia. rewrite Nat.sub_diag. reflexivity.
           ++ split; reflexivity.
      * rewrite lookup_insert_ne in Hid by exact Hne.
        destruct (Hpend id entry Hid) as (Hlt & Hp & task & Ht & Hti & Htp).
        split; [lia|]. split.
        -- rewrite lookup_app_l by (eapply lookup_lt_Some; eassumption).
           exact Hp.
        -- exists task. split; [|split; assumption].
           rewrite lookup_app_l by (eapply lookup_lt_Some; eassumption).
           exact Ht.
    + intros t task Ht.
      destruct (decide (t < length (timers s))%nat) as [Hlt|Hge].
      * rewrite lookup_app_l in Ht by exact Hlt.
        pose proof (Htim t task Ht) as He.
        destruct (Hpend _ _ He) as (Hid & _).
        rewrite lookup_insert_ne by lia. exact He.
      * rewrite lookup_app_r in Ht by lia.
        destruct (t - length (timers s))%nat as [|k] eqn:Hk; simpl in Ht;
          [|rewrite lookup_nil in Ht; discriminate].
        injection Ht as <-. simpl. rewrite lookup_insert_eq.
        f_equal. f_equal. lia.
    + intros id id' entry entry' Hid Hid' Heq.
      destruct (decide (requestIdCounter s = id)) as [<-|Hne];
        destruct (decide (requestIdCounter s = id')) as [<-|Hne'];
        [reflexivity| | |].
      * rewrite lookup_insert_eq in Hid. injection Hid as <-.
        rewrite lookup_insert_ne in Hid' by exact Hne'.
        destruct (Hpend _ _ Hid') as (_ & Hp & _).
        apply lookup_lt_Some in Hp. simpl in Heq. lia.
      * rewrite lookup_insert_eq in Hid'. injection Hid' as <-.
        rewrite lookup_insert_ne in Hid by exact Hne.
        destruct (Hpend _ _ Hid) as (_ & Hp & _).
        apply lookup_lt_Some in Hp. simpl in Heq. lia.
      * rewrite lookup_insert_ne in Hid by exact Hne.
        rewrite lookup_insert_ne in Hid' by exact Hne'.
        eapply Hinj; eassumption.
Qed.


Lemma consistent_same (s s' : LspProcess) :
  pendingRequests s' = pendingRequests s ->
  promises s' = promises s ->
  timers s' = timers s ->
  requestIdCounter s' = requestIdCounter s ->
  consistent s -> consistent s'.
Proof. unfold consistent. intros -> -> -> ->. exact (fun H => H). Qed.

(** A pending request is retired: its entry is deleted, its timer is no
    longer armed, and only its promise may have changed. *)
Lemma consistent_retire (s s' : LspProcess) (id : N) (entry : PendingRequest) :
  consistent s ->
  pendingRequests s !! id = Some entry ->
  pendingRequests s' = delete id (pendingRequests s) ->
  requestIdCounter s' = requestIdCounter s ->
  (forall q, q <> promise entry -> promises s' !! q = promises s !! q) ->
  (forall u, u <> timeout entry -> timers s' !! u = timers s !! u) ->
  (forall task, timers s' !! timeout entry <> Some (Armed task)) ->
  consistent s'.
Proof.
  intros (Hpend & Htim & Hinj) Hid Hdel Hctr Hprom Htimers Hdisarmed.
  destruct (Hpend id entry Hid) as (_ & _ & task & Ht & Hti & _).
  split; [|split].
  - intros id' entry' Hid'. rewrite Hdel in Hid'.
    apply lookup_delete_Some in Hid' as [Hne Hid'].
    destruct (Hpend id' entry' Hid') as (Hlt & Hp & task' & Ht' & Hti' & Htp').
    rewrite Hctr. split; [exact Hlt|]. split.
    + rewrite Hprom; [exact Hp|]. intros Heq.
      apply Hne. eapply Hinj; [exact Hid | exact Hid' | congruence].
    + exists task'. split; [|split; assumption].
      rewrite Htimers; [exact Ht'|]. intros Heq. rewrite Heq in Ht'.
      congruence.
  - intros t task' Ht'.
    destruct (decide (t = timeout entry)) as [->|Hne].
    { exfalso. exact (Hdisarmed _ Ht'). }
    rewrite Htimers in Ht' by exact Hne.
    pose proof (Htim _ _ Ht') as He. rewrite Hdel.
    rewrite lookup_delete_ne; [exact He|].
    intros Heq. rewrite <- Heq in He. rewrite Hid in He.
    injection He as ->. simpl in Hne. congruence.
  - intros id1 id2 e1 e2 H1 H2. rewrite Hdel in H1, H2.
    apply lookup_delete_Some in H1 as [_ H1].
    apply lookup_delete_Some in H2 as [_ H2].
    eapply Hinj; eassumption.
Qed.

Lemma consistent_handleMessage (message : Message) (s : LspProcess) :
  consistent s -> consistent (_handleMessage host message s).
Proof.
  intros Hs. unfold _handleMessage.
  assert (Hnote : forall s0 : LspProcess, consistent s0 ->
    consistent
      (if bool_decide (msg_method message = Some "textDocument/publishDiagnostics")
       then match msg_params message with
            | Some ps =>
              match _uriToPath host (pd_uri ps) with
              | Some filePath =>
                set_diagnostics (<[filePath:=pd_diagnostics ps]> (diagnostics s0)) s0
              | None => s0
              end
            | None => s0
            end
       else s0)).
  { intros s0 H0. destruct (bool_decide _); [|exact H0].
    destruct (msg_params message) as [ps|]; [|exact H0].
    destruct (_uriToPath host (pd_uri ps)); [|exact H0].
    eapply consistent_same; [..|exact H0]; reflexivity. }
  destruct (msg_id message) as [[id|]|]; try (apply Hnote; exact Hs).
  destruct (pendingRequests s !! id) as [entry|] eqn:Hid;
    [|apply Hnote; exact Hs].
  destruct (clearTimeout_other (timeout entry) s) as (Hc1 & Hc2 & Hc3 & _).
  set (r := match msg_error message with
            | Some err => Rejected (LspError (err_message err) (err_code err))
            | None => Fulfilled (msg_result message)
            end).
  assert (Heq : (match msg_error message with
                 | Some err =>
                   settle (promise entry)
                     (Rejected (LspError (err_message err) (err_code err)))
                     (clearTimeout (timeout entry) s)
                 | None =>
                   settle (promise entry) (Fulfilled (msg_result message))
                     (clearTimeout (timeout entry) s)
                 end) = settle (promise entry) r (clearTimeout (timeout entry) s)).
  { subst r. destruct (msg_error message); reflexivity. }
  rewrite Heq. clear Heq.
  destruct (settle_other (promise entry) r (clearTimeout (timeout entry) s))
    as (Hs1 & Hs2 & Hs3 & _).
  eapply (consistent_retire s _ id entry Hs Hid); simpl.
  - rewrite Hs1, Hc1. reflexivity.
  - rewrite Hs3, Hc3. reflexivity.
  - intros q Hq. rewrite settle_lookup_ne by exact Hq. rewrite Hc2. reflexivity.
  - intros u Hu. rewrite Hs2. apply clearTimeout_lookup_ne. exact Hu.
  - intros task. rewrite Hs2. apply clearTimeout_not_armed.
Qed.

Lemma consistent_timeoutExpires (t : nat) (s : LspProcess) :
  consistent s -> consistent (timeoutExpires t s).
Proof.
  intros Hs. unfold timeoutExpires.
  destruct (timers s !! t) as [[task| |]|] eqn:Ht; try exact Hs.
  pose proof Hs as (_ & Htim & _). pose proof (Htim _ _ Ht) as Hid.
  match goal with |- consistent (settle ?p ?r ?s0) =>
    destruct (settle_other p r s0) as (Hs1 & Hs2 & Hs3 & _) end.
  eapply (consistent_retire s _ _ _ Hs Hid).
  - rewrite Hs1. reflexivity.
  - rewrite Hs3. reflexivity.
  - intros q Hq. rewrite settle_lookup_ne by exact Hq. reflexivity.
  - intros u Hu. rewrite Hs2. simpl. apply list_lookup_insert_ne.
    simpl in Hu. congruence.
  - intros task'. rewrite Hs2. simpl.
    rewrite list_lookup_insert_eq by (eapply lookup_lt_Some; eassumption).
    congruence.
Qed.

Lemma consistent_handleData (data : list Byte.byte) (s : LspProcess) :
  consistent s -> consistent (_handleData host data s).
Proof.
  intros Hs. unfold _handleData.
  destruct (Framer.handleData (messageBuffer s) data) as [payloads rest].
  assert (H0 : consistent (set_messageBuffer rest s)).
  { eapply consistent_same; [..|exact Hs]; reflexivity. }
  revert H0. generalize (set_messageBuffer rest s).
  induction payloads as [|payload payloads IH]; intros s0 H0; simpl.
  - exact H0.
  - apply IH. destruct (JSON_parse host payload); [|exact H0].
    apply consistent_handleMessage. exact H0.
Qed.

Lemma consistent_sendNotification method params (s : LspProcess) :
  consistent s -> consistent (sendNotification method params s).
Proof.
  intros Hs. unfold sendNotification. destruct (_ || _); [exact Hs|].
  eapply consistent_same; [..|exact Hs]; reflexivity.
Qed.

Lemma consistent_initialize_resume (s : LspProcess) :
  consistent s -> consistent (_initialize_resume s).
Proof.
  intros Hs.
  destruct (_initialize_resume_requests s) as (H1 & H2 & H3 & _).
  eapply consistent_same; [exact H1|exact H2|exact H3| |exact Hs].
  unfold _initialize_resume.
  destruct (initializationPromise s) as [[p| |e]|]; try reflexivity.
  destruct (promises s !! p) as [[|v|e]|]; try reflexivity.
  destruct (capabilityKeys v); [|reflexivity].
  unfold sendNotification. destruct (_ || _); reflexivity.
Qed.

Lemma consistent_act (a : Action) (s : LspProcess) :
  consistent s -> consistent (act host a s).
Proof.
  intros Hs. destruct a as [e| | | | | |]; simpl.
  - unfold dispatch. apply consistent_initialize_resume.
    destruct e.
    + apply consistent_handleData. exact Hs.
    + eapply consistent_same; [..|exact Hs]; reflexivity.
    + eapply consistent_same; [..|exact Hs]; reflexivity.
    + apply consistent_timeoutExpires. exact Hs.
  - apply consistent_sendRequest. exact Hs.
  - apply consistent_sendNotification. exact Hs.
  - eapply consistent_same; [..|exact Hs]; reflexivity.
  - eapply consistent_same; [..|exact Hs]; reflexivity.
  - eapply consistent_same; [..|exact Hs]; reflexivity.
  - eapply consistent_same; [..|exact Hs]; reflexivity.
Qed.

Lemma consistent_run (actions : list Action) (s : LspProcess) :
  consistent s -> consistent (run host actions s).
Proof.
  revert s. induction actions as [|a actions IH]; intros s Hs; simpl.
  - exact Hs.
  - apply IH. apply consistent_act. exact Hs.
Qed.

Lemma consistent_new (lspConfig : LspConfig) :
  consistent (new_LspProcess host lspConfig).
Proof.
  unfold new_LspProcess.
  match goal with |- context [sendRequest ?m ?p ?t ?s0] =>
    pose proof (consistent_sendRequest m p t s0) as H;
    destruct (sendRequest m p t s0) as [p0 s1] end.
  eapply consistent_same; [..|apply H]; try reflexivity.
  split; [|split]; simpl.
  - intros id entry Hid. rewrite lookup_empty in Hid. discriminate.
  - intros t task Ht. rewrite lookup_nil in Ht. discriminate.
  - intros id id' e e' Hid. rewrite lookup_empty in Hid. discriminate.
Qed.


Lemma evolves_refl (s : LspProcess) : evolves s s.
Proof. split; auto; lia. Qed.

Lemma evolves_trans (s1 s2 s3 : LspProcess) :
  evolves s1 s2 -> evolves s2 s3 -> evolves s1 s3.
Proof.
  intros [c1 p1 a1 t1 g1] [c2 p2 a2 t2 g2]. split.
  - lia.
  - intros q x Hq Hx. apply p2; [apply p1; assumption|exact Hx].
  - intros id Hlt Hid. apply a2; [lia|]. apply a1; assumption.
  - intros t task Ht. destruct (t1 _ _ Ht) as [Harmed | (x & Hx & Hne)].
    + apply t2. exact Harmed.
    + right. exists x. split; [apply p2; assumption|exact Hne].
  - congruence.
Qed.

Lemma evolves_same (s s' : LspProcess) :
  pendingRequests s' = pendingRequests s ->
  promises s' = promises s ->
  timers s' = timers s ->
  requestIdCounter s' = requestIdCounter s ->
  config s' = config s ->
  evolves s s'.
Proof.
  intros Hp Hq Ht Hc Hg. split; rewrite ?Hp, ?Hq, ?Ht, ?Hc; auto; lia.
Qed.

Lemma evolves_sendRequest method params timeoutMs (s : LspProcess) :
  evolves s (snd (sendRequest method params timeoutMs s)).
Proof.
  unfold sendRequest. destruct (_ || _); simpl.
  - split; simpl.
    + lia.
    + intros q x Hq _.
      rewrite lookup_app_l by (eapply lookup_lt_Some; eassumption). exact Hq.
    + intros id _ Hid. exact Hid.
    + intros t task Ht. left. exact Ht.
    + reflexivity.
  - split; simpl.
    + lia.
    + intros q x Hq _.
      rewrite lookup_app_l by (eapply lookup_lt_Some; eassumption). exact Hq.
    + intros id Hlt Hid. rewrite lookup_insert_ne by lia. exact Hid.
    + intros t task Ht. left.
      rewrite lookup_app_l by (eapply lookup_lt_Some; eassumption). exact Ht.
    + reflexivity.
Qed.

(** Retiring a pending request of a consistent client. *)
Lemma evolves_retire (s s' : LspProcess) (id : N) (entry : PendingRequest)
    (r : PromiseState) :
  consistent s ->
  pendingRequests s !! id = Some entry ->
  r <> Pending ->
  pendingRequests s' = delete id (pendingRequests s) ->
  requestIdCounter s' = requestIdCounter s ->
  config s' = config s ->
  promises s' !! promise entry = Some r ->
  (forall q, q <> promise entry -> promises s' !! q = promises s !! q) ->
  (forall u, u <> timeout entry -> timers s' !! u = timers s !! u) ->
  evolves s s'.
Proof.
  intros (Hpend & Htim & Hinj) Hid Hr Hdel Hctr Hcfg Hp Hprom Htimers.
  destruct (Hpend id entry Hid) as (_ & Hpending & _).
  split.
  - lia.
  - intros q x Hq Hx. rewrite Hprom; [exact Hq|]. congruence.
  - intros id' _ Hid'. rewrite Hdel.
    destruct (decide (id = id')) as [<-|Hne];
      [apply lookup_delete_eq | rewrite lookup_delete_ne by exact Hne; exact Hid'].
  - intros t task Ht.
    destruct (decide (t = timeout entry)) as [->|Hne].
    + right.
      destruct (Hpend id entry Hid) as (_ & _ & task2 & Ht2 & _ & Htp2).
      rewrite Ht in Ht2. injection Ht2 as <-.
      exists r. rewrite Htp2. split; assumption.
    + left. rewrite Htimers by exact Hne. exact Ht.
  - exact Hcfg.
Qed.

Lemma evolves_handleMessage (message : Message) (s : LspProcess) :
  consistent s -> evolves s (_handleMessage host message s).
Proof.
  intros Hs. unfold _handleMessage.
  assert (Hnote : forall s0 : LspProcess,
    evolves s0
      (if bool_decide (msg_method message = Some "textDocument/publishDiagnostics")
       then match msg_params message with
            | Some ps =>
              match _uriToPath host (pd_uri ps) with
              | Some filePath =>
                set_diagnostics (<[filePath:=pd_diagnostics ps]> (diagnostics s0)) s0
              | None => s0
              end
            | None => s0
            end
       else s0)).
  { intros s0. destruct (bool_decide _); [|apply evolves_refl].
    destruct (msg_params message) as [ps|]; [|apply evolves_refl].
    destruct (_uriToPath host (pd_uri ps)); [|apply evolves_refl].
    apply evolves_same; reflexivity. }
  destruct (msg_id message) as [[id|]|]; try apply Hnote.
  destruct (pendingRequests s !! id) as [entry|] eqn:Hid; [|apply Hnote].
  destruct (clearTimeout_other (timeout entry) s) as (Hc1 & Hc2 & Hc3 & _ & Hc5).
  set (r := match msg_error message with
            | Some err => Rejected (LspError (err_message err) (err_code err))
            | None => Fulfilled (msg_result message)
            end).
  assert (Heq : (match msg_error message with
                 | Some err =>
                   settle (promise entry)
                     (Rejected (LspError (err_message err) (err_code err)))
                     (clearTimeout (timeout entry) s)
                 | None =>
                   settle (promise entry) (Fulfilled (msg_result message))
                     (clearTimeout (timeout entry) s)
                 end) = settle (promise entry) r (clearTimeout (timeout entry) s)).
  { subst r. destruct (msg_error message); reflexivity. }
  rewrite Heq. clear Heq.
  destruct (settle_other (promise entry) r (clearTimeout (timeout entry) s))
    as (Hs1 & Hs2 & Hs3 & _ & Hs5).
  pose proof Hs as (Hpend & _). destruct (Hpend _ _ Hid) as (_ & Hpending & _).
  eapply (evolves_retire s _ id entry r Hs Hid); simpl.
  - subst r. destruct (msg_error message); discriminate.
  - rewrite Hs1, Hc1. reflexivity.
  - rewrite Hs3, Hc3. reflexivity.
  - rewrite Hs5, Hc5. reflexivity.
  - apply settle_lookup_pending. rewrite Hc2. exact Hpending.
  - intros q Hq. rewrite settle_lookup_ne by exact Hq. rewrite Hc2. reflexivity.
  - intros u Hu. rewrite Hs2. apply clearTimeout_lookup_ne. exact Hu.
Qed.

Lemma timeoutExpires_armed (t : nat) (task : TimeoutTask) (s : LspProcess) :
  timers s !! t = Some (Armed task) ->
  promises s !! task_promise task = Some Pending ->
  let s' := timeoutExpires t s in
  promises s' !! task_promise task
    = Some (Rejected (TimedOut (command (config s)) (task_method task)
                               (task_id task) (task_timeoutMs task)))
  /\ pendingRequests s' = delete (task_id task) (pendingRequests s)
  /\ requestIdCounter s' = requestIdCounter s
  /\ config s' = config s
  /\ (forall q, q <> task_promise task -> promises s' !! q = promises s !! q)
  /\ (forall u, u <> t -> timers s' !! u = timers s !! u).
Proof.
  intros Ht Hp. unfold timeoutExpires. rewrite Ht.
  match goal with |- context [settle ?p ?r ?s0] =>
    destruct (settle_other p r s0) as (Hs1 & Hs2 & Hs3 & _ & Hs5) end.
  cbv zeta. split; [|split; [|split; [|split; [|split]]]].
  - apply settle_lookup_pending. exact Hp.
  - rewrite Hs1. reflexivity.
  - rewrite Hs3. reflexivity.
  - rewrite Hs5. reflexivity.
  - intros q Hq. rewrite settle_lookup_ne by exact Hq. reflexivity.
  - intros u Hu. rewrite Hs2. simpl. apply list_lookup_insert_ne. congruence.
Qed.

Lemma evolves_timeoutExpires (t : nat) (s : LspProcess) :
  consistent s -> evolves s (timeoutExpires t s).
Proof.
  intros Hs.
  destruct (timers s !! t) as [[task| |]|] eqn:Ht;
    try (unfold timeoutExpires; rewrite Ht; apply evolves_refl).
  pose proof Hs as (Hpend & Htim & _). pose proof (Htim _ _ Ht) as Hid.
  destruct (Hpend _ _ Hid) as (_ & Hp & _). simpl in Hp.
  destruct (timeoutExpires_armed t task s Ht Hp)
    as (H1 & H2 & H3 & H4 & H5 & H6).
  eapply (evolves_retire s _ _ _ _ Hs Hid); simpl; try eassumption.
  discriminate.
Qed.

Lemma evolves_handleData (data : list Byte.byte) (s : LspProcess) :
  consistent s -> evolves s (_handleData host data s).
Proof.
  intros Hs. unfold _handleData.
  destruct (Framer.handleData (messageBuffer s) data) as [payloads rest].
  assert (H0 : consistent (set_messageBuffer rest s)).
  { eapply consistent_same; [..|exact Hs]; reflexivity. }
  assert (H1 : evolves s (set_messageBuffer rest s)).
  { apply evolves_same; reflexivity. }
  revert H0 H1. generalize (set_messageBuffer rest s).
  induction payloads as [|payload payloads IH]; intros s0 H0 H1; simpl.
  - exact H1.
  - destruct (JSON_parse host payload) as [message|]; [|apply IH; assumption].
    apply IH.
    + apply consistent_handleMessage. exact H0.
    + eapply evolves_trans; [exact H1|]. apply evolves_handleMessage. exact H0.
Qed.

Lemma evolves_initialize_resume (s : LspProcess) :
  evolves s (_initialize_resume s).
Proof.
  destruct (_initialize_resume_requests s) as (H1 & H2 & H3 & _ & H5).
  apply evolves_same; try assumption.
  unfold _initialize_resume.
  destruct (initializationPromise s) as [[p| |e]|]; try reflexivity.
  destruct (promises s !! p) as [[|v|e]|]; try reflexivity.
  destruct (capabilityKeys v); [|reflexivity].
  unfold sendNotification. destruct (_ || _); reflexivity.
Qed.

Lemma evolves_act (a : Action) (s : LspProcess) :
  consistent s -> evolves s (act host a s).
Proof.
  intros Hs. destruct a as [e| | | | | |]; simpl;
    try (apply evolves_same; reflexivity).
  - unfold dispatch.
    eapply evolves_trans; [|apply evolves_initialize_resume].
    destruct e.
    + apply evolves_handleData. exact Hs.
    + apply evolves_same; reflexivity.
    + apply evolves_same; reflexivity.
    + apply evolves_timeoutExpires. exact Hs.
  - apply evolves_sendRequest.
  - unfold sendNotification. destruct (_ || _);
      [apply evolves_refl | apply evolves_same; reflexivity].
Qed.

Lemma evolves_run (actions : list Action) (s : LspProcess) :
  consistent s -> evolves s (run host actions s).
Proof.
  revert s. induction actions as [|a actions IH]; intros s Hs; simpl.
  - apply evolves_refl.
  - eapply evolves_trans; [apply evolves_act; exact Hs|].
    apply IH. apply consistent_act. exact Hs.
Qed.


Lemma guard_accepts (s : LspProcess) (method : string) :
  accepts method s ->
  negb (bool_decide (is_Some (process s)))
  || (negb (isInitialized s) && negb (String.eqb method "initialize")) = false.
Proof.
  intros [Hp Hi]. rewrite bool_decide_eq_true_2 by exact Hp. simpl.
  destruct Hi as [-> | ->]; [reflexivity|].
  rewrite String.eqb_refl. apply andb_false_r.
Qed.

Lemma handleMessage_not_pending (message : Message) (id : N) (s : LspProcess) :
  responseTo id message ->
  pendingRequests s !! id = None ->
  _handleMessage host message s = s.
Proof.
  intros [Hid Hm] Hnone. unfold _handleMessage.
  rewrite Hid, Hnone, Hm. reflexivity.
Qed.

(** C5.  A request is sent by [sendRequest] on a client that accepts it.
    Whatever the program and the environment do before the deadline, if the
    request is still unanswered (its promise is pending) when its timer
    expires, then the promise is rejected with the timeout error and the
    pending entry is removed.  Whatever happens after that, a response
    bearing the identifier of the request changes nothing at all when it
    arrives: the promise stays rejected with the timeout error, no other
    branch of [_handleMessage] acts on it, and nothing is thrown. *)
Theorem timed_out_request_ignores_late_response
    (s : LspProcess) (method : string) (params : Params) (timeoutMs : N)
    (before after : list Action) (message : Message) :
  consistent s ->
  accepts method s ->
  let id := requestIdCounter s in
  let t := length (timers s) in
  let p := fst (sendRequest method params timeoutMs s) in
  let s1 := snd (sendRequest method params timeoutMs s) in
  let s2 := run host before s1 in
  promises s2 !! p = Some Pending ->
  let s3 := dispatch host (TimeoutEvent t) s2 in
  let s4 := run host after s3 in
  responseTo id message ->
  let timedOut :=
    Rejected (TimedOut (command (config s)) method id timeoutMs) in
  stdin s1 = stdin s ++ [ {| frame_id := Some id; frame_method := method;
                             frame_params := params |} ]
  /\ promises s3 !! p = Some timedOut
  /\ pendingRequests s3 !! id = None
  /\ _handleMessage host message s4 = s4
  /\ promises s4 !! p = Some timedOut.
Proof.
  intros Hs Hacc id t p s1 s2 Hpending s3 s4 Hresp timedOut.
  pose proof (consistent_sendRequest method params timeoutMs s Hs) as Hs1.
  fold s1 in Hs1.
  set (task := {| task_id := id; task_promise := length (promises s);
                  task_method := method; task_timeoutMs := timeoutMs |}).
  assert (Hsend : p = length (promises s)
                  /\ timers s1 !! t = Some (Armed task)
                  /\ requestIdCounter s1 = id + 1
                  /\ config s1 = config s
                  /\ stdin s1 = stdin s ++ [ {| frame_id := Some id;
                                                frame_method := method;
                                                frame_params := params |} ]).
  { subst p s1 t task id. unfold sendRequest.
    rewrite (guard_accepts s method Hacc). simpl.
    repeat split. rewrite lookup_app_r by lia. rewrite Nat.sub_diag. reflexivity. }
  destruct Hsend as (Hp & Ht1 & Hctr1 & Hcfg1 & Hstdin).
  (* up to the deadline *)
  pose proof (consistent_run before s1 Hs1) as Hs2. fold s2 in Hs2.
  pose proof (evolves_run before s1 Hs1) as He12. fold s2 in He12.
  assert (Ht2 : timers s2 !! t = Some (Armed task)).
  { destruct (ev_timer _ _ He12 _ _ Ht1) as [H | (x & Hx & Hne)]; [exact H|].
    simpl in Hx. rewrite <- Hp, Hpending in Hx. congruence. }
  (* the deadline *)
  assert (Hp2 : promises s2 !! task_promise task = Some Pending).
  { simpl. rewrite <- Hp. exact Hpending. }
  destruct (timeoutExpires_armed t task s2 Ht2 Hp2)
    as (Hrej & Hdel & Hctr & Hcfg & _).
  destruct (_initialize_resume_requests (timeoutExpires t s2))
    as (Hi1 & Hi2 & _).
  assert (Hrej3 : promises s3 !! p = Some timedOut).
  { subst s3. unfold dispatch. rewrite Hi2, Hp.
    etransitivity; [exact Hrej|]. simpl.
    rewrite (ev_config _ _ He12), Hcfg1. reflexivity. }
  assert (Hnone3 : pendingRequests s3 !! id = None).
  { subst s3. unfold dispatch. rewrite Hi1, Hdel. apply lookup_delete_eq. }
  pose proof (consistent_act (AEvent (TimeoutEvent t)) s2 Hs2) as Hs3.
  pose proof (evolves_act (AEvent (TimeoutEvent t)) s2 Hs2) as He23.
  simpl in Hs3, He23. fold s3 in Hs3, He23.
  (* afterwards *)
  pose proof (evolves_run after s3 Hs3) as He34. fold s4 in He34.
  assert (Hnone4 : pendingRequests s4 !! id = None).
  { apply (ev_absent _ _ He34); [|exact Hnone3].
    pose proof (ev_counter _ _ He12). pose proof (ev_counter _ _ He23). lia. }
  split; [exact Hstdin|]. split; [exact Hrej3|]. split; [exact Hnone3|]. split.
  - apply (handleMessage_not_pending message id); assumption.
  - apply (ev_settled _ _ He34); [exact Hrej3|]. discriminate.
Qed.

End Correlation.

Lemma timed_out_request_ignores_late_response_witness :
  let s := Demo.readyClient in
  let request := Lsp.sendRequest "textDocument/completion"
                   (Lsp.PPosition "file:///project/a.ts" 0 0) 5000 s in
  let s2 := Trace.run Demo.demoHost
              [Trace.ANotify "textDocument/didChange" Lsp.PNull] (snd request) in
  let s3 := Lsp.dispatch Demo.demoHost
              (Lsp.TimeoutEvent (length (Lsp.timers s))) s2 in
  let s4 := Trace.run Demo.demoHost [Trace.AEvent Lsp.ExitEvent] s3 in
  Lsp.promises s3 !! fst request
    = Some (Lsp.Rejected (TimedOut (Lsp.command (Lsp.config s))
                                   "textDocument/completion"
                                   (Lsp.requestIdCounter s) 5000))
  /\ Lsp._handleMessage Demo.demoHost
       (Demo.response (Lsp.requestIdCounter s) Lsp.VNull) s4 = s4.
Proof.
  cbv zeta.
  pose proof (timed_out_request_ignores_late_response Demo.demoHost
                Demo.readyClient "textDocument/completion"
                (Lsp.PPosition "file:///project/a.ts" 0 0) 5000
                [Trace.ANotify "textDocument/didChange" Lsp.PNull]
                [Trace.AEvent Lsp.ExitEvent]
                (Demo.response (Lsp.requestIdCounter Demo.readyClient) Lsp.VNull))
    as H.
  cbv zeta in H.
  destruct H as (_ & H3 & _ & H4 & _).
  - apply consistent_run, consistent_new.
  - split; [vm_compute; eexists; reflexivity | left; vm_compute; reflexivity].
  - vm_compute; reflexivity.
  - split; reflexivity.
  - split; [exact H3 | exact H4].
Defined.

(** ** Shutting the clients down *)

Section Shutdown.
Import Lsp Service Trace.
Context (host : Host).

Lemma map_get_set_eq {V} (key : string) (v : V) (m : list (string * V)) :
  map_get key (map_set key v m) = Some v.
Proof.
  induction m as [|[k v0] m IH]; simpl.
  - rewrite String.eqb_refl. reflexivity.
  - destruct (String.eqb k key) eqn:Hk; simpl; rewrite Hk; [reflexivity|exact IH].
Qed.

Lemma map_get_set_ne {V} (key key' : string) (v : V) (m : list (string * V)) :
  key <> key' -> map_get key' (map_set key v m) = map_get key' m.
Proof.
  intros Hne. induction m as [|[k v0] m IH]; simpl.
  - apply String.eqb_neq in Hne. rewrite Hne. reflexivity.
  - destruct (String.eqb k key) eqn:Hk; simpl.
    + apply String.eqb_eq in Hk. subst k.
      apply String.eqb_neq in Hne. rewrite Hne. reflexivity.
    + destruct (String.eqb k key'); [reflexivity|exact IH].
Qed.

Lemma map_set_set {V} (key : string) (v v' : V) (m : list (string * V)) :
  map_set key v (map_set key v' m) = map_set key v m.
Proof.
  induction m as [|[k v0] m IH]; simpl.
  - rewrite String.eqb_refl. reflexivity.
  - destruct (String.eqb k key) eqn:Hk; simpl; rewrite Hk; [reflexivity|].
    rewrite IH. reflexivity.
Qed.

Lemma map_set_keys {V} (key : string) (v : V) (m : list (string * V)) :
  is_Some (map_get key m) -> map fst (map_set key v m) = map fst m.
Proof.
  induction m as [|[k v0] m IH]; simpl; intros H.
  - destruct H. discriminate.
  - destruct (String.eqb k key); simpl; [reflexivity|]. rewrite IH by exact H.
    reflexivity.
Qed.

(** What the event loop does to the client [key] while something is
    awaited: a run of events of that client. *)
Lemma deliver_on (key : string) (e : Event) (insts : list (string * LspProcess))
    (s : LspProcess) :
  map_get key insts = Some s ->
  exists actions, map_get key (deliver host e insts) = Some (run host actions s)
                  /\ Forall (fun a => exists pe, a = AEvent pe) actions.
Proof.
  intros Hs. destruct e as [key' pe|failed]; simpl.
  - destruct (map_get key' insts) as [s'|] eqn:Hs'.
    + destruct (String.eqb_spec key' key) as [->|Hne].
      * rewrite Hs in Hs'. injection Hs' as <-.
        exists [AEvent pe]. rewrite map_get_set_eq. split; [reflexivity|].
        constructor; [eexists; reflexivity|constructor].
      * exists []. rewrite map_get_set_ne by exact Hne.
        split; [exact Hs|constructor].
    + exists []. split; [exact Hs|constructor].
  - exists []. split; [exact Hs|constructor].
Qed.

Lemma run_app (a b : list Action) (s : LspProcess) :
  run host (a ++ b) s = run host b (run host a s).
Proof. unfold run. apply fold_left_app. Qed.

Lemma awaitPromise_loop_runs (key : string) (p : nat) (events : list Event)
    (insts : list (string * LspProcess)) (s : LspProcess) :
  map_get key insts = Some s ->
  let '(r, (insts', rest)) := awaitPromise_loop host key p events insts in
  exists actions,
    map_get key insts' = Some (run host actions s)
    /\ Forall (fun a => exists pe, a = AEvent pe) actions
    /\ match r with
       | Returned v => promises (run host actions s) !! p = Some (Fulfilled v)
       | Thrown e => promises (run host actions s) !! p = Some (Rejected e)
       | Suspended => rest = []
       end.
Proof.
  revert insts s. induction events as [|e events IH]; intros insts s Hs; simpl;
    rewrite Hs; simpl.
  - destruct (promises s !! p) as [[|v|e]|] eqn:Hp;
      exists []; (split; [exact Hs|split; [constructor|]]); simpl; auto.
  - destruct (promises s !! p) as [[|v|e0]|] eqn:Hp.
    2,3: exists []; (split; [exact Hs|split; [constructor|]]); simpl; auto.
    all: destruct (deliver_on key e insts s Hs) as (a1 & Ha1 & HF1);
      specialize (IH _ _ Ha1);
      destruct (awaitPromise_loop host key p events (deliver host e insts))
        as [r [insts' rest]];
      destruct IH as (a2 & Ha2 & HF2 & Hr);
      exists (a1 ++ a2); rewrite run_app;
      (split; [exact Ha2|split; [apply Forall_app; split; assumption|exact Hr]]).
Qed.


Lemma self_eq (key : string) (w : World) (s : LspProcess) :
  map_get key (lspInstances w) = Some s -> self key w = (Returned s, w).
Proof. intros H. unfold self. rewrite H. reflexivity. Qed.

Lemma update_eq (key : string) (f : LspProcess -> LspProcess) (w : World)
    (s : LspProcess) :
  map_get key (lspInstances w) = Some s ->
  update key f w
  = (Returned tt, set_instances (map_set key (f s) (lspInstances w)) w).
Proof. intros H. unfold update, call. rewrite H. reflexivity. Qed.

Lemma sendNotification_process method params (s : LspProcess) :
  process (sendNotification method params s) = process s.
Proof. unfold sendNotification. destruct (_ || _); reflexivity. Qed.

Lemma closeFinally_live (key : string) (w : World) (s : LspProcess) :
  map_get key (lspInstances w) = Some s ->
  is_Some (process s) ->
  closeFinally key w
  = (Returned tt, set_instances (map_set key (killed s) (lspInstances w)) w).
Proof.
  intros Hs [u Hp]. unfold killed, closeFinally, mbind, task_bind.
  rewrite (update_eq _ _ _ _ Hs).
  set (s1 := sendNotification "exit" PNull s).
  set (w1 := set_instances _ w).
  assert (H1 : map_get key (lspInstances w1) = Some s1).
  { subst w1. simpl. apply map_get_set_eq. }
  rewrite (self_eq _ _ _ H1).
  assert (Hp1 : process s1 = Some u).
  { subst s1. rewrite sendNotification_process. exact Hp. }
  rewrite Hp1.
  rewrite (update_eq _ _ _ _ H1).
  set (w2 := set_instances _ w1).
  assert (H2 : map_get key (lspInstances w2)
               = Some (set_signals (signals s1 ++ [SIGTERM]) s1)).
  { subst w2. simpl. apply map_get_set_eq. }
  rewrite (update_eq _ _ _ _ H2).
  set (w3 := set_instances _ w2).
  assert (H3 : map_get key (lspInstances w3)
               = Some (set_isInitialized false
                         (set_signals (signals s1 ++ [SIGTERM]) s1))).
  { subst w3. simpl. apply map_get_set_eq. }
  rewrite (update_eq _ _ _ _ H3).
  f_equal. subst w3 w2 w1. unfold set_instances.
  cbn [lspInstances files future]. rewrite !map_set_set. reflexivity.
Qed.

Lemma closeFinally_gone (key : string) (w : World) (s : LspProcess) :
  map_get key (lspInstances w) = Some s ->
  process s = None ->
  fst (closeFinally key w) = Thrown (TypeError "this.process.kill").
Proof.
  intros Hs Hp. unfold closeFinally, mbind, task_bind.
  rewrite (update_eq _ _ _ _ Hs).
  set (s1 := sendNotification "exit" PNull s).
  set (w1 := set_instances _ w).
  assert (H1 : map_get key (lspInstances w1) = Some s1).
  { subst w1. simpl. apply map_get_set_eq. }
  rewrite (self_eq _ _ _ H1).
  assert (Hp1 : process s1 = None).
  { subst s1. rewrite sendNotification_process. exact Hp. }
  rewrite Hp1. reflexivity.
Qed.

Lemma close_unfold (key : string) (w : World) (s : LspProcess) :
  map_get key (lspInstances w) = Some s ->
  is_Some (process s) ->
  close host key w
  = try_finally
      (try_catch
         (if isInitialized s then
            p ← call key (sendRequest "shutdown" PNull 2000);
            awaitPromise host key p;;
            mret tt
          else mret tt)
         (fun error => mret tt))
      (closeFinally key) w.
Proof.
  intros Hs Hp. unfold close. unfold mbind at 1. unfold task_bind at 1.
  rewrite (self_eq _ _ _ Hs). rewrite bool_decide_eq_true_2 by exact Hp.
  reflexivity.
Qed.


Lemma closeEach_cons (key : string) (keys : list string) (w : World) :
  closeEach host (key :: keys) w
  = match close host key w with
    | (Returned _, w') => closeEach host keys w'
    | (Thrown e, w') => (Thrown e, w')
    | (Suspended, w') => (Suspended, w')
    end.
Proof. reflexivity. Qed.

Lemma killed_fields (s : LspProcess) :
  signals (killed s) = signals s ++ [SIGTERM]
  /\ process (killed s) = None
  /\ isInitialized (killed s) = false
  /\ (notReady s -> stdin (killed s) = stdin s)
  /\ (ready s ->
      stdin (killed s)
      = stdin s ++ [ {| frame_id := None; frame_method := "exit";
                        frame_params := PNull |} ]).
Proof.
  unfold killed. split; [|split; [|split; [|split]]]; simpl.
  - unfold sendNotification. destruct (_ || _); reflexivity.
  - reflexivity.
  - reflexivity.
  - intros Hn. unfold sendNotification.
    rewrite (guard_not_ready s "exit" "initialized" Hn) by discriminate.
    reflexivity.
  - intros [Hp Hi]. unfold sendNotification. rewrite Hp, Hi. reflexivity.
Qed.

(** The [await] in [close] ends, at the latest when the timer of the
    shutdown request expires. *)
Lemma awaitPromise_loop_ends (key : string) (p t : nat) (task : TimeoutTask)
    (events : list Event) (insts : list (string * LspProcess)) (s : LspProcess) :
  map_get key insts = Some s ->
  consistent s ->
  task_promise task = p ->
  timers s !! t = Some (Armed task) \/ settledAt s p ->
  In (ClientEvent key (TimeoutEvent t)) events ->
  fst (awaitPromise_loop host key p events insts) <> Suspended.
Proof.
  revert insts s. induction events as [|e events IH];
    intros insts s Hs Hc Htp Hinv Hin; [destruct Hin|].
  simpl. rewrite Hs. simpl.
  destruct (promises s !! p) as [[|v|e0]|] eqn:Hp; try discriminate.
  - (* still pending: the timer is armed *)
    destruct Hinv as [Harmed | (x & Hx & Hne)]; [|congruence].
    destruct (deliver_on key e insts s Hs) as (a1 & Ha1 & HF1).
    destruct Hin as [-> | Hin].
    + (* the timer expires *)
      simpl. rewrite Hs.
      destruct events as [|e' events']; simpl; rewrite map_get_set_eq; simpl.
      all: unfold dispatch;
        destruct (_initialize_resume_requests (timeoutExpires t s))
          as (_ & -> & _);
        rewrite <- Htp in Hp;
        destruct (timeoutExpires_armed t task s Harmed Hp) as (Hrej & _);
        rewrite <- Htp, Hrej; discriminate.
    + apply (IH _ _ Ha1).
      * apply consistent_run. exact Hc.
      * exact Htp.
      * destruct (ev_timer _ _ (evolves_run host a1 s Hc) _ _ Harmed)
          as [H | H]; [left; exact H | right; rewrite <- Htp; exact H].
      * exact Hin.
  - (* no such promise *)
    destruct Hinv as [Harmed | (x & Hx & Hne)]; [|congruence].
    destruct Hc as (Hpend & Htim & _).
    destruct (Hpend _ _ (Htim _ _ Harmed)) as (_ & Hq & _). simpl in Hq.
    congruence.
Qed.


End Shutdown.



(** ** Document synchronisation *)

Section Documents.
Import Lsp Service Trace.
Context (host : Host).

Lemma sameSession_refl (s : LspProcess) : sameSession s s.
Proof. repeat split. Qed.

Lemma sameSession_trans (s1 s2 s3 : LspProcess) :
  sameSession s1 s2 -> sameSession s2 s3 -> sameSession s1 s3.
Proof.
  intros (a1 & a2 & a3 & a4 & a5) (b1 & b2 & b3 & b4 & b5).
  repeat split; congruence.
Qed.

Lemma sameSession_settle (p : nat) (r : PromiseState) (s : LspProcess) :
  sameSession s (settle p r s).
Proof. unfold settle. destruct (promises s !! p) as [[]|]; repeat split. Qed.

Lemma sameSession_clearTimeout (t : nat) (s : LspProcess) :
  sameSession s (clearTimeout t s).
Proof. unfold clearTimeout. destruct (timers s !! t) as [[]|]; repeat split. Qed.

Lemma sameSession_handleMessage (message : Message) (s : LspProcess) :
  sameSession s (_handleMessage host message s).
Proof.
  unfold _handleMessage.
  assert (Hnote : forall s0 : LspProcess,
    sameSession s0
      (if bool_decide (msg_method message = Some "textDocument/publishDiagnostics")
       then match msg_params message with
            | Some ps =>
              match _uriToPath host (pd_uri ps) with
              | Some filePath =>
                set_diagnostics (<[filePath:=pd_diagnostics ps]> (diagnostics s0)) s0
              | None => s0
              end
            | None => s0
            end
       else s0)).
  { intros s0. destruct (bool_decide _); [|apply sameSession_refl].
    destruct (msg_params message) as [ps|]; [|apply sameSession_refl].
    destruct (_uriToPath host (pd_uri ps)); repeat split. }
  destruct (msg_id message) as [[id|]|]; try apply Hnote.
  destruct (pendingRequests s !! id) as [entry|]; [|apply Hnote].
  eapply sameSession_trans; [apply (sameSession_clearTimeout (timeout entry))|].
  eapply sameSession_trans;
    [|apply (sameSession_refl
               (set_pendingRequests _ _)) ].
  destruct (msg_error message);
    (eapply sameSession_trans; [apply sameSession_settle|]); repeat split.
Qed.

Lemma sameSession_handleData (data : list Byte.byte) (s : LspProcess) :
  sameSession s (_handleData host data s).
Proof.
  unfold _handleData.
  destruct (Framer.handleData (messageBuffer s) data) as [payloads rest].
  assert (H0 : sameSession s (set_messageBuffer rest s)) by (repeat split).
  revert H0. generalize (set_messageBuffer rest s).
  induction payloads as [|payload payloads IH]; intros s0 H0; simpl.
  - exact H0.
  - apply IH. destruct (JSON_parse host payload); [|exact H0].
    eapply sameSession_trans; [exact H0|]. apply sameSession_handleMessage.
Qed.

Lemma sameSession_timeoutExpires (t : nat) (s : LspProcess) :
  sameSession s (timeoutExpires t s).
Proof.
  unfold timeoutExpires. destruct (timers s !! t) as [[task| |]|];
    try apply sameSession_refl.
  eapply sameSession_trans; [|apply sameSession_settle]. repeat split.
Qed.

(** What one turn of the event loop can do to the session of a client. *)
Lemma dispatch_session (e : ProcessEvent) (s : LspProcess) :
  let s' := dispatch host e s in
  openDocuments s' = openDocuments s
  /\ (stdin s' = stdin s \/ stdin s' = stdin s ++ [initializedFrame])
  /\ (dead s -> dead s')
  /\ (isInitialized s = true \/ dead s -> isInitialized s' = true \/ dead s').
Proof.
  intros s'. subst s'. unfold dispatch.
  set (s1 := match e with
             | StdoutData data => _handleData host data s
             | ExitEvent => onExit s
             | ErrorEvent => onError s
             | TimeoutEvent t => timeoutExpires t s
             end).
  assert (H1 : stdin s1 = stdin s /\ openDocuments s1 = openDocuments s
               /\ initializationPromise s1 = initializationPromise s
               /\ (process s1 = process s /\ isInitialized s1 = isInitialized s
                   \/ process s1 = None /\ isInitialized s1 = false)).
  { subst s1. destruct e.
    - destruct (sameSession_handleData data s) as (a1 & a2 & a3 & a4 & a5).
      repeat split; auto.
    - repeat split; auto.
    - repeat split; auto.
    - destruct (sameSession_timeoutExpires t s) as (a1 & a2 & a3 & a4 & a5).
      repeat split; auto. }
  clearbody s1. destruct H1 as (Hstd & Hopen & Hinit & Hflags).
  assert (Hdead1 : dead s -> dead s1).
  { intros [Hp | [Hi Hna]].
    - left. destruct Hflags as [[-> _] | [-> _]]; auto.
    - destruct Hflags as [[_ Hi1] | [Hp1 _]]; [|left; exact Hp1].
      right. split; [congruence|]. rewrite Hinit. exact Hna. }
  unfold _initialize_resume.
  destruct (initializationPromise s1) as [[p| |e0]|] eqn:Hip.
  2-4: (split; [exact Hopen|]; split; [left; exact Hstd|]; split;
        [exact Hdead1|]; intros [Hi | Hd]; [|right; apply Hdead1; exact Hd];
        destruct Hflags as [[_ Hi1] | [Hp1 _]];
        [left; congruence | right; left; exact Hp1]).
  destruct (promises s1 !! p) as [[|v|e0]|] eqn:Hp.
  1,4: (split; [exact Hopen|]; split; [left; exact Hstd|]; split;
        [exact Hdead1|]; intros [Hi | Hd]; [|right; apply Hdead1; exact Hd];
        destruct Hflags as [[_ Hi1] | [Hp1 _]];
        [left; congruence | right; left; exact Hp1]).
  - destruct (capabilityKeys v).
    + (* the handshake succeeds *)
      simpl. split.
      { unfold sendNotification. destruct (_ || _); simpl; exact Hopen. }
      split.
      { unfold sendNotification. destruct (_ || _); simpl;
          [left; exact Hstd | right; rewrite Hstd; reflexivity]. }
      split.
      { intros Hd. destruct (Hdead1 Hd) as [Hp1 | [_ Hna]].
        - left. simpl. rewrite sendNotification_process. exact Hp1.
        - exfalso. exact (Hna p Hip). }
      intros _. left. reflexivity.
    + simpl. split; [exact Hopen|]. split; [left; exact Hstd|]. split.
      * intros _. right. split; [reflexivity|]. simpl. discriminate.
      * intros _. right. right. split; [reflexivity|]. simpl. discriminate.
  - simpl. split; [exact Hopen|]. split; [left; exact Hstd|]. split.
    * intros _. right. split; [reflexivity|]. simpl. discriminate.
    * intros _. right. right. split; [reflexivity|]. simpl. discriminate.
Qed.


Lemma versionsSent_app (uri : string) (l1 l2 : list Frame) :
  versionsSent uri (l1 ++ l2) = versionsSent uri l1 ++ versionsSent uri l2.
Proof. unfold versionsSent. apply omap_app. Qed.

Lemma opensSent_app (uri : string) (l1 l2 : list Frame) :
  opensSent uri (l1 ++ l2) = (opensSent uri l1 + opensSent uri l2)%nat.
Proof. unfold opensSent. rewrite filter_app, length_app. reflexivity. Qed.

Lemma silent_nil : silent [].
Proof. intros uri. split; reflexivity. Qed.

Lemma silent_app (l1 l2 : list Frame) : silent l1 -> silent l2 -> silent (l1 ++ l2).
Proof.
  intros H1 H2 uri. destruct (H1 uri) as [a1 b1]. destruct (H2 uri) as [a2 b2].
  rewrite versionsSent_app, opensSent_app, a1, a2, b1, b2. split; reflexivity.
Qed.

(** A run of events of a client: the documents are as they were, the
    frames written on the way are not about documents, and a client that
    was initialized is still initialized unless it is dead for good. *)
Lemma events_session (actions : list Action) (s : LspProcess) :
  Forall isEvent actions ->
  let s' := run host actions s in
  openDocuments s' = openDocuments s
  /\ (exists extra, stdin s' = stdin s ++ extra /\ silent extra)
  /\ (dead s -> dead s')
  /\ (isInitialized s = true \/ dead s -> isInitialized s' = true \/ dead s').
Proof.
  intros HF. revert s. induction HF as [|a actions [e ->] _ IH]; intros s; simpl.
  - split; [reflexivity|]. split; [|split; auto].
    exists []. rewrite app_nil_r. split; [reflexivity|apply silent_nil].
  - destruct (dispatch_session e s) as (Ho & Hs & Hd & Hi).
    destruct (IH (dispatch host e s)) as (Ho' & (extra & Hs' & Hsil) & Hd' & Hi').
    split; [congruence|]. split; [|split; auto].
    destruct Hs as [Hs | Hs]; rewrite Hs in Hs'.
    + exists extra. split; assumption.
    + exists ([initializedFrame] ++ extra). rewrite app_assoc.
      split; [exact Hs'|]. apply silent_app; [|exact Hsil].
      intros uri. split; reflexivity.
Qed.

Lemma awaitCompletion_loop_runs (key : string) (events : list Event)
    (insts : list (string * LspProcess)) (s : LspProcess) :
  map_get key insts = Some s ->
  exists actions,
    map_get key (fst (snd (awaitCompletion_loop host events insts)))
    = Some (run host actions s)
    /\ Forall isEvent actions.
Proof.
  revert insts s. induction events as [|e events IH]; intros insts s Hs.
  - exists []. split; [exact Hs|constructor].
  - destruct e as [key' pe|failed].
    + destruct (deliver_on host key (ClientEvent key' pe) insts s Hs)
        as (a1 & Ha1 & HF1).
      destruct (IH _ _ Ha1) as (a2 & Ha2 & HF2).
      exists (a1 ++ a2). rewrite run_app. split; [exact Ha2|].
      apply Forall_app. split; [|exact HF2].
      eapply Forall_impl; [exact HF1|]. intros a Ha. exact Ha.
    + exists []. split; [exact Hs|constructor].
Qed.

Lemma awaitInitialization_loop_runs (key : string) (events : list Event)
    (insts : list (string * LspProcess)) (s : LspProcess) :
  map_get key insts = Some s ->
  exists actions,
    map_get key (fst (snd (awaitInitialization_loop host key events insts)))
    = Some (run host actions s)
    /\ Forall isEvent actions.
Proof.
  revert insts s. induction events as [|e events IH]; intros insts s Hs;
    simpl; rewrite Hs; simpl.
  - destruct (initializationPromise s) as [[p| |e0]|];
      exists []; (split; [exact Hs|constructor]).
  - destruct (initializationPromise s) as [[p| |e0]|].
    2-4: exists []; (split; [exact Hs|constructor]).
    destruct (deliver_on host key e insts s Hs) as (a1 & Ha1 & HF1).
    destruct (IH _ _ Ha1) as (a2 & Ha2 & HF2).
    exists (a1 ++ a2). rewrite run_app. split; [exact Ha2|].
    apply Forall_app. split; [|exact HF2].
    eapply Forall_impl; [exact HF1|]. intros a Ha. exact Ha.
Qed.


Lemma opensSent_open (uri lang : string) (content : list N) (v : N)
    (id : option N) (method : string) :
  opensSent uri [ {| frame_id := id; frame_method := method;
                     frame_params := PDidOpen uri lang v content |} ] = 1%nat.
Proof.
  unfold opensSent. rewrite filter_cons_True; [reflexivity|].
  simpl. apply String.eqb_refl.
Qed.

Lemma task_bind_unfold {A B} (m : Task A) (f : A -> Task B) (w : World) :
  (m ≫= f) w
  = match m w with
    | (Returned a, w') => f a w'
    | (Thrown e, w') => (Thrown e, w')
    | (Suspended, w') => (Suspended, w')
    end.
Proof. reflexivity. Qed.

Lemma ensureDocumentOpen_initialized (key rel : string) (w : World)
    (s : LspProcess) (a : string) :
  map_get key (lspInstances w) = Some s ->
  isInitialized s = true ->
  getAbsolutePath host rel = inr a ->
  ensureDocumentOpen host key rel w
  = if bool_decide (is_Some (openDocuments s !! a)) then (Returned a, w)
    else match openBlock host key a
                 (languageIdFor (supportedLanguageIds (config s)) a) w with
         | (Returned _, w') => (Returned a, w')
         | (Thrown e, w') => (Thrown e, w')
         | (Suspended, w') => (Suspended, w')
         end.
Proof.
  intros Hs Hi Ha. unfold ensureDocumentOpen.
  rewrite task_bind_unfold, (self_eq _ _ _ Hs), Hi. cbn [negb].
  rewrite task_bind_unfold. unfold mret at 1, task_ret at 1.
  rewrite task_bind_unfold, (self_eq _ _ _ Hs), Hi. cbn [negb].
  rewrite Ha. unfold liftE at 1.
  rewrite task_bind_unfold.
  change (liftE (inr a) w) with (@Returned string a, w). cbv beta iota.
  destruct (bool_decide (is_Some (openDocuments s !! a))); cbn [negb].
  - reflexivity.
  - rewrite task_bind_unfold. unfold liftE, openBlock.
    match goal with |- (let (_, _) := ?m w in _) = (let (_, _) := ?m' w in _) =>
      change m' with m; destruct (m w) as [[[]|e|] w'] end; reflexivity.
Qed.

(** On a client that is initialized, a path that is refused makes the
    call throw. *)
Lemma ensureDocumentOpen_refused (key rel : string) (w : World)
    (s : LspProcess) (e : Error) :
  map_get key (lspInstances w) = Some s ->
  isInitialized s = true ->
  getAbsolutePath host rel = inl e ->
  ensureDocumentOpen host key rel w = (Thrown e, w).
Proof.
  intros Hs Hi Ha. unfold ensureDocumentOpen.
  rewrite task_bind_unfold, (self_eq _ _ _ Hs), Hi. cbn [negb].
  rewrite task_bind_unfold. unfold mret at 1, task_ret at 1.
  rewrite task_bind_unfold, (self_eq _ _ _ Hs), Hi. cbn [negb].
  rewrite Ha. reflexivity.
Qed.

(** On a client that is not initialized, the call first waits for the
    handshake, and then goes on as a call on the client as it is then. *)
Lemma ensureDocumentOpen_uninitialized (key rel : string) (w : World)
    (s : LspProcess) :
  map_get key (lspInstances w) = Some s ->
  isInitialized s = false ->
  ensureDocumentOpen host key rel w
  = match awaitInitialization host key w with
    | (Returned _, w0) =>
      match map_get key (lspInstances w0) with
      | Some s0 =>
        if isInitialized s0 then ensureDocumentOpen host key rel w0
        else (Thrown (CouldNotBeInitialized (command (config s0))), w0)
      | None => (Thrown (TypeError "undefined"), w0)
      end
    | (Thrown e, w0) => (Thrown e, w0)
    | (Suspended, w0) => (Suspended, w0)
    end.
Proof.
  intros Hs Hi. unfold ensureDocumentOpen at 1.
  rewrite task_bind_unfold, (self_eq _ _ _ Hs), Hi. cbn [negb].
  rewrite task_bind_unfold.
  destruct (awaitInitialization host key w) as [[[]|e|] w0]; try reflexivity.
  rewrite task_bind_unfold. unfold self at 1.
  destruct (map_get key (lspInstances w0)) as [s0|] eqn:Hs0; [|reflexivity].
  destruct (isInitialized s0) eqn:Hi0; cbn [negb]; [|reflexivity].
  unfold ensureDocumentOpen. symmetry.
  rewrite task_bind_unfold, (self_eq _ _ _ Hs0), Hi0. cbn [negb].
  rewrite task_bind_unfold. unfold mret at 1, task_ret at 1.
  rewrite task_bind_unfold, (self_eq _ _ _ Hs0), Hi0. reflexivity.
Qed.

Lemma awaitInitialization_runs (key : string) (w : World) (s : LspProcess) :
  map_get key (lspInstances w) = Some s ->
  exists actions,
    map_get key (lspInstances (snd (awaitInitialization host key w)))
    = Some (run host actions s)
    /\ Forall isEvent actions.
Proof.
  intros Hs. unfold awaitInitialization.
  destruct (awaitInitialization_loop_runs key (future w) (lspInstances w) s Hs)
    as (actions & Ha & HF).
  destruct (awaitInitialization_loop host key (future w) (lspInstances w))
    as [r [insts events]]. exists actions. split; [exact Ha|exact HF].
Qed.

Lemma openBlock_returns (key a lang : string) (w w' : World) (s : LspProcess) :
  map_get key (lspInstances w) = Some s ->
  openBlock host key a lang w = (Returned tt, w') ->
  exists actions content uri,
    Forall isEvent actions
    /\ _pathToUri host a = inr uri
    /\ map_get key (lspInstances w')
       = Some (opened a uri lang content (run host actions s)).
Proof.
  intros Hs. unfold openBlock, readFile, awaitCompletion.
  unfold mbind, task_bind.
  destruct (awaitCompletion_loop_runs key (future w) (lspInstances w) s Hs)
    as (actions & Hb & HF).
  destruct (awaitCompletion_loop host (future w) (lspInstances w))
    as [failed [insts rest]]. simpl in Hb. simpl.
  destruct (files w !! fileAt host a) as [content|]; [|discriminate].
  destruct failed; [discriminate|].
  destruct (_pathToUri host a) as [e|uri]; simpl; [discriminate|].
  set (wb := set_future rest (set_instances insts w)).
  assert (Hwb : map_get key (lspInstances wb) = Some (run host actions s))
    by exact Hb.
  rewrite (update_eq _ _ _ _ Hwb).
  set (w1 := set_instances _ wb).
  assert (H1 : map_get key (lspInstances w1)
               = Some (sendNotification "textDocument/didOpen"
                         (PDidOpen uri lang 1 (Js.toString content))
                         (run host actions s))).
  { subst w1. simpl. apply map_get_set_eq. }
  rewrite (update_eq _ _ _ _ H1). intros Heq. injection Heq as <-.
  exists actions, (Js.toString content), uri. split; [exact HF|].
  split; [reflexivity|].
  cbn [lspInstances set_instances]. rewrite map_get_set_eq. reflexivity.
Qed.

Lemma world_eta (w : World) :
  set_future (future w) (set_instances (lspInstances w) w) = w.
Proof. destruct w. reflexivity. Qed.

(** A handshake that is over is not waited for. *)
Lemma awaitInitialization_fulfilled (key : string) (w : World) (s : LspProcess) :
  map_get key (lspInstances w) = Some s ->
  initializationPromise s = Some InitFulfilled ->
  awaitInitialization host key w = (Returned tt, w).
Proof.
  intros Hs Hip. unfold awaitInitialization.
  destruct (future w) as [|e events] eqn:Hf;
    cbn [awaitInitialization_loop]; rewrite Hs; cbn [mbind option_bind];
    rewrite Hip, <- Hf, world_eta; reflexivity.
Qed.

(** The client after [opened]: the document has version 1, and the
    notification has been written exactly if the client was ready. *)
Lemma opened_outcome (a uri lang : string) (content : list N) (s : LspProcess) :
  let s1 := opened a uri lang content s in
  openDocuments s1 !! a = Some 1
  /\ process s1 = process s
  /\ isInitialized s1 = isInitialized s
  /\ initializationPromise s1 = initializationPromise s
  /\ (ready s1 ->
      stdin s1 = stdin s ++ [ {| frame_id := None;
                                 frame_method := "textDocument/didOpen";
                                 frame_params := PDidOpen uri lang 1 content |} ])
  /\ (notReady s1 -> stdin s1 = stdin s).
Proof.
  cbv zeta. unfold opened, sendNotification.
  change (String.eqb "textDocument/didOpen" "initialized") with false.
  cbn [negb]. rewrite andb_true_r.
  destruct (process s) as [[]|] eqn:Hp; destruct (isInitialized s) eqn:Hi;
    cbn [negb orb bool_decide];
    (rewrite ?bool_decide_eq_true_2 by (eexists; reflexivity));
    (rewrite ?bool_decide_eq_false_2 by (intros [x Hx]; discriminate));
    cbn [negb orb openDocuments process isInitialized initializationPromise
         stdin set_openDocuments set_stdin];
    rewrite ?Hp, ?Hi, ?lookup_insert_eq;
    repeat split; try reflexivity;
    unfold ready, notReady;
    cbn [process isInitialized set_openDocuments set_stdin];
    rewrite ?Hp, ?Hi; intuition congruence.
Qed.

(** What the first call does on a client that is initialized. *)
Lemma ensureDocumentOpen_first (key rel : string) (w : World)
    (s s1 : LspProcess) (a : string) :
  map_get key (lspInstances w) = Some s ->
  isInitialized s = true ->
  fst (ensureDocumentOpen host key rel w) = Returned a ->
  map_get key (lspInstances (snd (ensureDocumentOpen host key rel w))) = Some s1 ->
  getAbsolutePath host rel = inr a
  /\ (is_Some (openDocuments s !! a) -> s1 = s)
  /\ (openDocuments s !! a = None ->
      exists actions content uri lang,
        Forall isEvent actions /\ _pathToUri host a = inr uri
        /\ s1 = opened a uri lang content (run host actions s)).
Proof.
  intros Hs Hi Hret Hs1.
  destruct (getAbsolutePath host rel) as [e|a'] eqn:Ha.
  { rewrite (ensureDocumentOpen_refused key rel w s e Hs Hi Ha) in Hret.
    discriminate. }
  pose proof (ensureDocumentOpen_initialized key rel w s a' Hs Hi Ha) as Hfirst.
  destruct (openDocuments s !! a') as [v|] eqn:Hv.
  - rewrite bool_decide_eq_true_2 in Hfirst by (eexists; reflexivity).
    rewrite Hfirst in Hret, Hs1. cbn [fst snd] in Hret, Hs1.
    injection Hret as ->. split; [reflexivity|]. rewrite Hv.
    split; [|discriminate]. intros _. congruence.
  - rewrite bool_decide_eq_false_2 in Hfirst by (intros [x Hx]; discriminate).
    destruct (openBlock host key a' _ w) as [[[]|e|] w'] eqn:Hblock;
      rewrite Hfirst in Hret, Hs1; cbn [fst snd] in Hret, Hs1; try discriminate.
    injection Hret as ->. split; [reflexivity|]. rewrite Hv.
    split; [intros [x Hx]; discriminate|]. intros _.
    destruct (openBlock_returns key a _ w w' s Hs Hblock)
      as (actions & content & uri & HF & Huri & Hw').
    rewrite Hw' in Hs1. injection Hs1 as <-.
    eexists actions, content, uri, _. split; [exact HF|]. split; [exact Huri|].
    reflexivity.
Qed.

(** The same for a client in any state: the call may first wait for the
    handshake. *)
Lemma ensureDocumentOpen_returns (key rel : string) (w : World)
    (s s1 : LspProcess) (a : string) :
  map_get key (lspInstances w) = Some s ->
  fst (ensureDocumentOpen host key rel w) = Returned a ->
  map_get key (lspInstances (snd (ensureDocumentOpen host key rel w))) = Some s1 ->
  getAbsolutePath host rel = inr a
  /\ exists before,
       Forall isEvent before
       /\ isInitialized (run host before s) = true
       /\ (is_Some (openDocuments s !! a) -> s1 = run host before s)
       /\ (openDocuments s !! a = None ->
           exists actions content uri lang,
             Forall isEvent actions /\ _pathToUri host a = inr uri
             /\ s1 = opened a uri lang content
                       (run host actions (run host before s))).
Proof.
  intros Hs Hret Hs1. destruct (isInitialized s) eqn:Hi.
  - destruct (ensureDocumentOpen_first key rel w s s1 a Hs Hi Hret Hs1)
      as (Ha & Hold & Hnew).
    split; [exact Ha|]. exists []. split; [constructor|].
    split; [exact Hi|]. split; assumption.
  - rewrite (ensureDocumentOpen_uninitialized key rel w s Hs Hi) in Hret, Hs1.
    destruct (awaitInitialization_runs key w s Hs) as (before & Hs0 & HF).
    destruct (awaitInitialization host key w) as [[[]|e|] w0];
      cbn [fst snd] in *; try discriminate.
    rewrite Hs0 in Hret, Hs1.
    destruct (isInitialized (run host before s)) eqn:Hi0;
      cbn [fst snd] in *; [|discriminate].
    destruct (ensureDocumentOpen_first key rel w0 _ s1 a Hs0 Hi0 Hret Hs1)
      as (Ha & Hold & Hnew).
    destruct (events_session before s HF) as (Ho & _).
    split; [exact Ha|]. exists before. split; [exact HF|].
    split; [exact Hi0|]. rewrite Ho in Hold, Hnew. split; assumption.
Qed.

(** *** A call is a play of the moves *)

Lemma events_of (actions : list Action) :
  Forall isEvent actions -> exists es, actions = map AEvent es.
Proof.
  induction 1 as [|a actions [e ->] _ (es & ->)].
  - exists []. reflexivity.
  - exists (e :: es). reflexivity.
Qed.

Lemma play_app (m1 m2 : list Overlap.Move) (x : Overlap.Session) :
  Overlap.play host (m1 ++ m2) x = Overlap.play host m2 (Overlap.play host m1 x).
Proof. unfold Overlap.play. apply fold_left_app. Qed.

Lemma play_events (es : list ProcessEvent) (x : Overlap.Session) :
  Overlap.play host (map Overlap.Event es) x
  = {| Overlap.client := run host (map AEvent es) (Overlap.client x);
       Overlap.disk := Overlap.disk x; Overlap.calls := Overlap.calls x |}.
Proof.
  revert x. induction es as [|e es IH]; intros x.
  - destruct x. reflexivity.
  - cbn [map]. change (Overlap.play host (Overlap.Event e :: map Overlap.Event es) x)
      with (Overlap.play host (map Overlap.Event es) (Overlap.move host (Overlap.Event e) x)).
    rewrite IH. reflexivity.
Qed.

Lemma goesOn_events (es : list ProcessEvent) : Forall Overlap.goesOn (map Overlap.Event es).
Proof. apply Forall_map, Forall_true. intros e. exact I. Qed.

(** How the wait for the handshake ends, and what the client is then. *)
Lemma awaitInitialization_result (key : string) (w : World) (s : LspProcess) :
  map_get key (lspInstances w) = Some s ->
  exists es,
    let s' := run host (map AEvent es) s in
    map_get key (lspInstances (snd (awaitInitialization host key w))) = Some s'
    /\ files (snd (awaitInitialization host key w)) = files w
    /\ match fst (awaitInitialization host key w) with
       | Returned _ => initializationPromise s' = Some InitFulfilled
                       \/ initializationPromise s' = None
       | Thrown e => initializationPromise s' = Some (InitRejected e)
       | Suspended => exists p, initializationPromise s' = Some (InitAwaiting p)
       end.
Proof.
  intros Hs. unfold awaitInitialization.
  assert (H : forall events insts s0,
    map_get key insts = Some s0 ->
    exists es,
      let s' := run host (map AEvent es) s0 in
      map_get key (fst (snd (awaitInitialization_loop host key events insts)))
      = Some s'
      /\ match fst (awaitInitialization_loop host key events insts) with
         | Returned _ => initializationPromise s' = Some InitFulfilled
                         \/ initializationPromise s' = None
         | Thrown e => initializationPromise s' = Some (InitRejected e)
         | Suspended => exists p, initializationPromise s' = Some (InitAwaiting p)
         end).
  { induction events as [|e events IH]; intros insts s0 Hs0;
      cbn [awaitInitialization_loop]; rewrite Hs0; cbn [mbind option_bind].
    - exists []. cbn [map run fold_left].
      destruct (initializationPromise s0) as [[p| |e0]|] eqn:Hip;
        cbn [fst snd]; (split; [exact Hs0|]); rewrite ?Hip; eauto.
    - destruct (initializationPromise s0) as [[p| |e0]|] eqn:Hip.
      2-4: exists []; cbn [map run fold_left fst snd];
           (split; [exact Hs0|]); rewrite ?Hip; eauto.
      destruct (deliver_on host key e insts s0 Hs0) as (a1 & Ha1 & HF1).
      destruct (events_of a1) as (es1 & ->).
      { eapply Forall_impl; [exact HF1|]. intros a Ha. exact Ha. }
      destruct (IH _ _ Ha1) as (es2 & H1 & H2).
      exists (es1 ++ es2). rewrite map_app, run_app. split; assumption. }
  destruct (H (future w) (lspInstances w) s Hs) as (es & H1 & H2).
  exists es.
  destruct (awaitInitialization_loop host key (future w) (lspInstances w))
    as [r [insts events]]. cbn [fst snd lspInstances files set_future set_instances] in *.
  split; [exact H1|]. split; [reflexivity|exact H2].
Qed.

(** The block that opens the document, however it ends. *)
Lemma openBlock_result (key a lang : string) (w : World) (s : LspProcess) :
  map_get key (lspInstances w) = Some s ->
  exists es failed,
    let sb := run host (map AEvent es) s in
    let after := Overlap.afterReadFile host a lang
                   (Overlap.read host (files w) a failed) sb in
    map_get key (lspInstances (snd (openBlock host key a lang w)))
    = Some (snd after)
    /\ match fst (openBlock host key a lang w) with
       | Returned _ => fst after = Overlap.Ends (inr a)
       | Thrown e => fst after = Overlap.Ends (inl e)
       | Suspended => False
       end.
Proof.
  intros Hs. unfold openBlock, readFile, awaitCompletion.
  unfold mbind, task_bind.
  destruct (awaitCompletion_loop_runs key (future w) (lspInstances w) s Hs)
    as (actions & Hb & HF).
  destruct (events_of actions HF) as (es & ->).
  destruct (awaitCompletion_loop host (future w) (lspInstances w))
    as [failed [insts rest]]. cbn [fst snd] in Hb.
  exists es, failed. cbv zeta. unfold Overlap.read, Overlap.afterReadFile.
  cbn [files set_future set_instances].
  destruct (files w !! fileAt host a) as [content|];
    [|cbn [fst snd lspInstances set_future set_instances]; split; [exact Hb|reflexivity]].
  destruct failed;
    [cbn [fst snd lspInstances set_future set_instances]; split; [exact Hb|reflexivity]|].
  destruct (_pathToUri host a) as [e|uri]; cbn [liftE];
    [cbn [fst snd lspInstances set_future set_instances]; split; [exact Hb|reflexivity]|].
  set (wb := set_future rest (set_instances insts w)).
  assert (Hwb : map_get key (lspInstances wb)
                = Some (run host (map AEvent es) s)) by exact Hb.
  unfold mret, task_ret. cbv beta iota.
  rewrite (update_eq _ _ _ _ Hwb).
  set (w1 := set_instances _ wb).
  assert (H1 : map_get key (lspInstances w1)
               = Some (sendNotification "textDocument/didOpen"
                         (PDidOpen uri lang 1 (Js.toString content))
                         (run host (map AEvent es) s))).
  { subst w1. simpl. apply map_get_set_eq. }
  rewrite (update_eq _ _ _ _ H1).
  cbn [fst snd lspInstances set_instances]. rewrite map_get_set_eq.
  split; reflexivity.
Qed.

(** A call on a client that is initialized, from the test of the path on. *)
Lemma look_is_a_play (key rel : string) (w : World) (s : LspProcess) :
  map_get key (lspInstances w) = Some s ->
  isInitialized s = true ->
  exists moves,
    let x := Overlap.play host moves
               {| Overlap.client := s; Overlap.disk := files w;
                  Overlap.calls := [Overlap.look host rel s] |} in
    Forall Overlap.goesOn moves
    /\ map_get key (lspInstances (snd (ensureDocumentOpen host key rel w)))
       = Some (Overlap.client x)
    /\ match fst (ensureDocumentOpen host key rel w) with
       | Returned a => Overlap.calls x = [Overlap.Ends (inr a)]
       | Thrown e => Overlap.calls x = [Overlap.Ends (inl e)]
       | Suspended => exists where_, Overlap.calls x = [Overlap.Waits where_]
       end.
Proof.
  intros Hs Hi. unfold Overlap.look. rewrite Hi. cbn [negb].
  destruct (getAbsolutePath host rel) as [e|a] eqn:Ha.
  { rewrite (ensureDocumentOpen_refused key rel w s e Hs Hi Ha).
    exists []. split; [constructor|]. split; [exact Hs|reflexivity]. }
  rewrite (ensureDocumentOpen_initialized key rel w s a Hs Hi Ha).
  destruct (bool_decide (is_Some (openDocuments s !! a))); cbn [negb].
  { exists []. split; [constructor|]. split; [exact Hs|reflexivity]. }
  set (lang := languageIdFor (supportedLanguageIds (config s)) a).
  destruct (openBlock_result key a lang w s Hs) as (es & failed & Hclient & Hend).
  cbv zeta in Hclient, Hend.
  exists (map Overlap.Event es ++ [Overlap.Read 0 failed]). cbv zeta.
  rewrite play_app, play_events.
  split; [apply Forall_app; split; [apply goesOn_events|repeat constructor]|].
  cbn [Overlap.play fold_left Overlap.move Overlap.calls Overlap.client
       Overlap.disk lookup list_lookup].
  destruct (Overlap.afterReadFile host a lang (Overlap.read host (files w) a failed)
              (run host (map AEvent es) s)) as [progress s1].
  cbn [fst snd Overlap.client Overlap.calls] in *.
  destruct (openBlock host key a lang w) as [[[]|e|] w']; cbn [fst snd] in *.
  - split; [exact Hclient|]. rewrite Hend. reflexivity.
  - split; [exact Hclient|]. rewrite Hend. reflexivity.
  - destruct Hend.
Qed.

(** A call of [ensureDocumentOpen] that no other call overlaps with is a
    play of the moves of one call: what the method does when it runs alone
    is what its pieces do, with the events in between. *)
Lemma ensureDocumentOpen_is_a_play (key rel : string) (w : World) (s : LspProcess) :
  map_get key (lspInstances w) = Some s ->
  exists moves,
    let x := Overlap.play host (Overlap.Call rel :: moves)
               {| Overlap.client := s; Overlap.disk := files w;
                  Overlap.calls := [] |} in
    Forall Overlap.goesOn moves
    /\ map_get key (lspInstances (snd (ensureDocumentOpen host key rel w)))
       = Some (Overlap.client x)
    /\ match fst (ensureDocumentOpen host key rel w) with
       | Returned a => Overlap.calls x = [Overlap.Ends (inr a)]
       | Thrown e => Overlap.calls x = [Overlap.Ends (inl e)]
       | Suspended => exists where_, Overlap.calls x = [Overlap.Waits where_]
       end.
Proof.
  intros Hs.
  assert (Hcall : forall moves,
            Overlap.play host (Overlap.Call rel :: moves)
              {| Overlap.client := s; Overlap.disk := files w; Overlap.calls := [] |}
            = Overlap.play host moves
                {| Overlap.client := s; Overlap.disk := files w;
                   Overlap.calls := [Overlap.begin host rel s] |})
    by reflexivity.
  unfold Overlap.begin in Hcall.
  destruct (isInitialized s) eqn:Hi; cbn [negb].
  { destruct (look_is_a_play key rel w s Hs Hi) as (moves & H). exists moves.
    cbv zeta. rewrite Hcall. exact H. }
  rewrite (ensureDocumentOpen_uninitialized key rel w s Hs Hi).
  destruct (awaitInitialization_result key w s Hs) as (es & Hs0 & Hfiles & Hres).
  cbv zeta in Hs0, Hres.
  set (s0 := run host (map AEvent es) s) in *.
  destruct (awaitInitialization host key w) as [[[]|e|] w0];
    cbn [fst snd] in Hs0, Hfiles, Hres |- *.
  - rewrite Hs0.
    assert (Hafter : Overlap.afterInitialization host rel s0
                     = Overlap.look host rel s0).
    { unfold Overlap.afterInitialization. destruct Hres as [-> | ->]; reflexivity. }
    destruct (isInitialized s0) eqn:Hi0.
    + destruct (look_is_a_play key rel w0 s0 Hs0 Hi0) as (moves & HF & H1 & H2).
      cbv zeta in H1, H2. rewrite Hfiles in H1, H2.
      exists (map Overlap.Event es ++ [Overlap.Initialized 0] ++ moves).
      cbv zeta. rewrite Hcall. cbn [negb].
      rewrite play_app, play_events, play_app.
      cbn [Overlap.play fold_left Overlap.move Overlap.calls Overlap.client
           Overlap.disk lookup list_lookup list_insert insert].
      fold s0. rewrite Hafter.
      split; [apply Forall_app; split; [apply goesOn_events|];
              constructor; [exact I|exact HF]|].
      split; [exact H1|exact H2].
    + exists (map Overlap.Event es ++ [Overlap.Initialized 0]).
      cbv zeta. rewrite Hcall. cbn [negb].
      rewrite play_app, play_events.
      cbn [Overlap.play fold_left Overlap.move Overlap.calls Overlap.client
           Overlap.disk lookup list_lookup list_insert insert].
      fold s0. rewrite Hafter. unfold Overlap.look. rewrite Hi0. cbn [negb fst snd].
      split; [apply Forall_app; split; [apply goesOn_events|repeat constructor]|].
      split; [exact Hs0|reflexivity].
  - exists (map Overlap.Event es ++ [Overlap.Initialized 0]).
    cbv zeta. rewrite Hcall. cbn [negb].
    rewrite play_app, play_events.
    cbn [Overlap.play fold_left Overlap.move Overlap.calls Overlap.client
         Overlap.disk lookup list_lookup list_insert insert].
    fold s0. unfold Overlap.afterInitialization. rewrite Hres.
    split; [apply Forall_app; split; [apply goesOn_events|repeat constructor]|].
    split; [exact Hs0|reflexivity].
  - exists (map Overlap.Event es).
    cbv zeta. rewrite Hcall. cbn [negb].
    rewrite play_events. cbn [Overlap.client Overlap.calls].
    split; [apply goesOn_events|]. split; [exact Hs0|]. eexists. reflexivity.
Qed.

(** C8, as the code has it.  [ensureDocumentOpen] is called for a path and
    returns, and is called again for the same path.  The second call
    changes nothing: no notification is written, no version is changed, no
    event is taken; it returns the same path if the client is still
    initialized, and throws if the server has gone in the meantime.  If the
    first call found the document open, it has written no "open"
    notification either.  If it did not, the document now has version 1,
    and the two calls together have written exactly one "open"
    notification for it if the client was ready (its process running, its
    handshake done) when the first call returned, and none if it was not:
    the notification of a client that is not ready is dropped. *)
Theorem ensureDocumentOpen_idempotent
    (key rel : string) (w : World) (s s1 : LspProcess) (a : string) :
  map_get key (lspInstances w) = Some s ->
  let first := ensureDocumentOpen host key rel w in
  fst first = Returned a ->
  map_get key (lspInstances (snd first)) = Some s1 ->
  (isInitialized s1 = true ->
   ensureDocumentOpen host key rel (snd first) = (Returned a, snd first))
  /\ (isInitialized s1 = false ->
      initializationPromise s1 = Some InitFulfilled ->
      ensureDocumentOpen host key rel (snd first)
      = (Thrown (CouldNotBeInitialized (command (config s1))), snd first))
  /\ (is_Some (openDocuments s !! a) ->
      openDocuments s1 !! a = openDocuments s !! a
      /\ forall uri, opensSent uri (stdin s1) = opensSent uri (stdin s))
  /\ (openDocuments s !! a = None ->
      openDocuments s1 !! a = Some 1
      /\ forall uri, _pathToUri host a = inr uri ->
           (ready s1 -> opensSent uri (stdin s1) = S (opensSent uri (stdin s)))
           /\ (notReady s1 -> opensSent uri (stdin s1) = opensSent uri (stdin s))).
Proof.
  intros Hs first Hret Hs1.
  destruct (ensureDocumentOpen_returns key rel w s s1 a Hs Hret Hs1)
    as (Ha & before & HFb & Hib & Hold & Hnew).
  destruct (events_session before s HFb) as (Hob & (extra & Hstd & Hsil) & _).
  assert (Hopen1 : is_Some (openDocuments s1 !! a)).
  { destruct (openDocuments s !! a) as [v|] eqn:Hv.
    - rewrite (Hold (ex_intro _ v eq_refl)), Hob, Hv. eexists. reflexivity.
    - destruct (Hnew eq_refl) as (actions & content & uri & lang & _ & _ & ->).
      destruct (opened_outcome a uri lang content
                  (run host actions (run host before s))) as (-> & _).
      eexists. reflexivity. }
  split; [|split; [|split]].
  - intros Hi1.
    rewrite (ensureDocumentOpen_initialized key rel (snd first) s1 a Hs1 Hi1 Ha).
    rewrite bool_decide_eq_true_2 by exact Hopen1. reflexivity.
  - intros Hi1 Hip1.
    rewrite (ensureDocumentOpen_uninitialized key rel (snd first) s1 Hs1 Hi1).
    rewrite (awaitInitialization_fulfilled key (snd first) s1 Hs1 Hip1).
    rewrite Hs1, Hi1. reflexivity.
  - intros Hsome. rewrite (Hold Hsome). split; [rewrite Hob; reflexivity|].
    intros uri. rewrite Hstd, opensSent_app. destruct (Hsil uri) as [_ ->]. lia.
  - intros Hnone.
    destruct (Hnew Hnone) as (actions & content & uri & lang & HF & Huri & ->).
    set (sb := run host actions (run host before s)).
    destruct (opened_outcome a uri lang content sb)
      as (Hv & _ & _ & _ & Hsent & Hdropped).
    split; [exact Hv|]. intros uri' Huri'.
    assert (uri' = uri) by congruence. subst uri'.
    destruct (events_session actions (run host before s) HF)
      as (_ & (extra' & Hstd' & Hsil') & _).
    assert (Hsb : opensSent uri (stdin sb) = opensSent uri (stdin s)).
    { unfold sb. rewrite Hstd', Hstd, !opensSent_app.
      destruct (Hsil uri) as [_ ->]. destruct (Hsil' uri) as [_ ->]. lia. }
    split.
    + intros Hr. rewrite (Hsent Hr), opensSent_app, opensSent_open, Hsb. lia.
    + intros Hn. rewrite (Hdropped Hn). exact Hsb.
Qed.

End Documents.

(** A file is opened twice on a ready client. *)
Lemma ensureDocumentOpen_idempotent_witness :
  let w := Demo.readyWorld Demo.formatOnceFiles [] in
  let first := Service.ensureDocumentOpen Demo.demoHost "typescript" "src/a.ts" w in
  let s1 := Trace.opened "/project/src/a.ts" "file:///project/src/a.ts"
              "javascript" (Js.codes "let x = 1") Demo.readyClient in
  Service.ensureDocumentOpen Demo.demoHost "typescript" "src/a.ts" (snd first)
  = (Service.Returned "/project/src/a.ts", snd first)
  /\ Lsp.openDocuments s1 !! "/project/src/a.ts" = Some 1
  /\ Trace.opensSent "file:///project/src/a.ts" (Lsp.stdin s1) = 1%nat.
Proof.
  cbv zeta.
  pose proof (ensureDocumentOpen_idempotent Demo.demoHost "typescript" "src/a.ts"
                (Demo.readyWorld Demo.formatOnceFiles [])
                Demo.readyClient
                (Trace.opened "/project/src/a.ts" "file:///project/src/a.ts"
                   "javascript" (Js.codes "let x = 1") Demo.readyClient)
                "/project/src/a.ts") as H.
  cbv zeta in H.
  destruct H as (Hsecond & _ & _ & Hnew).
  - vm_compute. reflexivity.
  - vm_compute. reflexivity.
  - vm_compute. reflexivity.
  - destruct Hnew as [Hv Hn]; [vm_compute; reflexivity|].
    split; [apply Hsecond; vm_compute; reflexivity|]. split; [exact Hv|].
    destruct (Hn "file:///project/src/a.ts") as [Hsent _];
      [vm_compute; reflexivity|].
    rewrite Hsent; [vm_compute; reflexivity|].
    split; vm_compute; reflexivity.
Defined.

(** C8 fails as stated.  When the server exits while the file of the
    first call is read, the first call returns and stores version 1, but
    its "open" notification is dropped, and the second call throws: the
    two calls have sent no "open" notification.  When the second call
    starts while the first one waits for the file, each of them finds the
    document not open and each sends an "open" notification: two for one
    path. *)
Lemma ensureDocumentOpen_sends_none_or_two :
  (let first := Service.ensureDocumentOpen Demo.demoHost "typescript" "src/a.ts"
                  Demo.exitWhileReading in
   let second := Service.ensureDocumentOpen Demo.demoHost "typescript" "src/a.ts"
                   (snd first) in
   fst first = Service.Returned "/project/src/a.ts"
   /\ fst second
      = Service.Thrown (CouldNotBeInitialized "typescript-language-server")
   /\ (Service.map_get "typescript" (Service.lspInstances (snd second))
       ≫= fun s => Some (Trace.opensSent "file:///project/src/a.ts" (Lsp.stdin s),
                         Lsp.openDocuments s !! "/project/src/a.ts"))
      = Some (0%nat, Some 1))
  /\ (Overlap.calls Demo.twoCallsOverlap
      = [Overlap.Ends (inr "/project/src/a.ts");
         Overlap.Ends (inr "/project/src/a.ts")]
      /\ Trace.opensSent "file:///project/src/a.ts"
           (Lsp.stdin (Overlap.client Demo.twoCallsOverlap)) = 2%nat
      /\ Lsp.openDocuments (Overlap.client Demo.twoCallsOverlap)
         !! "/project/src/a.ts" = Some 1).
Proof. vm_compute. repeat split. Qed.

(** ** The versions of a document *)

Section VersionsKept.
Import Lsp Service Trace Versions.
Context (host : Host).
Context (used : string -> Prop).
Hypothesis Hinj : distinctUris host used.

Lemma versioned_silent (s s' : LspProcess) (extra : list Frame) :
  stdin s' = stdin s ++ extra ->
  silent extra ->
  openDocuments s' = openDocuments s ->
  (dead s -> dead s') ->
  versioned host used s -> versioned host used s'.
Proof.
  intros Hstd Hsil Hopen Hdead [V1 V2].
  assert (Hv : forall uri, versionsSent uri (stdin s') = versionsSent uri (stdin s)).
  { intros uri. rewrite Hstd, versionsSent_app.
    destruct (Hsil uri) as [-> _]. apply app_nil_r. }
  split.
  - intros a v Ha. rewrite Hopen in Ha.
    destruct (V1 a v Ha) as (Hrel & uri & n & Huri & Hsent & Hv1 & Hn).
    split; [exact Hrel|]. exists uri, n. rewrite Hv.
    repeat split; try assumption.
    destruct Hn as [Hn | [Hn Hd]]; [left; exact Hn | right; auto].
  - intros uri Hne. rewrite Hv in Hne. rewrite Hopen. exact (V2 uri Hne).
Qed.

Lemma silent_plain (id : option N) (method : string) (params : Params) :
  plain params ->
  silent [ {| frame_id := id; frame_method := method; frame_params := params |} ].
Proof.
  intros Hp uri. unfold versionsSent, opensSent, versionOf, isOpenOf.
  destruct params; try destruct Hp; split; reflexivity.
Qed.

Lemma dead_ready (s : LspProcess) : dead s -> ready s -> False.
Proof.
  intros [Hp | [Hi _]] [Hp' Hi']; congruence.
Qed.

(** A document notification is written if the client is ready, and is
    dropped only by a client that is dead. *)
Lemma sendNotification_cases (method : string) (params : Params) (s : LspProcess) :
  method <> "initialized" ->
  isInitialized s = true \/ dead s ->
  (ready s
   /\ sendNotification method params s
      = set_stdin (stdin s ++ [ {| frame_id := None; frame_method := method;
                                   frame_params := params |} ]) s)
  \/ (dead s /\ sendNotification method params s = s).
Proof.
  intros Hm Hs. apply String.eqb_neq in Hm. unfold sendNotification. rewrite Hm.
  destruct (process s) as [[]|] eqn:Hp.
  - destruct (isInitialized s) eqn:Hi.
    + left. split; [split; assumption|]. reflexivity.
    + destruct Hs as [Hs | Hd]; [discriminate|].
      right. split; [exact Hd|reflexivity].
  - right. split; [left; exact Hp|]. reflexivity.
Qed.

Lemma countUp_S (n : nat) : countUp (S n) = countUp n ++ [N.of_nat (S n)].
Proof. unfold countUp. rewrite seq_S, map_app. reflexivity. Qed.

Lemma versionsSent_document (uri uri' : string) (id : option N)
    (method : string) (params : Params) (v : N) :
  (exists lang text, params = PDidOpen uri lang v text)
  \/ (exists text, params = PDidChange uri v text) ->
  versionsSent uri' [ {| frame_id := id; frame_method := method;
                         frame_params := params |} ]
  = if String.eqb uri uri' then [v] else [].
Proof.
  intros [(lang & text & ->) | (text & ->)]; unfold versionsSent, versionOf;
    simpl; destruct (String.eqb uri uri'); reflexivity.
Qed.

(** A document notification for a path, with the next version, stored
    and sent (or dropped by a dead client). *)
Lemma versioned_document (s s' : LspProcess) (a uri : string) (v : N)
    (params : Params) (method : string) :
  versioned host used s ->
  (exists rel, used rel /\ getAbsolutePath host rel = inr a) ->
  _pathToUri host a = inr uri ->
  (exists lang text, params = PDidOpen uri lang v text)
  \/ (exists text, params = PDidChange uri v text) ->
  (* the version before: none sent and not open, or the one before [v] *)
  (openDocuments s !! a = None /\ v = 1
   \/ exists v0, openDocuments s !! a = Some v0 /\ v = v0 + 1) ->
  openDocuments s' = <[a := v]> (openDocuments s) ->
  (ready s /\ stdin s' = stdin s ++ [ {| frame_id := None; frame_method := method;
                                         frame_params := params |} ]
   \/ dead s /\ stdin s' = stdin s) ->
  (dead s -> dead s') ->
  versioned host used s'.
Proof.
  intros [V1 V2] Hrel Huri Hparams Hbefore Hopen Hsent Hdead.
  (* the versions sent for the document so far *)
  assert (Hold : exists n, versionsSent uri (stdin s) = countUp n
                           /\ 1 <= v
                           /\ (N.of_nat (S n) = v \/ (N.of_nat n <= v /\ dead s))).
  { destruct Hbefore as [[Hnone ->] | (v0 & Hv0 & ->)].
    - exists 0%nat. split; [|split; [lia|left; reflexivity]].
      destruct (versionsSent uri (stdin s)) eqn:Hs; [reflexivity|].
      destruct (V2 uri) as (a' & v' & Ha' & Huri'); [congruence|].
      destruct (V1 a' v' Ha') as ((rel' & Hu' & Hrel') & _).
      destruct Hrel as (rel & Hu & Hrel).
      assert (a' = a) by (eapply (Hinj rel' rel); eassumption). subst a'.
      congruence.
    - destruct (V1 a v0 Hv0) as (_ & uri' & n & Huri' & Hn & Hv1 & Hcase).
      assert (uri' = uri) by congruence. subst uri'.
      exists n. split; [exact Hn|]. split; [lia|].
      destruct Hcase as [Hc | [Hc Hd]]; [left; lia | right; split; [lia|exact Hd]]. }
  destruct Hold as (n & Hn & Hv1 & Hcase).
  assert (Hother : forall uri', uri' <> uri ->
            versionsSent uri' (stdin s') = versionsSent uri' (stdin s)).
  { intros uri' Hne. destruct Hsent as [[_ ->] | [_ ->]]; [|reflexivity].
    rewrite versionsSent_app, (versionsSent_document uri uri' _ _ _ v Hparams).
    destruct (String.eqb_spec uri uri'); [congruence|apply app_nil_r]. }
  split.
  - intros a' v' Ha'. rewrite Hopen in Ha'.
    destruct (decide (a = a')) as [<-|Hne].
    + rewrite lookup_insert_eq in Ha'. injection Ha' as <-.
      split; [exact Hrel|]. exists uri.
      destruct Hsent as [[Hready ->] | [Hd ->]].
      * exists (S n). split; [exact Huri|].
        rewrite versionsSent_app, (versionsSent_document uri uri _ _ _ v Hparams).
        rewrite String.eqb_refl, Hn, countUp_S.
        destruct Hcase as [Hc | [_ Hd]]; [|destruct (dead_ready s Hd Hready)].
        split; [rewrite Hc; reflexivity|]. split; [exact Hv1|]. left. exact Hc.
      * exists n. split; [exact Huri|]. split; [exact Hn|].
        split; [exact Hv1|]. right. split; [|apply Hdead; exact Hd].
        destruct Hcase as [Hc | [Hc _]]; lia.
    + rewrite lookup_insert_ne in Ha' by exact Hne.
      destruct (V1 a' v' Ha') as ((rel' & Hu' & Hrel') & uri' & n' & Huri' & Hn' & Hv' & Hc').
      split; [exists rel'; split; assumption|]. exists uri', n'.
      split; [exact Huri'|]. split.
      * rewrite Hother; [exact Hn'|]. intros ->.
        destruct Hrel as (rel & Hu & Hrel). apply Hne.
        eapply (Hinj rel rel'); eassumption.
      * split; [exact Hv'|].
        destruct Hc' as [Hc' | [Hc' Hd]]; [left; exact Hc' | right; auto].
  - intros uri' Hne. rewrite Hopen.
    destruct (String.eqb_spec uri' uri) as [->|Hneq].
    + exists a, v. split; [apply lookup_insert_eq|exact Huri].
    + rewrite Hother in Hne by exact Hneq.
      destruct (V2 uri' Hne) as (a' & v' & Ha' & Huri').
      exists a', v'. split; [|exact Huri'].
      rewrite lookup_insert_ne; [exact Ha'|]. intros ->. congruence.
Qed.

Lemma dead_same (s s' : LspProcess) :
  process s' = process s -> isInitialized s' = isInitialized s ->
  initializationPromise s' = initializationPromise s ->
  dead s -> dead s'.
Proof. unfold dead. intros -> -> ->. exact (fun H => H). Qed.

Lemma sendNotification_flags method params (s : LspProcess) :
  process (sendNotification method params s) = process s
  /\ isInitialized (sendNotification method params s) = isInitialized s
  /\ initializationPromise (sendNotification method params s)
     = initializationPromise s
  /\ openDocuments (sendNotification method params s) = openDocuments s.
Proof. unfold sendNotification. destruct (_ || _); repeat split. Qed.

Lemma sendRequest_session method params timeoutMs (s : LspProcess) :
  let s' := snd (sendRequest method params timeoutMs s) in
  process s' = process s /\ isInitialized s' = isInitialized s
  /\ initializationPromise s' = initializationPromise s
  /\ openDocuments s' = openDocuments s
  /\ (stdin s' = stdin s
      \/ exists id, stdin s' = stdin s ++ [ {| frame_id := id;
                                               frame_method := method;
                                               frame_params := params |} ]).
Proof.
  unfold sendRequest. destruct (_ || _); simpl; repeat split; auto.
  right. eexists. reflexivity.
Qed.

(** The invariant is kept by every step. *)
Lemma versioned_step (s s' : LspProcess) :
  sessionStep host used s s' -> versioned host used s -> versioned host used s'.
Proof.
  intros Hstep Hv. destruct Hstep.
  - (* an event *)
    destruct (dispatch_session host e s) as (Ho & Hs & Hd & _).
    destruct Hs as [Hs | Hs].
    + eapply (versioned_silent s _ []); try eassumption;
        [rewrite app_nil_r; exact Hs | apply silent_nil].
    + eapply (versioned_silent s _ [initializedFrame]); try eassumption.
      intros uri. split; reflexivity.
  - (* a request *)
    destruct (sendRequest_session method params timeoutMs s)
      as (Hp & Hi & Hip & Ho & Hs).
    destruct Hs as [Hs | [id Hs]].
    + eapply (versioned_silent s _ []); try eassumption;
        [rewrite app_nil_r; exact Hs | apply silent_nil | apply dead_same; assumption].
    + eapply (versioned_silent s _ _ Hs); try eassumption;
        [apply silent_plain; assumption | apply dead_same; assumption].
  - (* the exit notification *)
    destruct (sendNotification_flags "exit" PNull s) as (Hp & Hi & Hip & Ho).
    unfold sendNotification in *. destruct (_ || _).
    + exact Hv.
    + eapply (versioned_silent s _ [_]); try eassumption;
        [reflexivity | apply silent_plain; exact I | apply dead_same; assumption].
  - eapply (versioned_silent s _ []); try eassumption;
      [simpl; rewrite app_nil_r; reflexivity | apply silent_nil | reflexivity
      | apply dead_same; reflexivity].
  - eapply (versioned_silent s _ []); try eassumption;
      [simpl; rewrite app_nil_r; reflexivity | apply silent_nil | reflexivity|].
    intros [Hd | [Hd Hn]]; [left; exact Hd | right; split; [reflexivity|exact Hn]].
  - eapply (versioned_silent s _ []); try eassumption;
      [simpl; rewrite app_nil_r; reflexivity | apply silent_nil | reflexivity|].
    intros _. left. reflexivity.
  - (* a document is opened *)
    destruct (sendNotification_flags "textDocument/didOpen"
                (PDidOpen uri lang 1 content) s) as (Hp & Hi & Hip & Ho).
    eapply (versioned_document s _ a uri 1 (PDidOpen uri lang 1 content));
      try eassumption.
    + exists rel. split; assumption.
    + left. do 2 eexists. reflexivity.
    + left. split; [assumption|reflexivity].
    + unfold opened. simpl. rewrite Ho. reflexivity.
    + unfold opened. simpl.
      destruct (sendNotification_cases "textDocument/didOpen"
                  (PDidOpen uri lang 1 content) s) as [[Hr ->] | [Hd ->]];
        [discriminate | assumption | left; split; [exact Hr|reflexivity]
        | right; split; [exact Hd|reflexivity]].
    + unfold opened. simpl. apply dead_same; assumption.
  - (* a document is changed *)
    destruct H as [v0 Hv0].
    destruct Hv as [V1 V2]. destruct (V1 a v0 Hv0) as (Hrel & _ & _ & _ & _ & Hv1 & _).
    assert (Hcur : (if v0 =? 0 then 1 else v0) = v0).
    { destruct (N.eqb_spec v0 0); [lia|reflexivity]. }
    unfold changed. rewrite Hv0, Hcur.
    set (s1 := set_openDocuments (<[a:=v0 + 1]> (openDocuments s)) s).
    destruct (sendNotification_flags "textDocument/didChange"
                (PDidChange uri (v0 + 1) text) s1) as (Hp & Hi & Hip & Ho).
    eapply (versioned_document s _ a uri (v0 + 1) (PDidChange uri (v0 + 1) text));
      try eassumption.
    + split; assumption.
    + right. eexists. reflexivity.
    + right. exists v0. split; [exact Hv0|reflexivity].
    + destruct (sendNotification_cases "textDocument/didChange"
                  (PDidChange uri (v0 + 1) text) s1) as [[Hr ->] | [Hd ->]];
        [discriminate | exact H1 | left; split; [exact Hr|reflexivity]
        | right; split; [exact Hd|reflexivity]].
    + apply dead_same; assumption.
Qed.


(** *** The methods advance the clients by steps *)

Lemma turned_refl insts : turned host insts insts.
Proof.
  intros key. destruct (map_get key insts) as [s|] eqn:H; [|reflexivity].
  exists []. split; [constructor|reflexivity].
Qed.

Lemma turned_trans i1 i2 i3 :
  turned host i1 i2 -> turned host i2 i3 -> turned host i1 i3.
Proof.
  intros H12 H23 key. specialize (H12 key). specialize (H23 key).
  destruct (map_get key i1) as [s|].
  - destruct H12 as (a1 & HF1 & H2). rewrite H2 in H23.
    destruct H23 as (a2 & HF2 & H3).
    exists (a1 ++ a2). rewrite run_app. split; [|exact H3].
    apply Forall_app. split; assumption.
  - rewrite H12 in H23. exact H23.
Qed.

Lemma deliver_turned (e : Event) insts : turned host insts (deliver host e insts).
Proof.
  intros key. destruct e as [key' pe|failed]; simpl; [|apply turned_refl].
  destruct (map_get key' insts) as [s'|] eqn:Hs'; [|apply turned_refl].
  destruct (String.eqb_spec key' key) as [->|Hne].
  - rewrite Hs', map_get_set_eq. exists [AEvent pe].
    split; [|reflexivity]. constructor; [eexists; reflexivity|constructor].
  - rewrite map_get_set_ne by exact Hne. apply turned_refl.
Qed.

Lemma awaitPromise_turned key p events insts :
  turned host insts (fst (snd (awaitPromise_loop host key p events insts))).
Proof.
  revert insts. induction events as [|e events IH]; intros insts; simpl.
  - destruct (map_get key insts ≫= _) as [[]|]; apply turned_refl.
  - destruct (map_get key insts ≫= _) as [[]|]; try apply turned_refl.
    all: eapply turned_trans; [apply (deliver_turned e)|apply IH].
Qed.

Lemma awaitInitialization_turned key events insts :
  turned host insts (fst (snd (awaitInitialization_loop host key events insts))).
Proof.
  revert insts. induction events as [|e events IH]; intros insts; simpl.
  - destruct (map_get key insts ≫= _) as [[]|]; apply turned_refl.
  - destruct (map_get key insts ≫= _) as [[]|]; try apply turned_refl.
    eapply turned_trans; [apply (deliver_turned e)|apply IH].
Qed.

Lemma awaitCompletion_turned events insts :
  turned host insts (fst (snd (awaitCompletion_loop host events insts))).
Proof.
  revert insts. induction events as [|e events IH]; intros insts; simpl.
  - apply turned_refl.
  - destruct e as [key pe|failed]; [|apply turned_refl].
    eapply turned_trans; [apply (deliver_turned (ClientEvent key pe))|apply IH].
Qed.

Lemma events_steps (actions : list Action) (s : LspProcess) :
  Forall isEvent actions -> rtc (sessionStep host used) s (run host actions s).
Proof.
  intros HF. revert s. induction HF as [|a actions [e ->] _ IH]; intros s; simpl.
  - apply rtc_refl.
  - eapply rtc_l; [apply step_event|apply IH].
Qed.

Lemma advances_refl insts : advances host used insts insts.
Proof.
  intros key. destruct (map_get key insts) as [s|] eqn:H; [|reflexivity].
  exists s. split; [reflexivity|apply rtc_refl].
Qed.

Lemma advances_trans i1 i2 i3 :
  advances host used i1 i2 -> advances host used i2 i3 -> advances host used i1 i3.
Proof.
  intros H12 H23 key. specialize (H12 key). specialize (H23 key).
  destruct (map_get key i1) as [s|].
  - destruct H12 as (s2 & H2 & Hs2). rewrite H2 in H23.
    destruct H23 as (s3 & H3 & Hs3).
    exists s3. split; [exact H3|]. eapply rtc_trans; eassumption.
  - rewrite H12 in H23. exact H23.
Qed.

Lemma turned_advances i1 i2 : turned host i1 i2 -> advances host used i1 i2.
Proof.
  intros H key. specialize (H key). destruct (map_get key i1) as [s|]; [|exact H].
  destruct H as (actions & HF & H2). eexists. split; [exact H2|].
  apply events_steps. exact HF.
Qed.

Lemma advances_set key (s s' : LspProcess) insts :
  map_get key insts = Some s -> rtc (sessionStep host used) s s' ->
  advances host used insts (map_set key s' insts).
Proof.
  intros Hs Hstep key'. destruct (String.eqb_spec key key') as [<-|Hne].
  - rewrite Hs, map_get_set_eq. exists s'. split; [reflexivity|exact Hstep].
  - rewrite map_get_set_ne by exact Hne. apply advances_refl.
Qed.

(** *** Rules *)

Lemma spec_conseq {A} (P P' : _ -> Prop) (Q Q' : A -> _ -> Prop) (m : Task A) :
  spec host used P m Q -> (forall i, P' i -> P i) -> (forall a i, Q a i -> Q' a i) ->
  spec host used P' m Q'.
Proof.
  intros H HP HQ w Hw. destruct (H w (HP _ Hw)) as [Ha Hq].
  split; [exact Ha|]. intros a Hr. apply HQ, Hq, Hr.
Qed.

Lemma spec_mret {A} (P : _ -> Prop) (a : A) :
  spec host used P (mret a) (fun a' i => a' = a /\ P i).
Proof.
  intros w Hw. split; [apply advances_refl|].
  intros a' Hr. injection Hr as <-. split; [reflexivity|exact Hw].
Qed.

Lemma spec_throw {A} (P : _ -> Prop) (Q : A -> _ -> Prop) (e : Error) :
  spec host used P (throw e) Q.
Proof. intros w Hw. split; [apply advances_refl|]. intros a Hr. discriminate. Qed.

Lemma spec_liftE {A} (P : _ -> Prop) (r : Error + A) :
  spec host used P (liftE r) (fun a i => r = inr a /\ P i).
Proof.
  destruct r as [e|a]; simpl.
  - apply spec_throw.
  - eapply spec_conseq; [apply (spec_mret P a)|auto|].
    intros a' i [-> Hi]. auto.
Qed.

Lemma spec_bind {A B} (P : _ -> Prop) (Q : A -> _ -> Prop) (R : B -> _ -> Prop)
    (m : Task A) (f : A -> Task B) :
  spec host used P m Q -> (forall a, spec host used (Q a) (f a) R) ->
  spec host used P (m ≫= f) R.
Proof.
  intros Hm Hf w Hw. rewrite task_bind_unfold.
  destruct (Hm w Hw) as [Ha Hq]. destruct (m w) as [[a|e|] w']; simpl in *.
  - destruct (Hf a w' (Hq a eq_refl)) as [Ha' Hr].
    split; [eapply advances_trans; eassumption|exact Hr].
  - split; [exact Ha|]. intros b Hb. discriminate.
  - split; [exact Ha|]. intros b Hb. discriminate.
Qed.

Lemma spec_self (P : _ -> Prop) (key : string) :
  spec host used P (self key) (fun s i => P i /\ map_get key i = Some s).
Proof.
  intros w Hw. unfold self.
  destruct (map_get key (lspInstances w)) as [s|] eqn:Hs; simpl.
  - split; [apply advances_refl|]. intros a Hr. injection Hr as <-. auto.
  - split; [apply advances_refl|]. intros a Hr. discriminate.
Qed.

Lemma spec_select (P : _ -> Prop) (relativeFilePath : string) :
  spec host used P (selectOrThrow relativeFilePath) (fun _ i => P i).
Proof.
  intros w Hw. unfold selectOrThrow.
  destruct (_getLspInstanceForFile relativeFilePath w); simpl;
    (split; [apply advances_refl|]); intros a Hr; [exact Hw|discriminate].
Qed.

Lemma spec_awaitPromise (P : _ -> Prop) (key : string) (p : nat) :
  stable host P -> spec host used P (awaitPromise host key p) (fun _ i => P i).
Proof.
  intros HP w Hw. unfold awaitPromise.
  pose proof (awaitPromise_turned key p (future w) (lspInstances w)) as Ht.
  destruct (awaitPromise_loop host key p (future w) (lspInstances w))
    as [r [insts events]]. simpl in *.
  split; [apply turned_advances; exact Ht|]. intros _ _. eapply HP; eassumption.
Qed.

Lemma spec_awaitInitialization (P : _ -> Prop) (key : string) :
  stable host P -> spec host used P (awaitInitialization host key) (fun _ i => P i).
Proof.
  intros HP w Hw. unfold awaitInitialization.
  pose proof (awaitInitialization_turned key (future w) (lspInstances w)) as Ht.
  destruct (awaitInitialization_loop host key (future w) (lspInstances w))
    as [r [insts events]]. simpl in *.
  split; [apply turned_advances; exact Ht|]. intros _ _. eapply HP; eassumption.
Qed.

Lemma spec_awaitCompletion (P : _ -> Prop) :
  stable host P -> spec host used P (awaitCompletion host) (fun _ i => P i).
Proof.
  intros HP w Hw. unfold awaitCompletion.
  pose proof (awaitCompletion_turned (future w) (lspInstances w)) as Ht.
  destruct (awaitCompletion_loop host (future w) (lspInstances w))
    as [r [insts events]]. simpl in *.
  split; [apply turned_advances; exact Ht|]. intros _ _. eapply HP; eassumption.
Qed.

Lemma spec_readFile (P : _ -> Prop) (path : string) :
  stable host P -> spec host used P (readFile host path) (fun _ i => P i).
Proof.
  intros HP. unfold readFile.
  eapply spec_bind; [apply spec_awaitCompletion; exact HP|].
  intros failed w Hw. simpl.
  destruct (files w !! fileAt host path); [destruct failed|]; simpl;
    (split; [apply advances_refl|]); intros a Hr; try discriminate; exact Hw.
Qed.

Lemma spec_writeFile (P : _ -> Prop) (path : string) (content : list N) :
  stable host P -> spec host used P (writeFile host path content) (fun _ i => P i).
Proof.
  intros HP. unfold writeFile.
  eapply spec_bind; [apply spec_awaitCompletion; exact HP|].
  intros [|]; [apply spec_throw|].
  intros w Hw. simpl. split; [apply advances_refl|]. intros _ _. exact Hw.
Qed.

(** A synchronous method of the client [key] that is made of steps. *)
Lemma spec_call {A} (key : string) (f : LspProcess -> A * LspProcess)
    (phi : LspProcess -> Prop) (psi : A -> LspProcess -> Prop) :
  (forall s, phi s -> rtc (sessionStep host used) s (snd (f s)) /\ psi (fst (f s)) (snd (f s))) ->
  spec host used (holds key phi) (call key f) (fun a => holds key (psi a)).
Proof.
  intros Hf w (s & Hs & Hphi). unfold call. rewrite Hs.
  destruct (Hf s Hphi) as [Hstep Hpsi]. destruct (f s) as [a s']. simpl in *.
  split; [apply (advances_set key s s'); assumption|].
  intros a' Hr. injection Hr as <-. exists s'.
  split; [apply map_get_set_eq|exact Hpsi].
Qed.

Lemma spec_update (key : string) (f : LspProcess -> LspProcess)
    (phi psi : LspProcess -> Prop) :
  (forall s, phi s -> rtc (sessionStep host used) s (f s) /\ psi (f s)) ->
  spec host used (holds key phi) (update key f) (fun _ => holds key psi).
Proof. intros Hf. apply (spec_call key _ phi (fun _ => psi)). exact Hf. Qed.

(** Whatever the client [key] is (also if there is none). *)
Lemma spec_update_any (key : string) (f : LspProcess -> LspProcess) :
  (forall s, rtc (sessionStep host used) s (f s)) ->
  spec host used (fun _ => True) (update key f) (fun _ _ => True).
Proof.
  intros Hf w _. unfold update, call.
  destruct (map_get key (lspInstances w)) as [s|] eqn:Hs; simpl.
  - split; [apply (advances_set key s (f s)); [exact Hs|apply Hf]|]. auto.
  - split; [apply advances_refl|]. auto.
Qed.

Lemma stable_holds (key : string) (phi : LspProcess -> Prop) :
  (forall actions s, Forall isEvent actions -> phi s -> phi (run host actions s)) ->
  stable host (holds key phi).
Proof.
  intros Hphi insts insts' (s & Hs & Hp) Ht. specialize (Ht key).
  rewrite Hs in Ht. destruct Ht as (actions & HF & Hs').
  eexists. split; [exact Hs'|]. apply Hphi; assumption.
Qed.

Lemma stable_true : stable host (fun _ => True).
Proof. intros i i' _ _. exact I. Qed.


Lemma spec_ext {A} (P : _ -> Prop) (Q : A -> _ -> Prop) (m m' : Task A) :
  (forall w, m w = m' w) -> spec host used P m' Q -> spec host used P m Q.
Proof. intros Hext H w Hw. rewrite Hext. apply H, Hw. Qed.

Lemma update_update (key : string) (f g : LspProcess -> LspProcess) (w : World) :
  (update key f ≫= fun _ => update key g) w = update key (fun s => g (f s)) w.
Proof.
  rewrite task_bind_unfold. unfold update, call.
  destruct (map_get key (lspInstances w)) as [s|] eqn:Hs; [|reflexivity].
  cbn [lspInstances set_instances]. rewrite map_get_set_eq.
  unfold set_instances. cbn [lspInstances files future].
  rewrite map_set_set. reflexivity.
Qed.

Lemma docReady_stable (a : string) (actions : list Action) (s : LspProcess) :
  Forall isEvent actions -> docReady a s -> docReady a (run host actions s).
Proof.
  intros HF [Ho Hi]. destruct (events_session host actions s HF) as (Ho' & _ & _ & Hi').
  split; [rewrite Ho'; exact Ho|apply Hi'; exact Hi].
Qed.

Lemma spec_ensureDocumentOpen (key rel : string) :
  used rel ->
  spec host used (fun _ => True) (ensureDocumentOpen host key rel)
       (fun a i => getAbsolutePath host rel = inr a /\ holds key (docReady a) i).
Proof.
  intros Hused. unfold ensureDocumentOpen.
  eapply spec_bind; [apply spec_self|]. intros this0. cbv beta.
  eapply spec_bind with (Q := fun _ _ => True).
  { destruct (negb (isInitialized this0)).
    - eapply spec_conseq;
        [apply spec_awaitInitialization, stable_true|intros; exact I..].
    - eapply spec_conseq;
        [apply (spec_mret (fun _ => True))|intros; exact I..]. }
  intros _. cbv beta.
  eapply spec_bind; [apply spec_self|]. intros this. cbv beta.
  destruct (isInitialized this) eqn:Hi; cbn [negb]; [|apply spec_throw].
  eapply spec_bind; [apply spec_liftE|]. intros a. cbv beta.
  eapply spec_bind with
    (Q := fun _ i => getAbsolutePath host rel = inr a /\ holds key (docReady a) i).
  - destruct (bool_decide (is_Some (openDocuments this !! a))) eqn:Hopen;
      cbn [negb].
    + apply bool_decide_eq_true in Hopen.
      eapply spec_conseq; [apply spec_mret|intros i H; exact H|].
      intros _ i (_ & Ha & _ & Hs). split; [exact Ha|].
      exists this. split; [exact Hs|]. split; [exact Hopen|left; exact Hi].
    + apply bool_decide_eq_false in Hopen.
      assert (Hnone : openDocuments this !! a = None).
      { destruct (openDocuments this !! a) eqn:H; [|reflexivity].
        exfalso. apply Hopen. eexists. reflexivity. }
      set (phi := fun s : LspProcess =>
                    openDocuments s !! a = None
                    /\ (isInitialized s = true \/ dead s)).
      assert (Hstable : stable host (fun i => getAbsolutePath host rel = inr a
                                              /\ holds key phi i)).
      { intros i i' [Ha H] Ht. split; [exact Ha|].
        revert H Ht. apply stable_holds. intros actions s HF [Ho Hd].
        destruct (events_session host actions s HF) as (Ho' & _ & _ & Hi').
        split; [rewrite Ho'; exact Ho|apply Hi'; exact Hd]. }
      eapply spec_bind.
      { eapply spec_conseq;
          [apply spec_readFile; exact Hstable| |intros u i H; exact H].
        intros i (Ha & _ & Hs). split; [exact Ha|].
        exists this. split; [exact Hs|]. split; [exact Hnone|left; exact Hi]. }
      intros content. cbv beta.
      eapply spec_bind; [apply spec_liftE|]. intros uri. cbv beta.
      eapply spec_ext; [intros w; apply update_update|].
      set (lang := languageIdFor (supportedLanguageIds (config this)) a).
      intros w (Huri & Ha & Hh).
      destruct (spec_update key (opened a uri lang content) phi (docReady a))
        with (w := w) as [Hadv Hq].
      * intros s [Ho Hd]. split.
        -- apply rtc_once.
           apply (step_open host used s rel a uri lang content Hused Ha Huri Ho Hd).
        -- unfold opened. split.
           ++ cbn [openDocuments set_openDocuments].
              rewrite lookup_insert_eq. eexists. reflexivity.
           ++ destruct (sendNotification_flags "textDocument/didOpen"
                          (PDidOpen uri lang 1 content) s) as (Hp' & Hi' & Hip' & _).
              destruct Hd as [Hd | Hd]; [left; cbn; congruence|].
              right. eapply dead_same; [..|exact Hd]; cbn; assumption.
      * exact Hh.
      * split; [exact Hadv|]. intros u Hr. split; [exact Ha|]. apply (Hq u Hr).
  - intros _. eapply spec_conseq; [apply spec_mret|intros i H; exact H|].
    intros a' i [-> H]. exact H.
Qed.


Lemma spec_weak {A} (P : _ -> Prop) (Q : A -> _ -> Prop) (m : Task A) :
  spec host used P m Q -> spec host used P m (fun _ _ => True).
Proof. intros H. eapply spec_conseq; [exact H|auto|intros; exact I]. Qed.

Lemma spec_strong {A} (P : _ -> Prop) (m : Task A) :
  spec host used anything m (fun _ _ => True) -> spec host used P m (fun _ _ => True).
Proof. intros H. eapply spec_conseq; [exact H|intros; exact I|auto]. Qed.

Lemma spec_call_any {A} (key : string) (f : LspProcess -> A * LspProcess) :
  (forall s, rtc (sessionStep host used) s (snd (f s))) ->
  spec host used anything (call key f) (fun _ _ => True).
Proof.
  intros Hf w _. unfold call.
  destruct (map_get key (lspInstances w)) as [s|] eqn:Hs; simpl.
  - specialize (Hf s). destruct (f s) as [a s']. simpl in *.
    split; [apply (advances_set key s s'); assumption|]. auto.
  - split; [apply advances_refl|]. auto.
Qed.

Lemma spec_bind_any {A B} (m : Task A) (f : A -> Task B) :
  spec host used anything m (fun _ _ => True) ->
  (forall a, spec host used anything (f a) (fun _ _ => True)) ->
  spec host used anything (m ≫= f) (fun _ _ => True).
Proof. intros Hm Hf. eapply spec_bind; [exact Hm|]. intros a. apply Hf. Qed.

Lemma spec_try_catch {A} (body : Task A) (handler : Error -> Task A) :
  spec host used anything body (fun _ _ => True) ->
  (forall e, spec host used anything (handler e) (fun _ _ => True)) ->
  spec host used anything (try_catch body handler) (fun _ _ => True).
Proof.
  intros Hb Hh w _. unfold try_catch. destruct (Hb w I) as [Ha _].
  destruct (body w) as [[a|e|] w']; simpl in *; try (split; [exact Ha|auto]).
  destruct (Hh e w' I) as [Ha' _].
  split; [eapply advances_trans; eassumption|auto].
Qed.

Lemma spec_try_finally {A} (body : Task A) (final : Task unit) :
  spec host used anything body (fun _ _ => True) ->
  spec host used anything final (fun _ _ => True) ->
  spec host used anything (try_finally body final) (fun _ _ => True).
Proof.
  intros Hb Hf w _. unfold try_finally. destruct (Hb w I) as [Ha _].
  destruct (body w) as [[a|e|] w']; simpl in *; try (split; [exact Ha|auto]).
  all: destruct (Hf w' I) as [Ha' _]; destruct (final w') as [[[]|e'|] w''];
    simpl in *; (split; [eapply advances_trans; eassumption|auto]).
Qed.

Lemma spec_request_any (key method : string) (params : Params) (timeoutMs : N) :
  plain params ->
  spec host used anything (call key (sendRequest method params timeoutMs))
       (fun _ _ => True).
Proof.
  intros Hp. apply spec_call_any. intros s. apply rtc_once.
  apply step_request. exact Hp.
Qed.

Lemma spec_closeFinally (key : string) :
  spec host used anything (closeFinally key) (fun _ _ => True).
Proof.
  unfold closeFinally.
  apply spec_bind_any.
  { apply spec_update_any. intros s. apply rtc_once, step_exit. }
  intros _. apply spec_bind_any; [apply spec_weak with (Q := fun s i => True /\ map_get key i = Some s), spec_self|].
  intros this. destruct (process this); [|apply spec_throw].
  apply spec_bind_any.
  { apply spec_update_any. intros s. apply rtc_once, step_signal. }
  intros _. apply spec_bind_any.
  { apply spec_update_any. intros s. apply rtc_once, step_uninitialize. }
  intros _. apply spec_update_any. intros s. apply rtc_once, step_drop.
Qed.

Lemma spec_mret_any {A} (a : A) : spec host used anything (mret a) (fun _ _ => True).
Proof. eapply spec_weak. apply (spec_mret anything). Qed.

Lemma spec_close (key : string) :
  spec host used anything (close host key) (fun _ _ => True).
Proof.
  unfold close.
  apply spec_bind_any; [apply spec_weak with (Q := fun s i => True /\ map_get key i = Some s), spec_self|].
  intros this. destruct (bool_decide _); [|apply spec_mret_any].
  apply spec_try_finally; [|apply spec_closeFinally].
  apply spec_try_catch; [|intros e; apply spec_mret_any].
  destruct (isInitialized this); [|apply spec_mret_any].
  apply spec_bind_any; [apply spec_request_any; exact I|].
  intros p. apply spec_bind_any; [|intros v; apply spec_mret_any].
  eapply spec_weak. apply spec_awaitPromise, stable_true.
Qed.

Lemma spec_closeEach (keys : list string) :
  spec host used anything (closeEach host keys) (fun _ _ => True).
Proof.
  induction keys as [|key keys IH]; simpl.
  - apply spec_mret_any.
  - apply spec_bind_any; [apply spec_close|]. intros _. exact IH.
Qed.

Lemma spec_shutdownAll :
  spec host used anything (shutdownAll host) (fun _ _ => True).
Proof. intros w Hw. unfold shutdownAll. apply spec_closeEach. exact Hw. Qed.

Lemma spec_ensure_any (key rel : string) :
  used rel ->
  spec host used anything (ensureDocumentOpen host key rel) (fun _ _ => True).
Proof. intros Hused. eapply spec_weak. apply spec_ensureDocumentOpen, Hused. Qed.

Lemma spec_getDiagnostics (rel : string) :
  used rel ->
  spec host used anything (getDiagnostics host rel) (fun _ _ => True).
Proof.
  intros Hused. unfold getDiagnostics.
  apply spec_bind_any; [apply (spec_select anything)|]. intros lsp.
  apply spec_bind_any; [apply spec_ensure_any, Hused|]. intros a.
  apply spec_bind_any; [eapply spec_weak; apply spec_awaitCompletion, stable_true|].
  intros _. apply spec_bind_any; [apply spec_weak with (Q := fun s i => True /\ map_get lsp i = Some s), spec_self|].
  intros this. apply spec_mret_any.
Qed.

Lemma spec_positional (method rel : string) (l c : nat) :
  used rel ->
  spec host used anything
    (lsp ← selectOrThrow rel;
     absolutePath ← ensureDocumentOpen host lsp rel;
     uri ← liftE (_pathToUri host absolutePath);
     p ← call lsp (sendRequest method (PPosition uri l c) 5000);
     awaitPromise host lsp p)
    (fun _ _ => True).
Proof.
  intros Hused.
  apply spec_bind_any; [apply (spec_select anything)|]. intros lsp.
  apply spec_bind_any; [apply spec_ensure_any, Hused|]. intros a.
  apply spec_bind_any; [eapply spec_weak; apply (spec_liftE anything)|].
  intros uri. apply spec_bind_any; [apply spec_request_any; exact I|].
  intros p. eapply spec_weak. apply spec_awaitPromise, stable_true.
Qed.


Lemma spec_notifyChange (lsp a : string) (text : list N) (uri : string) :
  spec host used (fun i => _pathToUri host a = inr uri /\ holds lsp (docReady a) i)
       (notifyChange host lsp a text) (fun _ _ => True).
Proof.
  intros w (Huri & s & Hs & Hopen & Hd). unfold notifyChange.
  rewrite task_bind_unfold, (self_eq _ _ _ Hs).
  rewrite task_bind_unfold, (update_eq _ _ _ _ Hs).
  set (s1 := set_openDocuments _ s).
  set (w1 := set_instances _ w).
  assert (H1 : map_get lsp (lspInstances w1) = Some s1).
  { unfold w1. cbn [lspInstances set_instances]. apply map_get_set_eq. }
  rewrite task_bind_unfold, Huri.
  change (liftE (inr uri) w1) with (@Returned string uri, w1). cbv beta iota.
  rewrite (update_eq _ _ _ _ H1). cbn [fst snd].
  split; [|auto]. unfold w1. cbn [lspInstances set_instances].
  rewrite map_set_set. apply (advances_set lsp s); [exact Hs|].
  apply rtc_once. apply (step_change host used s a uri text Hopen Huri Hd).
Qed.

Lemma spec_formatDocument (rel : string) :
  used rel ->
  spec host used anything (formatDocument host rel) (fun _ _ => True).
Proof.
  intros Hused. unfold formatDocument.
  eapply spec_bind; [apply (spec_select anything)|]. intros lsp. cbv beta.
  eapply spec_bind; [apply spec_ensureDocumentOpen, Hused|]. intros a. cbv beta.
  eapply spec_bind; [apply spec_liftE|]. intros uri. cbv beta.
  set (P := fun i : list (string * LspProcess) =>
              _pathToUri host a = inr uri /\ holds lsp (docReady a) i).
  assert (Hstable : stable host P).
  { intros i i' [Hu H] Ht. split; [exact Hu|]. revert H Ht.
    apply stable_holds. intros actions s HF. apply docReady_stable. exact HF. }
  eapply spec_bind with (Q := fun _ => P).
  { set (phi := fun s : LspProcess => _pathToUri host a = inr uri /\ docReady a s).
    eapply spec_conseq with (P := holds lsp phi) (Q := fun _ => holds lsp phi).
    - apply (spec_call lsp _ phi (fun _ => phi)).
      intros s [Hu [Ho Hd]].
      destruct (sendRequest_session "textDocument/formatting"
                  (PFormatting uri 2 true) 5000 s) as (Hp' & Hi' & Hip' & Ho' & _).
      split; [apply rtc_once, step_request; exact I|].
      split; [exact Hu|]. split; [rewrite Ho'; exact Ho|].
      destruct Hd as [Hd | Hd]; [left; congruence|].
      right. eapply dead_same; [..|exact Hd]; assumption.
    - intros i (Hu & _ & s & Hs & Hd). exists s. split; [exact Hs|].
      split; assumption.
    - intros v i (s & Hs & Hu & Hd). split; [exact Hu|]. exists s. auto. }
  intros p. eapply spec_bind; [apply spec_awaitPromise; exact Hstable|].
  intros edits. cbv beta.
  destruct edits as [|caps|[|edit edits]|payload];
    try (eapply spec_weak; apply spec_mret).
  eapply spec_bind; [apply spec_readFile; exact Hstable|]. intros content. cbv beta.
  eapply spec_bind; [apply spec_liftE|]. intros newContent. cbv beta.
  eapply spec_bind.
  { eapply spec_conseq; [apply spec_writeFile; exact Hstable| |intros u i H; exact H].
    intros i [_ H]. exact H. }
  intros u. cbv beta.
  eapply spec_bind; [apply (spec_notifyChange lsp a newContent uri)|].
  intros u'. eapply spec_weak; apply spec_mret.
Qed.


(** *** From the construction of the service on *)

Lemma versioned_new (lspConfig : LspConfig) :
  versioned host used (new_LspProcess host lspConfig).
Proof.
  split.
  - intros a v Ha. unfold new_LspProcess, sendRequest in Ha. simpl in Ha.
    rewrite lookup_empty in Ha. discriminate.
  - intros uri Hne. exfalso. apply Hne. reflexivity.
Qed.

Lemma versioned_steps (s s' : LspProcess) :
  rtc (sessionStep host used) s s' -> versioned host used s -> versioned host used s'.
Proof.
  induction 1 as [|s1 s2 s3 Hstep _ IH]; [auto|].
  intros Hv. apply IH. eapply versioned_step; eassumption.
Qed.

Lemma allVersioned_advances insts insts' :
  advances host used insts insts' -> allVersioned host used insts -> allVersioned host used insts'.
Proof.
  intros Hadv Hall key s' Hs'. specialize (Hadv key).
  destruct (map_get key insts) as [s|] eqn:Hs; [|congruence].
  destruct Hadv as (s'' & Hs'' & Hsteps). rewrite Hs' in Hs''.
  injection Hs'' as <-. eapply versioned_steps; [exact Hsteps|].
  eapply Hall; exact Hs.
Qed.


Lemma perform_advances (c : ApiCall) (w : World) :
  (forall rel, pathOf c = Some rel -> used rel) ->
  advances host used (lspInstances w) (lspInstances (perform host c w)).
Proof.
  intros Hused. destruct c; simpl.
  - apply spec_getDiagnostics; [apply Hused; reflexivity|exact I].
  - apply (spec_positional "textDocument/completion");
      [apply Hused; reflexivity|exact I].
  - apply (spec_positional "textDocument/definition");
      [apply Hused; reflexivity|exact I].
  - apply spec_formatDocument; [apply Hused; reflexivity|exact I].
  - apply spec_shutdownAll. exact I.
  - destruct (future w) as [|e events]; [apply advances_refl|].
    apply turned_advances, deliver_turned.
Qed.

Lemma oneAfterAnother_versioned (calls : list ApiCall) (w : World) :
  (forall rel, rel ∈ paths calls -> used rel) ->
  allVersioned host used (lspInstances w) ->
  allVersioned host used (lspInstances (oneAfterAnother host calls w)).
Proof.
  revert w. induction calls as [|c calls IH]; intros w Hused Hw; simpl;
    [exact Hw|].
  apply IH.
  - intros rel Hrel. apply Hused. unfold paths. cbn [omap list_omap].
    destruct (pathOf c); [right|]; exact Hrel.
  - eapply allVersioned_advances; [apply perform_advances|exact Hw].
    intros rel Hrel. apply Hused. unfold paths. cbn [omap list_omap].
    rewrite Hrel. left.
Qed.

Lemma versioned_countUp (s : LspProcess) (uri : string) :
  versioned host used s -> exists n, versionsSent uri (stdin s) = countUp n.
Proof.
  intros [V1 V2]. destruct (versionsSent uri (stdin s)) eqn:Hsent.
  - exists 0%nat. reflexivity.
  - destruct (V2 uri) as (a & v & Ha & Hu); [congruence|].
    destruct (V1 a v Ha) as (_ & uri' & n' & Hu' & Hn & _).
    assert (uri' = uri) by congruence. subst uri'.
    exists n'. rewrite <- Hsent. exact Hn.
Qed.

End VersionsKept.

Section VersionsSent.
Import Lsp Service Trace Versions.
Context (host : Host).


End VersionsSent.

Example test_formatOnce :
  Service.files Demo.formatOnce !! "/project/src/a.ts"
  = Some (list_byte_of_string "const x = 1")
  /\ (Service.map_get "typescript" (Service.lspInstances Demo.formatOnce)
      ≫= fun s => Some (map Lsp.frame_method (Lsp.stdin s),
                        Trace.versionsSent "file:///project/src/a.ts" (Lsp.stdin s),
                        Lsp.openDocuments s !! "/project/src/a.ts"))
     = Some (["initialize"; "initialized"; "textDocument/didOpen";
              "textDocument/formatting"; "textDocument/didChange"],
             [1; 2], Some 2).
Proof. vm_compute. split; reflexivity. Qed.



(** * Further properties *)

(** ** The framer *)

Section FramingMore.
Import Framer Wire.

Lemma match_here_length (s m0 ds : list N) :
  match_here s = Some (m0, ds) -> (21 <= length m0)%nat.
Proof.
  unfold match_here. destruct (strip_prefix header_name s) as [r|]; [|discriminate].
  destruct (span_digits r) as [ds' r']. destruct ds' as [|d ds']; [discriminate|].
  destruct (strip_prefix header_end r'); [|discriminate].
  intros [= <- <-]. cbn [length]. rewrite length_app. unfold header_end. cbn [length]. lia.
Qed.

Lemma regex_match_length (s m0 ds : list N) :
  regex_match s = Some (m0, ds) -> (21 <= length m0)%nat.
Proof.
  induction s as [|c s IH]; cbn [regex_match].
  - destruct (match_here []) as [[a b]|] eqn:E; [|discriminate].
    intros [= <- <-]. exact (match_here_length _ _ _ E).
  - destruct (match_here (c :: s)) as [[a b]|] eqn:E; [|exact IH].
    intros [= <- <-]. exact (match_here_length _ _ _ E).
Qed.

(** X2.  The loop of [_handleData] ends: a turn that takes a message out
    shortens the buffer, so as many turns as the buffer has code units are
    enough, and more turns than that give the same result. *)
Theorem frame_loop_turns_suffice (turns : nat) (messageBuffer : list N) :
  (length messageBuffer <= turns)%nat ->
  frame_loop turns messageBuffer
  = frame_loop (length messageBuffer) messageBuffer.
Proof.
  assert (H : forall n m b, (length b <= n)%nat -> (length b <= m)%nat ->
                            frame_loop n b = frame_loop m b).
  { induction n as [|n IH]; intros m b Hn Hm.
    - destruct b; [|simpl in Hn; lia]. rewrite !frame_loop_nil. reflexivity.
    - destruct m as [|m].
      { destruct b; [|simpl in Hm; lia]. rewrite !frame_loop_nil. reflexivity. }
      cbn [frame_loop].
      destruct (regex_match b) as [[m0 ds]|] eqn:E; [|reflexivity].
      apply regex_match_length in E.
      destruct (length b <? length m0 + N.to_nat (parseInt ds))%nat eqn:C;
        [reflexivity|].
      apply Nat.ltb_ge in C.
      rewrite (IH m); [reflexivity| |];
        unfold Js.substring_from; rewrite length_drop; lia. }
  intros Hn. apply H; [exact Hn|lia].
Qed.

Lemma frame_loop_conserves (n : nat) (b : list N) :
  exists skipped : list (list N),
    length skipped = length (fst (frame_loop n b))
    /\ Forall (fun h => (21 <= length h)%nat) skipped
    /\ b = concat (zip_with app skipped (fst (frame_loop n b)))
           ++ snd (frame_loop n b).
Proof.
  revert b. induction n as [|n IH]; intros b.
  - exists []. split; [reflexivity|]. split; [constructor|reflexivity].
  - cbn [frame_loop].
    destruct (regex_match b) as [[m0 ds]|] eqn:E;
      [|exists []; split; [reflexivity|]; split; [constructor|reflexivity]].
    apply regex_match_length in E.
    destruct (length b <? length m0 + N.to_nat (parseInt ds))%nat eqn:C;
      [exists []; split; [reflexivity|]; split; [constructor|reflexivity]|].
    apply Nat.ltb_ge in C.
    set (e := (length m0 + N.to_nat (parseInt ds))%nat) in *.
    destruct (IH (Js.substring_from e b)) as (skipped & Hlen & Hall & Hb).
    destruct (frame_loop n (Js.substring_from e b)) as [more rest].
    cbn [fst snd] in *. exists (take (length m0) b :: skipped).
    split; [cbn [length]; congruence|]. split.
    + constructor; [|exact Hall]. rewrite length_take. lia.
    + cbn [zip_with concat]. rewrite <- !app_assoc, <- Hb.
      unfold Js.substring, Js.substring_from.
      replace (e - length m0)%nat with (N.to_nat (parseInt ds)) by (subst e; lia).
      rewrite app_assoc, take_take_drop. symmetry. apply take_drop.
Qed.

(** X3.  [_handleData] makes up no text.  What it had (the old buffer and
    the decoded chunk) is, piece by piece: for every message emitted, in
    order, some code units that it skipped in front of the message, 21 or
    more (the length of the smallest header), and then the message; and
    after the last message, the buffer that it leaves.  So every message
    is a piece of the input, the pieces do not overlap, and nothing of the
    input that is neither skipped nor emitted is lost. *)
Theorem handleData_conserves (messageBuffer : list N) (data : list Byte.byte) :
  exists skipped : list (list N),
    length skipped = length (fst (handleData messageBuffer data))
    /\ Forall (fun h => (21 <= length h)%nat) skipped
    /\ messageBuffer ++ Js.toString data
       = concat (zip_with app skipped (fst (handleData messageBuffer data)))
         ++ snd (handleData messageBuffer data).
Proof. unfold handleData. apply frame_loop_conserves. Qed.

End FramingMore.

Lemma framer_ascii_any_split_witness :
  let m := (Js.codes "2", Js.codes "{}") in
  let bytes := Js.to_bytes (Wire.frameText m) in
  Framer.feed [] [take 18 bytes; drop 18 bytes; []] = ([Js.codes "{}"], []).
Proof.
  apply (framer_ascii_any_split [(Js.codes "2", Js.codes "{}")]).
  - constructor; [|constructor]. unfold Wire.asciiFramed. cbn [fst snd].
    split; [repeat constructor|]. split; [discriminate|].
    split; [reflexivity|]. unfold Wire.asciiText. repeat constructor.
  - vm_compute. reflexivity.
Defined.

Lemma frame_loop_turns_suffice_witness :
  let messageBuffer := Wire.frameText (Js.codes "2", Js.codes "{}") ++ Js.codes "Content-" in
  Framer.frame_loop 1000 messageBuffer = ([Js.codes "{}"], Js.codes "Content-").
Proof.
  cbv zeta.
  rewrite (frame_loop_turns_suffice 1000
             (Wire.frameText (Js.codes "2", Js.codes "{}") ++ Js.codes "Content-")).
  - vm_compute. reflexivity.
  - vm_compute. lia.
Defined.

(** ** A header field before the length *)

Section FieldBefore.
Import Framer Wire Fields.

Lemma regex_match_skip (pre x : list N) :
  noC pre -> regex_match (pre ++ x) = regex_match x.
Proof.
  induction 1 as [|c pre Hc _ IH]; [reflexivity|].
  cbn [app regex_match]. unfold match_here at 1.
  replace (strip_prefix header_name (c :: pre ++ x)) with (@None (list N));
    [exact IH|].
  rewrite header_name_C. cbn [strip_prefix].
  destruct (N.eqb_spec 67 c); [congruence|reflexivity].
Qed.

Lemma typeField_no_match (t x : list N) :
  noC t -> regex_match (typeField t ++ x) = regex_match x.
Proof.
  intros Ht. unfold typeField.
  change (Js.codes "Content-Type: ") with (67 :: Js.codes "ontent-Type: ").
  cbn [app regex_match].
  replace (match_here (67 :: (Js.codes "ontent-Type: " ++ t ++ [13; 10]) ++ x))
    with (@None (list N * list N)) by reflexivity.
  rewrite <- app_assoc, regex_match_skip.
  2:{ apply (bool_decide_unpack _). vm_compute. exact I. }
  rewrite <- app_assoc, regex_match_skip by exact Ht.
  apply (regex_match_skip [13; 10]). repeat constructor; discriminate.
Qed.

Lemma typeField_length (t : list N) : length (typeField t) = (16 + length t)%nat.
Proof. unfold typeField. rewrite !length_app. cbn. lia. Qed.

(** X4.  A header field before [Content-Length] shifts the message.  The
    loop takes the payload from the index [match[0].length], the length of
    the matched header, as if the header stood at the start of the buffer.
    When a [Content-Type] field comes first, one "message" is emitted that
    has the right length but starts that many code units too early, inside
    the header, and as many code units of the end of the payload as the
    field is long stay in the buffer. *)
Theorem field_before_length_shifts_message
    (t : list N) (m : list N * list N) (data : list Byte.byte) :
  noC t -> noC (snd m) -> asciiFramed m ->
  (length (typeField t) <= length (snd m))%nat ->
  Js.toString data = typeField t ++ frameText m ->
  let k := length (typeField t) in
  let n := length (snd m) in
  handleData [] data
  = ([drop (length (header (fst m))) (typeField t ++ header (fst m))
      ++ take (n - k) (snd m)],
     drop (n - k) (snd m)).
Proof.
  intros Ht Hp (Hds & Hne & Hlen & Hascii) Hk Hdata. cbv zeta.
  unfold handleData. cbn [app]. rewrite Hdata.
  set (j := typeField t) in *. set (h := header (fst m)).
  set (p := snd m) in *.
  assert (Hb : j ++ frameText m = j ++ h ++ p)
    by (rewrite frameText_header; reflexivity).
  rewrite Hb.
  assert (Hjlen : (0 < length j)%nat) by (unfold j; rewrite typeField_length; lia).
  destruct (length (j ++ h ++ p)) as [|fuel] eqn:Hfuel;
    [rewrite length_app in Hfuel; lia|].
  cbn [frame_loop].
  assert (Hmatch : regex_match (j ++ h ++ p) = Some (h, fst m)).
  { unfold j. rewrite (typeField_no_match t _ Ht).
    apply regex_match_header; assumption. }
  rewrite Hmatch, Hlen, Nat2N.id. fold p.
  assert (Hlt : (length (j ++ h ++ p) <? length h + length p)%nat = false).
  { apply Nat.ltb_ge. rewrite !length_app. lia. }
  rewrite Hlt. unfold Js.substring, Js.substring_from.
  replace (length h + length p - length h)%nat with (length p) by lia.
  assert (Hrest : drop (length h + length p) (j ++ h ++ p)
                  = drop (length p - length j) p).
  { rewrite drop_app_ge by lia. rewrite drop_app_ge by lia. f_equal. lia. }
  rewrite Hrest.
  assert (Hstop : frame_loop fuel (drop (length p - length j) p)
                  = ([], drop (length p - length j) p)).
  { destruct fuel; [reflexivity|]. cbn [frame_loop].
    rewrite regex_match_no_C; [reflexivity|].
    apply Forall_drop. exact Hp. }
  rewrite Hstop. f_equal. f_equal.
  rewrite app_assoc.
  rewrite drop_app_le by (rewrite length_app; lia).
  rewrite take_app_ge by (rewrite length_drop, length_app; lia).
  f_equal. rewrite length_drop, length_app. f_equal. lia.
Qed.

End FieldBefore.

Lemma field_before_length_shifts_message_witness :
  Framer.handleData []
    (Js.to_bytes
       (Fields.typeField (Js.codes "a/b")
        ++ Wire.frameText
             (Js.codes "22",
              Js.codes "{" ++ [34] ++ Js.codes "id" ++ [34] ++ Js.codes ":7,"
              ++ [34] ++ Js.codes "x" ++ [34] ++ Js.codes ":123456789}")))
  = ([Js.codes "tent-Length: 22" ++ [13; 10; 13; 10]
      ++ Js.codes "{" ++ [34] ++ Js.codes "i"],
     Js.codes "d" ++ [34] ++ Js.codes ":7," ++ [34] ++ Js.codes "x" ++ [34]
     ++ Js.codes ":123456789}").
Proof.
  etransitivity.
  - refine (field_before_length_shifts_message (Js.codes "a/b")
              (Js.codes "22",
               Js.codes "{" ++ [34] ++ Js.codes "id" ++ [34] ++ Js.codes ":7,"
               ++ [34] ++ Js.codes "x" ++ [34] ++ Js.codes ":123456789}")
              _ _ _ _ _ _).
    + apply (bool_decide_unpack _). vm_compute. exact I.
    + apply (bool_decide_unpack _). vm_compute. exact I.
    + split; [repeat constructor|]. split; [discriminate|].
      split; [reflexivity|]. apply (bool_decide_unpack _). vm_compute. exact I.
    + vm_compute. lia.
    + vm_compute. reflexivity.
  - vm_compute. reflexivity.
Defined.

(** ** The client *)

Section ClientMore.
Import Lsp Trace Requests.
Context (host : Host).

(** ** The identifiers of the requests *)

Lemma requestIds_app (l1 l2 : list Frame) :
  requestIds (l1 ++ l2) = requestIds l1 ++ requestIds l2.
Proof. apply omap_app. Qed.

Lemma numbered_same (s s' : LspProcess) :
  stdin s' = stdin s -> requestIdCounter s' = requestIdCounter s ->
  numbered s -> numbered s'.
Proof. unfold numbered. intros -> ->. tauto. Qed.

Lemma numbered_notified (s s' : LspProcess) (method : string) (params : Params) :
  stdin s' = stdin s ++ [ {| frame_id := None; frame_method := method;
                             frame_params := params |} ] ->
  requestIdCounter s' = requestIdCounter s ->
  numbered s -> numbered s'.
Proof.
  unfold numbered. intros -> ->. rewrite requestIds_app. cbn.
  rewrite app_nil_r. tauto.
Qed.

Lemma numbered_sendRequest method params timeoutMs (s : LspProcess) :
  numbered s -> numbered (snd (sendRequest method params timeoutMs s)).
Proof.
  intros [H1 Hids]. unfold sendRequest. destruct (_ || _).
  - split; assumption.
  - split; cbn; [lia|]. rewrite requestIds_app, Hids. cbn.
    replace (N.to_nat (requestIdCounter s + 1) - 1)%nat
      with (S (N.to_nat (requestIdCounter s) - 1)) by lia.
    rewrite countUp_S. f_equal. f_equal. lia.
Qed.

Lemma numbered_sendNotification method params (s : LspProcess) :
  numbered s -> numbered (sendNotification method params s).
Proof.
  intros H. unfold sendNotification. destruct (_ || _); [exact H|].
  eapply numbered_notified; [reflexivity|reflexivity|exact H].
Qed.

Lemma handleMessage_wire (message : Message) (s : LspProcess) :
  stdin (_handleMessage host message s) = stdin s
  /\ requestIdCounter (_handleMessage host message s) = requestIdCounter s.
Proof.
  unfold _handleMessage.
  assert (Hnote : forall s0 : LspProcess,
    let s1 :=
      (if bool_decide (msg_method message = Some "textDocument/publishDiagnostics")
       then match msg_params message with
            | Some ps =>
              match _uriToPath host (pd_uri ps) with
              | Some filePath =>
                set_diagnostics (<[filePath:=pd_diagnostics ps]> (diagnostics s0)) s0
              | None => s0
              end
            | None => s0
            end
       else s0) in
    stdin s1 = stdin s0 /\ requestIdCounter s1 = requestIdCounter s0).
  { intros s0. cbv zeta. destruct (bool_decide _); [|tauto].
    destruct (msg_params message) as [ps|]; [|tauto].
    destruct (_uriToPath host (pd_uri ps)); split; reflexivity. }
  destruct (msg_id message) as [[id|]|]; try apply Hnote.
  destruct (pendingRequests s !! id) as [entry|]; [|apply Hnote].
  cbn [stdin requestIdCounter set_pendingRequests].
  destruct (msg_error message) as [err|];
    match goal with |- context [settle ?p ?r ?s0] =>
      destruct (settle_other p r s0) as (_ & _ & -> & -> & _) end;
    destruct (clearTimeout_other (timeout entry) s) as (_ & _ & -> & -> & _);
    split; reflexivity.
Qed.

Lemma handleData_wire (data : list Byte.byte) (s : LspProcess) :
  stdin (_handleData host data s) = stdin s
  /\ requestIdCounter (_handleData host data s) = requestIdCounter s.
Proof.
  unfold _handleData.
  destruct (Framer.handleData (messageBuffer s) data) as [payloads rest].
  change (stdin s) with (stdin (set_messageBuffer rest s)).
  change (requestIdCounter s) with (requestIdCounter (set_messageBuffer rest s)).
  generalize (set_messageBuffer rest s).
  induction payloads as [|payload payloads IH]; intros s0; simpl; [tauto|].
  destruct (IH (match JSON_parse host payload with
                | Some message => _handleMessage host message s0
                | None => s0
                end)) as [-> ->].
  destruct (JSON_parse host payload) as [message|]; [|tauto].
  apply handleMessage_wire.
Qed.

Lemma timeoutExpires_wire (t : nat) (s : LspProcess) :
  stdin (timeoutExpires t s) = stdin s
  /\ requestIdCounter (timeoutExpires t s) = requestIdCounter s.
Proof.
  unfold timeoutExpires. destruct (timers s !! t) as [[task| |]|]; try tauto.
  match goal with |- context [settle ?p ?r ?s0] =>
    destruct (settle_other p r s0) as (_ & _ & -> & -> & _) end.
  split; reflexivity.
Qed.

Lemma numbered_initialize_resume (s : LspProcess) :
  numbered s -> numbered (_initialize_resume s).
Proof.
  intros H. unfold _initialize_resume.
  destruct (initializationPromise s) as [[p| |]|]; try exact H.
  destruct (promises s !! p) as [[|v|e]|]; try exact H.
  destruct (capabilityKeys v); [|exact H].
  apply (numbered_same (sendNotification "initialized" PEmpty s));
    [reflexivity|reflexivity|]. apply numbered_sendNotification. exact H.
Qed.

Lemma numbered_act (a : Action) (s : LspProcess) :
  numbered s -> numbered (act host a s).
Proof.
  intros H. destruct a as [e|method params timeoutMs|method params| | | |];
    cbn [act]; try exact H.
  - unfold dispatch. apply numbered_initialize_resume.
    destruct e as [data| | |t].
    + destruct (handleData_wire data s) as [E1 E2].
      exact (numbered_same _ _ E1 E2 H).
    + exact H.
    + exact H.
    + destruct (timeoutExpires_wire t s) as [E1 E2].
      exact (numbered_same _ _ E1 E2 H).
  - apply numbered_sendRequest. exact H.
  - apply numbered_sendNotification. exact H.
Qed.

Lemma numbered_new (lspConfig : LspConfig) :
  numbered (new_LspProcess host lspConfig).
Proof. split; [cbn; lia|reflexivity]. Qed.

(** X5.  Request identifiers are handed out in order and never reused:
    whatever a client has done since it was created, the requests it has
    written to its server carry the identifiers 1, 2, 3, ... in the order
    in which they were written, up to the counter. *)
Theorem request_ids_count_up (lspConfig : LspConfig) (actions : list Action) :
  let s := run host actions (new_LspProcess host lspConfig) in
  requestIds (stdin s) = countUp (N.to_nat (requestIdCounter s) - 1).
Proof.
  cbv zeta.
  enough (numbered (run host actions (new_LspProcess host lspConfig)))
    as [_ H]; [exact H|].
  generalize (numbered_new lspConfig).
  generalize (new_LspProcess host lspConfig).
  induction actions as [|a actions IH]; intros s Hs; [exact Hs|].
  cbn. apply IH. apply numbered_act. exact Hs.
Qed.


(** ** Invariants of a client *)

(** X6.  Whatever a client has done since it was created, its pending
    requests, promises and timers fit together: every pending request has
    an identifier below the counter, a promise that is not settled and an
    armed timer that names it, every armed timer belongs to a pending
    request, and no two pending requests share a promise. *)
Theorem reachable_client_consistent (lspConfig : LspConfig) (actions : list Action) :
  consistent (run host actions (new_LspProcess host lspConfig)).
Proof. apply consistent_run, consistent_new. Qed.

(** X7.  A promise is settled once: after a request has been answered,
    rejected or timed out, nothing that happens to the client later (a
    second response with the same identifier, the timer, the exit of the
    server, other requests) changes its result. *)
Theorem settled_promise_is_final
    (lspConfig : LspConfig) (before actions : list Action) (q : nat)
    (x : PromiseState) :
  let s := run host before (new_LspProcess host lspConfig) in
  promises s !! q = Some x -> x <> Pending ->
  promises (run host actions s) !! q = Some x.
Proof.
  cbv zeta. intros Hq Hx.
  apply (ev_settled _ _ (evolves_run host actions _
                           (consistent_run host before _ (consistent_new host lspConfig)))
                    q x Hq Hx).
Qed.

(** ** Responses *)

Lemma handleMessage_response
    (s : LspProcess) (message : Message) (id : N) (entry : PendingRequest) :
  consistent s ->
  msg_id message = Some (IdNum id) ->
  pendingRequests s !! id = Some entry ->
  let s' := _handleMessage host message s in
  promises s' !! promise entry = Some (outcome message)
  /\ pendingRequests s' = delete id (pendingRequests s)
  /\ timers s' !! timeout entry = Some Cleared
  /\ (forall q, q <> promise entry -> promises s' !! q = promises s !! q)
  /\ (forall u, u <> timeout entry -> timers s' !! u = timers s !! u)
  /\ diagnostics s' = diagnostics s
  /\ stdin s' = stdin s.
Proof.
  intros (Hpending & _ & _) Hid Hentry. cbv zeta.
  destruct (Hpending id entry Hentry) as (_ & Hp & task & Ht & _ & _).
  unfold _handleMessage. rewrite Hid, Hentry.
  cbn [promises pendingRequests timers diagnostics stdin set_pendingRequests].
  set (s1 := clearTimeout (timeout entry) s).
  destruct (clearTimeout_other (timeout entry) s) as (Hc1 & Hc2 & Hc3 & Hc4 & Hc5).
  fold s1 in Hc1, Hc2, Hc3, Hc4, Hc5.
  assert (Hs1 : timers s1 !! timeout entry = Some Cleared
                /\ diagnostics s1 = diagnostics s).
  { unfold s1, clearTimeout. rewrite Ht. cbn. split; [|reflexivity].
    apply list_lookup_insert_eq. apply lookup_lt_Some in Ht. exact Ht. }
  destruct Hs1 as [Hs1 Hd1].
  assert (Hp1 : promises s1 !! promise entry = Some Pending) by (rewrite Hc2; exact Hp).
  assert (Hgoal : forall r,
    let s2 := settle (promise entry) r s1 in
    promises s2 !! promise entry = Some r
    /\ pendingRequests s1 = pendingRequests s
    /\ timers s2 !! timeout entry = Some Cleared
    /\ (forall q, q <> promise entry -> promises s2 !! q = promises s !! q)
    /\ (forall u, u <> timeout entry -> timers s2 !! u = timers s !! u)
    /\ diagnostics s2 = diagnostics s
    /\ stdin s2 = stdin s).
  { intros r s2. destruct (settle_other (promise entry) r s1) as (_ & Ht2 & _ & Hi2 & _).
    fold s2 in Ht2, Hi2. repeat split.
    - apply settle_lookup_pending. exact Hp1.
    - exact Hc1.
    - rewrite Ht2. exact Hs1.
    - intros q Hq. unfold s2. rewrite settle_lookup_ne by exact Hq.
      rewrite Hc2. reflexivity.
    - intros u Hu. rewrite Ht2. apply clearTimeout_lookup_ne. exact Hu.
    - unfold s2, settle. rewrite Hp1. cbn. exact Hd1.
    - rewrite Hi2. exact Hc4. }
  unfold outcome. destruct (msg_error message) as [err|].
  - destruct (Hgoal (Rejected (LspError (err_message err) (err_code err))))
      as (H1 & H2 & H3 & H4 & H5 & H6 & H7).
    repeat split; try assumption. rewrite <- H2.
    f_equal. apply settle_other.
  - destruct (Hgoal (Fulfilled (msg_result message)))
      as (H1 & H2 & H3 & H4 & H5 & H6 & H7).
    repeat split; try assumption. rewrite <- H2.
    f_equal. apply settle_other.
Qed.

(** X8.  A message whose identifier is that of a pending request settles
    that request and nothing else: the promise of the request is resolved
    with the result, or rejected with the error of the message, its timer
    is cleared, the request is no longer pending, and the other promises
    and timers and the diagnostics are as they were -- also when the
    message carries a method. *)
Theorem response_settles_its_request
    (s : LspProcess) (message : Message) (id : N) (entry : PendingRequest) :
  consistent s ->
  msg_id message = Some (IdNum id) ->
  pendingRequests s !! id = Some entry ->
  let s' := _handleMessage host message s in
  promises s' !! promise entry = Some (outcome message)
  /\ pendingRequests s' = delete id (pendingRequests s)
  /\ timers s' !! timeout entry = Some Cleared
  /\ (forall q, q <> promise entry -> promises s' !! q = promises s !! q)
  /\ (forall u, u <> timeout entry -> timers s' !! u = timers s !! u)
  /\ diagnostics s' = diagnostics s
  /\ stdin s' = stdin s.
Proof. exact (handleMessage_response s message id entry). Qed.


(** ** Diagnostics *)

Lemma handleMessage_notification (message : Message) (s : LspProcess) :
  unsolicited message s ->
  _handleMessage host message s
  = if bool_decide (msg_method message = Some "textDocument/publishDiagnostics")
    then match msg_params message with
         | None => s
         | Some ps =>
           match _uriToPath host (pd_uri ps) with
           | None => s
           | Some filePath =>
             set_diagnostics (<[filePath := pd_diagnostics ps]> (diagnostics s)) s
           end
         end
    else s.
Proof.
  unfold unsolicited, _handleMessage. intros H.
  destruct (msg_id message) as [[id|]|]; try reflexivity.
  rewrite H. reflexivity.
Qed.

(** X9.  Diagnostics are kept per file, the last ones published winning: a
    [textDocument/publishDiagnostics] notification stores its diagnostics
    under the path of its URI, [getDiagnosticsForFile] for that path then
    returns them, and the diagnostics of every other path are as before. *)
Theorem published_diagnostics_are_returned
    (s : LspProcess) (message : Message) (ps : PublishDiagnosticsParams)
    (filePath : string) :
  unsolicited message s ->
  msg_method message = Some "textDocument/publishDiagnostics" ->
  msg_params message = Some ps ->
  _uriToPath host (pd_uri ps) = Some filePath ->
  let s' := _handleMessage host message s in
  getDiagnosticsForFile filePath s' = pd_diagnostics ps
  /\ (forall other, other <> filePath ->
        getDiagnosticsForFile other s' = getDiagnosticsForFile other s)
  /\ pendingRequests s' = pendingRequests s
  /\ promises s' = promises s.
Proof.
  intros Hun Hm Hps Hpath. cbv zeta.
  rewrite (handleMessage_notification message s Hun), Hm, Hps, Hpath.
  rewrite bool_decide_eq_true_2 by reflexivity.
  unfold getDiagnosticsForFile. cbn. repeat split.
  - rewrite lookup_insert_eq. reflexivity.
  - intros other Hne. rewrite lookup_insert_ne by congruence. reflexivity.
Qed.

Lemma slashes_length (p : string) : String.length (slashes p) = String.length p.
Proof. induction p as [|c p IH]; simpl; congruence. Qed.

Lemma pathToUri_absolute (p : string) :
  isAbsolute host p = true -> _pathToUri host p = inr ("file://" +:+ slashes p).
Proof. intros H. unfold _pathToUri. rewrite H. reflexivity. Qed.

Lemma uriToPath_file (q : string) :
  win32 host = false ->
  decodeURIComponent host ("file:///" +:+ q) = Some ("file:///" +:+ q) ->
  _uriToPath host ("file:///" +:+ q) = Some q.
Proof.
  intros Hw Hd. unfold _uriToPath. rewrite Hd, Hw. reflexivity.
Qed.

(** X10.  On a host that is not Windows the path of a file does not come
    back from its URI.  For an absolute path [/rest], [_pathToUri] gives
    [file:///rest], and [_uriToPath] turns that into [rest], without the
    leading slash.  So diagnostics that the server publishes under the URI
    the client itself sent for a file are stored under another key, and
    [getDiagnosticsForFile] for the file returns what it returned before. *)
Theorem posix_diagnostics_miss_the_file
    (s : LspProcess) (rest : string) (diags : list string) :
  let absolutePath := String "/"%char rest in
  let uri := "file:///" +:+ slashes rest in
  win32 host = false ->
  isAbsolute host absolutePath = true ->
  decodeURIComponent host uri = Some uri ->
  _pathToUri host absolutePath = inr uri
  /\ _uriToPath host uri = Some (slashes rest)
  /\ slashes rest <> absolutePath
  /\ let s' := _handleMessage host (publishDiagnostics uri diags) s in
     getDiagnosticsForFile absolutePath s' = getDiagnosticsForFile absolutePath s
     /\ getDiagnosticsForFile (slashes rest) s' = diags.
Proof.
  cbv zeta. intros Hw Habs Hd.
  assert (Hne : slashes rest <> String "/"%char rest).
  { intros E. apply (f_equal String.length) in E.
    rewrite slashes_length in E. simpl in E. lia. }
  pose proof (uriToPath_file (slashes rest) Hw Hd) as Hback.
  split; [|split; [exact Hback|split; [exact Hne|]]].
  - rewrite (pathToUri_absolute _ Habs). reflexivity.
  - rewrite (handleMessage_notification _ s) by exact I.
    cbn [msg_method msg_params publishDiagnostics pd_uri pd_diagnostics].
    rewrite bool_decide_eq_true_2 by reflexivity. rewrite Hback.
    unfold getDiagnosticsForFile. cbn [diagnostics set_diagnostics].
    rewrite lookup_insert_ne by exact Hne. rewrite lookup_insert_eq.
    split; reflexivity.
Qed.

(** ** What the listeners leave alone *)

(** X11.  Incoming data is only read.  Whatever the server sends, handling
    it writes nothing to the server (a request from the server is never
    answered), hands out no identifier, and changes neither the open
    documents nor whether the client is initialized or has a process. *)
Theorem incoming_data_writes_nothing (data : list Byte.byte) (s : LspProcess) :
  let s' := _handleData host data s in
  stdin s' = stdin s
  /\ requestIdCounter s' = requestIdCounter s
  /\ openDocuments s' = openDocuments s
  /\ isInitialized s' = isInitialized s
  /\ process s' = process s
  /\ signals s' = signals s.
Proof.
  cbv zeta.
  destruct (handleData_wire data s) as [H1 H2].
  destruct (sameSession_handleData host data s) as (_ & H3 & H4 & H5 & _).
  repeat split; try assumption.
  unfold _handleData.
  destruct (Framer.handleData (messageBuffer s) data) as [payloads rest].
  change (signals s) with (signals (set_messageBuffer rest s)).
  generalize (set_messageBuffer rest s).
  induction payloads as [|payload payloads IH]; intros s0; simpl; [reflexivity|].
  rewrite IH. destruct (JSON_parse host payload) as [message|]; [|reflexivity].
  unfold _handleMessage.
  assert (Hnote : forall s1 : LspProcess,
    signals
      (if bool_decide (msg_method message = Some "textDocument/publishDiagnostics")
       then match msg_params message with
            | Some ps =>
              match _uriToPath host (pd_uri ps) with
              | Some filePath =>
                set_diagnostics (<[filePath:=pd_diagnostics ps]> (diagnostics s1)) s1
              | None => s1
              end
            | None => s1
            end
       else s1) = signals s1).
  { intros s1. destruct (bool_decide _); [|reflexivity].
    destruct (msg_params message) as [ps|]; [|reflexivity].
    destruct (_uriToPath host (pd_uri ps)); reflexivity. }
  destruct (msg_id message) as [[id|]|]; try apply Hnote.
  destruct (pendingRequests s0 !! id) as [entry|]; [|apply Hnote].
  cbn [signals set_pendingRequests].
  assert (Hsettle : forall p r s1, signals (settle p r s1) = signals s1).
  { intros p r s1. unfold settle. destruct (promises s1 !! p) as [[| |]|]; reflexivity. }
  assert (Hclear : forall t s1, signals (clearTimeout t s1) = signals s1).
  { intros t s1. unfold clearTimeout. destruct (timers s1 !! t) as [[| |]|]; reflexivity. }
  destruct (msg_error message); rewrite Hsettle, Hclear; reflexivity.
Qed.

End ClientMore.

Section RoundTrip.
Import Lsp Service Trace Requests.
Context (host : Host).

Lemma awaitPromise_loop_settled (key : string) (p : nat) (events : list Event)
    (insts : list (string * LspProcess)) (s : LspProcess) (x : PromiseState) :
  map_get key insts = Some s ->
  promises s !! p = Some x ->
  awaitPromise_loop host key p events insts
  = match x with
    | Fulfilled v => (Returned v, (insts, events))
    | Rejected e => (Thrown e, (insts, events))
    | Pending =>
      match events with
      | [] => (Suspended, (insts, []))
      | e :: events' => awaitPromise_loop host key p events' (deliver host e insts)
      end
    end.
Proof.
  intros Hs Hp. destruct events; cbn [awaitPromise_loop];
    rewrite Hs; cbn [mbind option_bind]; rewrite Hp; destruct x; reflexivity.
Qed.

Lemma sendRequest_accepted method params timeoutMs (s : LspProcess) :
  accepts method s ->
  let p := length (promises s) in
  let s1 := snd (sendRequest method params timeoutMs s) in
  fst (sendRequest method params timeoutMs s) = p
  /\ promises s1 !! p = Some Pending
  /\ pendingRequests s1 !! requestIdCounter s
     = Some {| promise := p; timeout := length (timers s) |}
  /\ messageBuffer s1 = messageBuffer s
  /\ stdin s1 = stdin s ++ [ {| frame_id := Some (requestIdCounter s);
                                frame_method := method;
                                frame_params := params |} ].
Proof.
  intros Hacc. cbv zeta. unfold sendRequest.
  rewrite (guard_accepts s method Hacc). cbn.
  repeat split.
  - rewrite lookup_app_r by lia. rewrite Nat.sub_diag. reflexivity.
  - apply lookup_insert_eq.
Qed.

(** X12.  A request and its response.  When a request is accepted and the
    next thing to arrive is one chunk holding one message that parses and
    carries the identifier of the request, the caller that awaits the
    request gets the [result] of the message, or, if the message has an
    [error], an exception with its text and code; the request was written
    to the server with the identifier, and the event is used up. *)
Theorem request_returns_response
    (key method : string) (params : Params) (timeoutMs : N)
    (w : World) (s : LspProcess) (data : list Byte.byte)
    (payload rest : list N) (message : Message) (later : list Event) :
  map_get key (lspInstances w) = Some s ->
  consistent s ->
  accepts method s ->
  future w = ClientEvent key (StdoutData data) :: later ->
  Framer.handleData (messageBuffer s) data = ([payload], rest) ->
  JSON_parse host payload = Some message ->
  msg_id message = Some (IdNum (requestIdCounter s)) ->
  let r := (p ← call key (sendRequest method params timeoutMs);
            awaitPromise host key p) w in
  fst r = match msg_error message with
          | Some err => Thrown (LspError (err_message err) (err_code err))
          | None => Returned (msg_result message)
          end
  /\ future (snd r) = later.
Proof.
  intros Hkey Hcons Hacc Hfuture Hframe Hparse Hid. cbv zeta.
  destruct (sendRequest_accepted method params timeoutMs s Hacc)
    as (Hp & Hpending & Hentry & Hbuffer & _).
  pose proof (consistent_sendRequest method params timeoutMs s Hcons) as Hcons1.
  rewrite task_bind_unfold. unfold call. rewrite Hkey.
  destruct (sendRequest method params timeoutMs s) as [p s1] eqn:Hreq.
  cbn [fst snd] in *. subst p.
  unfold awaitPromise. cbn [future lspInstances set_instances].
  set (insts1 := map_set key s1 (lspInstances w)).
  assert (H1 : map_get key insts1 = Some s1) by apply map_get_set_eq.
  rewrite Hfuture.
  rewrite (awaitPromise_loop_settled key _ _ insts1 s1 Pending H1 Hpending).
  set (s2 := dispatch host (StdoutData data) s1).
  assert (Hdeliver : deliver host (ClientEvent key (StdoutData data)) insts1
                     = map_set key s2 insts1).
  { cbn [deliver]. rewrite H1. reflexivity. }
  rewrite Hdeliver.
  assert (H2 : map_get key (map_set key s2 insts1) = Some s2) by apply map_get_set_eq.
  assert (Hsettled : promises s2 !! length (promises s) = Some (outcome message)).
  { unfold s2, dispatch.
    destruct (_initialize_resume_requests
                (_handleData host data s1)) as (_ & -> & _).
    unfold _handleData. rewrite Hbuffer, Hframe. cbn [fold_left]. rewrite Hparse.
    assert (Hc : consistent (set_messageBuffer rest s1))
      by (eapply consistent_same; [..|exact Hcons1]; reflexivity).
    destruct (handleMessage_response host (set_messageBuffer rest s1) message
                (requestIdCounter s)
                {| promise := length (promises s); timeout := length (timers s) |}
                Hc Hid Hentry) as (H & _).
    exact H. }
  rewrite (awaitPromise_loop_settled key _ later _ s2 (outcome message) H2 Hsettled).
  unfold outcome. destruct (msg_error message); split; reflexivity.
Qed.

End RoundTrip.

Lemma settled_promise_is_final_witness :
  Lsp.promises
    (Trace.run Demo.demoHost
       [Trace.AEvent (Lsp.StdoutData (Demo.responseData 1 (Js.codes "null")));
        Trace.AEvent (Lsp.TimeoutEvent 0);
        Trace.AEvent Lsp.ExitEvent]
       Demo.readyClient) !! 0%nat
  = Some (Lsp.Fulfilled (Lsp.VObject (Some []))).
Proof.
  apply (settled_promise_is_final Demo.demoHost Demo.typescript
           [Trace.AEvent (Lsp.StdoutData (Demo.responseData 1 Demo.capabilitiesText))]
           [Trace.AEvent (Lsp.StdoutData (Demo.responseData 1 (Js.codes "null")));
            Trace.AEvent (Lsp.TimeoutEvent 0);
            Trace.AEvent Lsp.ExitEvent]
           0%nat (Lsp.Fulfilled (Lsp.VObject (Some [])))).
  - vm_compute. reflexivity.
  - discriminate.
Defined.

Lemma response_settles_its_request_witness :
  let s := snd (Lsp.sendRequest "textDocument/completion"
                  (Lsp.PPosition "file:///project/a.ts" 0 0) 5000
                  Demo.readyClient) in
  let s' := Lsp._handleMessage Demo.demoHost
              (Demo.response 2 (Lsp.VOpaque "items")) s in
  Lsp.promises s' !! 1%nat = Some (Lsp.Fulfilled (Lsp.VOpaque "items"))
  /\ Lsp.timers s' !! 1%nat = Some Lsp.Cleared
  /\ Lsp.pendingRequests s' = delete 2 (Lsp.pendingRequests s).
Proof.
  cbv zeta.
  destruct (response_settles_its_request Demo.demoHost
              (snd (Lsp.sendRequest "textDocument/completion"
                      (Lsp.PPosition "file:///project/a.ts" 0 0) 5000
                      Demo.readyClient))
              (Demo.response 2 (Lsp.VOpaque "items")) 2
              {| Lsp.promise := 1; Lsp.timeout := 1 |})
    as (H1 & H2 & H3 & _).
  - apply consistent_sendRequest, consistent_run, consistent_new.
  - reflexivity.
  - vm_compute. reflexivity.
  - split; [exact H1|]. split; [exact H3|exact H2].
Defined.

Lemma published_diagnostics_are_returned_witness :
  let message := Requests.publishDiagnostics "untitled:1" ["unused variable"] in
  Lsp.getDiagnosticsForFile "untitled:1"
    (Lsp._handleMessage Demo.demoHost message Demo.readyClient)
  = ["unused variable"].
Proof.
  cbv zeta.
  destruct (published_diagnostics_are_returned Demo.demoHost Demo.readyClient
              (Requests.publishDiagnostics "untitled:1" ["unused variable"])
              {| Lsp.pd_uri := "untitled:1";
                 Lsp.pd_diagnostics := ["unused variable"] |}
              "untitled:1") as (H & _).
  - exact I.
  - reflexivity.
  - reflexivity.
  - vm_compute. reflexivity.
  - exact H.
Defined.

Lemma posix_diagnostics_miss_the_file_witness :
  let uri := "file:///project/src/a.ts" in
  let s' := Lsp._handleMessage Demo.demoHost
              (Requests.publishDiagnostics uri ["unused variable"])
              Demo.readyClient in
  Lsp._pathToUri Demo.demoHost "/project/src/a.ts" = inr uri
  /\ Lsp.getDiagnosticsForFile "/project/src/a.ts" s' = []
  /\ Lsp.getDiagnosticsForFile "project/src/a.ts" s' = ["unused variable"].
Proof.
  cbv zeta.
  destruct (posix_diagnostics_miss_the_file Demo.demoHost Demo.readyClient
              "project/src/a.ts" ["unused variable"])
    as (H1 & _ & _ & H2 & H3).
  - reflexivity.
  - vm_compute. reflexivity.
  - reflexivity.
  - split; [exact H1|]. split; [|exact H3].
    transitivity (Lsp.getDiagnosticsForFile "/project/src/a.ts" Demo.readyClient);
      [exact H2|vm_compute; reflexivity].
Defined.

Lemma request_returns_response_witness :
  let w := Demo.readyWorld ∅
             [ Service.ClientEvent "typescript"
                 (Lsp.StdoutData (Demo.responseData 2 (Js.codes "null")));
               Service.Completion false ] in
  let r := (p ← Service.call "typescript"
                  (Lsp.sendRequest "textDocument/completion"
                     (Lsp.PPosition "file:///project/a.ts" 0 0) 5000);
            Service.awaitPromise Demo.demoHost "typescript" p) w in
  fst r = Service.Returned Lsp.VNull
  /\ Service.future (snd r) = [Service.Completion false].
Proof.
  cbv zeta.
  apply (request_returns_response Demo.demoHost "typescript"
           "textDocument/completion" (Lsp.PPosition "file:///project/a.ts" 0 0) 5000
           (Demo.readyWorld ∅
              [ Service.ClientEvent "typescript"
                  (Lsp.StdoutData (Demo.responseData 2 (Js.codes "null")));
                Service.Completion false ])
           Demo.readyClient
           (Demo.responseData 2 (Js.codes "null"))
           (Demo.responseText 2 (Js.codes "null")) []
           (Demo.response 2 Lsp.VNull) [Service.Completion false]).
  - reflexivity.
  - apply consistent_run, consistent_new.
  - split; [vm_compute; eexists; reflexivity | left; vm_compute; reflexivity].
  - reflexivity.
  - vm_compute. reflexivity.
  - vm_compute. reflexivity.
  - vm_compute. reflexivity.
Defined.

(** ** The handshake, and the life of a client *)

Section HandshakeMore.
Import Lsp Service Trace Handshake.
Context (host : Host).

Lemma new_LspProcess_fields (lspConfig : LspConfig) :
  let s0 := new_LspProcess host lspConfig in
  messageBuffer s0 = []
  /\ pendingRequests s0 = <[1 := {| promise := 0%nat; timeout := 0%nat |}]> ∅
  /\ promises s0 = [Pending]
  /\ stdin s0 = [initializeFrame host]
  /\ isInitialized s0 = false
  /\ initializationPromise s0 = Some (InitAwaiting 0)
  /\ process s0 = Some tt.
Proof. cbv zeta. repeat split; reflexivity. Qed.

(** X13.  The handshake.  A client is created with the request [initialize]
    written, as request 1, and waits.  When the first data from the server
    is the response to that request, then: if the response has a result
    with [capabilities], the client writes the notification [initialized]
    (which the guard of [sendNotification] lets through although the
    client is not yet initialized) and is initialized; if the response has
    an error, or a result without [capabilities], the client writes
    nothing, is not initialized, and its initialization promise is
    rejected, so that no later call can use it. *)
Theorem handshake_outcome
    (lspConfig : LspConfig) (data : list Byte.byte) (payload rest : list N)
    (message : Message) :
  Framer.handleData [] data = ([payload], rest) ->
  JSON_parse host payload = Some message ->
  msg_id message = Some (IdNum 1) ->
  let s0 := new_LspProcess host lspConfig in
  let s := dispatch host (StdoutData data) s0 in
  stdin s0 = [initializeFrame host]
  /\ isInitialized s0 = false
  /\ initializationPromise s = Some (handshakeOutcome message)
  /\ isInitialized s = accepted message
  /\ stdin s = (if accepted message
                then [initializeFrame host; initializedFrame]
                else [initializeFrame host])
  /\ pendingRequests s = ∅
  /\ process s = Some tt.
Proof.
  intros Hframe Hparse Hid. cbv zeta.
  destruct (new_LspProcess_fields lspConfig)
    as (Hbuffer & Hpending & Hpromises & Hstdin & Hinit & Hawait & Hprocess).
  pose proof (consistent_new host lspConfig) as Hcons.
  set (s0 := new_LspProcess host lspConfig) in *. clearbody s0.
  split; [exact Hstdin|]. split; [exact Hinit|].
  unfold dispatch, _handleData. rewrite Hbuffer, Hframe. cbn [fold_left].
  rewrite Hparse.
  set (s1 := set_messageBuffer rest s0).
  assert (Hcons1 : consistent s1)
    by (eapply consistent_same; [..|exact Hcons]; reflexivity).
  assert (Hentry : pendingRequests s1 !! 1
                   = Some {| promise := 0%nat; timeout := 0%nat |}).
  { unfold s1. cbn [pendingRequests set_messageBuffer].
    rewrite Hpending. apply lookup_insert_eq. }
  destruct (handleMessage_response host s1 message 1 _ Hcons1 Hid Hentry)
    as (Hp & Hpend & _ & _ & _ & _ & Hin).
  destruct (sameSession_handleMessage host message s1)
    as (_ & _ & Hproc & Hi & Hip).
  set (s2 := _handleMessage host message s1) in *. clearbody s2.
  cbn [promise] in Hp.
  assert (Hpend2 : pendingRequests s2 = ∅).
  { rewrite Hpend. unfold s1. cbn [pendingRequests set_messageBuffer].
    rewrite Hpending, delete_insert_eq. apply delete_empty. }
  assert (Hstdin2 : stdin s2 = [initializeFrame host]) by (rewrite Hin; exact Hstdin).
  assert (Hproc2 : process s2 = Some tt) by (rewrite Hproc; exact Hprocess).
  assert (Hip2 : initializationPromise s2 = Some (InitAwaiting 0))
    by (rewrite Hip; exact Hawait).
  clear Hpend Hin Hproc Hip Hi Hentry Hcons1. clearbody s1.
  unfold _initialize_resume. rewrite Hip2, Hp.
  unfold Requests.outcome, handshakeOutcome, accepted.
  destruct (msg_error message) as [err|].
  - cbn [initializationPromise isInitialized stdin pendingRequests process
         set_initializationPromise set_isInitialized].
    repeat split; assumption.
  - destruct (capabilityKeys (msg_result message)) as [keys|].
    + unfold sendNotification. rewrite Hproc2.
      replace (negb (bool_decide (is_Some (Some ())))
               || negb (isInitialized s2)
                  && negb (String.eqb "initialized" "initialized"))
        with false by (destruct (isInitialized s2); reflexivity).
      cbn [initializationPromise isInitialized stdin pendingRequests process
           set_initializationPromise set_isInitialized set_stdin].
      rewrite Hstdin2. repeat split; assumption.
    + cbn [initializationPromise isInitialized stdin pendingRequests process
           set_initializationPromise set_isInitialized].
      repeat split; assumption.
Qed.


Lemma initialize_resume_gone (s : LspProcess) :
  process s = None ->
  process (_initialize_resume s) = None
  /\ stdin (_initialize_resume s) = stdin s.
Proof.
  intros Hs. unfold _initialize_resume.
  destruct (initializationPromise s) as [[p| |]|]; try (split; [exact Hs|reflexivity]).
  destruct (promises s !! p) as [[|v|e]|]; try (split; [exact Hs|reflexivity]).
  destruct (capabilityKeys v); [|split; [exact Hs|reflexivity]].
  unfold sendNotification. rewrite Hs. split; [exact Hs|reflexivity].
Qed.

Lemma act_gone (a : Action) (s : LspProcess) :
  process s = None ->
  process (act host a s) = None /\ stdin (act host a s) = stdin s.
Proof.
  intros Hs.
  destruct a as [e|method params timeoutMs|method params| | | |]; cbn [act].
  - unfold dispatch.
    assert (H : process (match e with
                         | StdoutData data => _handleData host data s
                         | ExitEvent => onExit s
                         | ErrorEvent => onError s
                         | TimeoutEvent t => timeoutExpires t s
                         end) = None
                /\ stdin (match e with
                          | StdoutData data => _handleData host data s
                          | ExitEvent => onExit s
                          | ErrorEvent => onError s
                          | TimeoutEvent t => timeoutExpires t s
                          end) = stdin s).
    { destruct e as [data| | |t].
      - destruct (sameSession_handleData host data s) as (Hin & _ & Hp & _).
        split; congruence.
      - split; reflexivity.
      - split; reflexivity.
      - destruct (sameSession_timeoutExpires t s) as (Hin & _ & Hp & _).
        split; congruence. }
    destruct H as [Hp Hin].
    destruct (initialize_resume_gone _ Hp) as [H1 H2]. split; congruence.
  - unfold sendRequest. rewrite Hs. split; [exact Hs|reflexivity].
  - unfold sendNotification. rewrite Hs. split; [exact Hs|reflexivity].
  - split; [exact Hs|reflexivity].
  - split; [exact Hs|reflexivity].
  - split; [exact Hs|reflexivity].
  - split; reflexivity.
Qed.

(** X14.  There is no restart.  Once a client has lost its process handle
    it never gets one again, whatever happens to it afterwards -- data,
    timers, requests, notifications -- and so every request made of it
    from then on is rejected at once and nothing more is written to the
    server. *)
Theorem lost_process_is_never_replaced (actions : list Action) (s : LspProcess) :
  process s = None ->
  let s' := run host actions s in
  process s' = None
  /\ stdin s' = stdin s
  /\ forall method params timeoutMs,
       let r := sendRequest method params timeoutMs s' in
       promises (snd r) !! fst r
       = Some (Rejected (NotReady (command (config s')) method)).
Proof.
  intros Hs. cbv zeta.
  assert (H : process (run host actions s) = None
              /\ stdin (run host actions s) = stdin s).
  { revert s Hs. induction actions as [|a actions IH]; intros s Hs; [tauto|].
    cbn [run fold_left].
    destruct (act_gone a s Hs) as [Hp Hin]. destruct (IH _ Hp) as [H1 H2].
    split; [exact H1|]. unfold run in H2. congruence. }
  destruct H as [Hgone Hin]. split; [exact Hgone|]. split; [exact Hin|].
  intros method params timeoutMs. cbv zeta. unfold sendRequest.
  rewrite Hgone. cbn. rewrite lookup_app_r by lia. rewrite Nat.sub_diag.
  reflexivity.
Qed.


(** X15.  A file that cannot be read is not opened.  When the client is
    initialized, the document is not open and its file does not exist,
    [ensureDocumentOpen] throws the error of the read, no [didOpen] is
    written for any document, and the document is still not in
    [openDocuments] -- so the next call tries again. *)
Theorem unreadable_file_is_not_opened
    (key rel a : string) (w : World) (s : LspProcess) :
  map_get key (lspInstances w) = Some s ->
  isInitialized s = true ->
  getAbsolutePath host rel = inr a ->
  openDocuments s !! a = None ->
  files w !! fileAt host a = None ->
  let r := ensureDocumentOpen host key rel w in
  fst r = Thrown (IoError a)
  /\ files (snd r) = files w
  /\ exists s',
       map_get key (lspInstances (snd r)) = Some s'
       /\ openDocuments s' = openDocuments s
       /\ forall uri, opensSent uri (stdin s') = opensSent uri (stdin s).
Proof.
  intros Hs Hi Ha Hclosed Hfile. cbv zeta.
  rewrite (ensureDocumentOpen_initialized host key rel w s a Hs Hi Ha).
  rewrite bool_decide_eq_false_2
    by (rewrite Hclosed; intros [x Hx]; discriminate).
  unfold openBlock. rewrite task_bind_unfold. unfold readFile.
  rewrite task_bind_unfold. unfold awaitCompletion.
  destruct (awaitCompletion_loop_runs host key (future w) (lspInstances w) s Hs)
    as (actions & Hrun & Hevents).
  destruct (awaitCompletion_loop host (future w) (lspInstances w))
    as [failed [insts events]]. cbn [fst snd] in Hrun.
  cbn [files set_future set_instances]. rewrite Hfile.
  cbn [fst snd files lspInstances set_future set_instances].
  split; [reflexivity|]. split; [reflexivity|].
  exists (run host actions s). split; [exact Hrun|].
  destruct (events_session host actions s Hevents)
    as (Hdocs & (extra & Hstdin & Hsilent) & _).
  split; [exact Hdocs|]. intros uri. rewrite Hstdin, opensSent_app.
  destruct (Hsilent uri) as [_ ->]. lia.
Qed.

End HandshakeMore.

Lemma handshake_outcome_witness :
  let s := Lsp.dispatch Demo.demoHost
             (Lsp.StdoutData (Demo.responseData 1 Demo.capabilitiesText))
             (Lsp.new_LspProcess Demo.demoHost Demo.typescript) in
  Lsp.isInitialized s = true
  /\ Lsp.stdin s = [Handshake.initializeFrame Demo.demoHost; Trace.initializedFrame].
Proof.
  cbv zeta.
  destruct (handshake_outcome Demo.demoHost Demo.typescript
              (Demo.responseData 1 Demo.capabilitiesText)
              (Demo.responseText 1 Demo.capabilitiesText) []
              (Demo.response 1 (Lsp.VObject (Some []))))
    as (_ & _ & _ & H4 & H5 & _).
  - vm_compute. reflexivity.
  - vm_compute. reflexivity.
  - reflexivity.
  - split; [exact H4|exact H5].
Defined.

Lemma lost_process_is_never_replaced_witness :
  let s := Lsp.onExit Demo.readyClient in
  let s' := Trace.run Demo.demoHost
              [ Trace.ARequest "textDocument/completion"
                  (Lsp.PPosition "file:///project/a.ts" 0 0) 5000;
                Trace.AEvent (Lsp.StdoutData (Demo.responseData 2 (Js.codes "null")));
                Trace.ANotify "exit" Lsp.PNull ] s in
  Lsp.process s' = None /\ Lsp.stdin s' = Lsp.stdin s.
Proof.
  cbv zeta.
  destruct (lost_process_is_never_replaced Demo.demoHost
              [ Trace.ARequest "textDocument/completion"
                  (Lsp.PPosition "file:///project/a.ts" 0 0) 5000;
                Trace.AEvent (Lsp.StdoutData (Demo.responseData 2 (Js.codes "null")));
                Trace.ANotify "exit" Lsp.PNull ]
              (Lsp.onExit Demo.readyClient))
    as (H1 & H2 & _).
  - reflexivity.
  - split; [exact H1|exact H2].
Defined.

Lemma unreadable_file_is_not_opened_witness :
  let w := Demo.readyWorld ∅ [] in
  fst (Service.ensureDocumentOpen Demo.demoHost "typescript" "src/a.ts" w)
  = Service.Thrown (IoError "/project/src/a.ts")
  /\ Service.files
       (snd (Service.ensureDocumentOpen Demo.demoHost "typescript" "src/a.ts" w))
     = ∅.
Proof.
  cbv zeta.
  destruct (unreadable_file_is_not_opened Demo.demoHost "typescript" "src/a.ts"
              "/project/src/a.ts" (Demo.readyWorld ∅ []) Demo.readyClient)
    as (H1 & H2 & _).
  - reflexivity.
  - vm_compute. reflexivity.
  - reflexivity.
  - vm_compute. reflexivity.
  - reflexivity.
  - split; [exact H1|exact H2].
Defined.

Section Deadline.
Import Lsp Trace Requests.
Context (host : Host).

Lemma sendRequest_timer method params timeoutMs (s : LspProcess) :
  accepts method s ->
  timers (snd (sendRequest method params timeoutMs s)) !! length (timers s)
  = Some (Armed {| task_id := requestIdCounter s;
                   task_promise := length (promises s);
                   task_method := method; task_timeoutMs := timeoutMs |}).
Proof.
  intros Hacc. unfold sendRequest. rewrite (guard_accepts s method Hacc). cbn.
  rewrite lookup_app_r by lia. rewrite Nat.sub_diag. reflexivity.
Qed.

(** X16.  No request waits for ever.  A request that was accepted is settled
    at the latest when its timer fires: whatever happens between the
    request and the expiry of its timer, after the expiry the promise of
    the request is resolved or rejected. *)
Theorem request_settles_by_its_timeout
    (s : LspProcess) (method : string) (params : Params) (timeoutMs : N)
    (before : list Action) :
  consistent s ->
  accepts method s ->
  let p := fst (sendRequest method params timeoutMs s) in
  let s1 := snd (sendRequest method params timeoutMs s) in
  let s2 := run host before s1 in
  let s3 := dispatch host (TimeoutEvent (length (timers s))) s2 in
  settledAt s3 p
  /\ forall later, settledAt (run host later s3) p.
Proof.
  intros Hcons Hacc. cbv zeta.
  pose proof (consistent_sendRequest method params timeoutMs s Hcons) as Hcons1.
  pose proof (sendRequest_timer method params timeoutMs s Hacc) as Htimer.
  destruct (sendRequest_accepted method params timeoutMs s Hacc)
    as (Hp & _).
  rewrite Hp. clear Hp.
  set (s1 := snd (sendRequest method params timeoutMs s)) in *. clearbody s1.
  set (p := length (promises s)) in *.
  set (t := length (timers s)) in *.
  pose proof (consistent_run host before s1 Hcons1) as Hcons2.
  pose proof (evolves_run host before s1 Hcons1) as Hev.
  set (s2 := run host before s1) in *. clearbody s2.
  assert (H3 : settledAt (dispatch host (TimeoutEvent t) s2) p).
  { destruct (ev_timer _ _ Hev t _ Htimer) as [Harmed|Hsettled];
      cbn [task_promise] in *.
    - destruct Hcons2 as (Hpending & Htimers & _).
      pose proof (Htimers t _ Harmed) as Hentry. cbn [task_id task_promise] in Hentry.
      destruct (Hpending _ _ Hentry) as (_ & Hpromise & _). cbn [promise] in Hpromise.
      destruct (timeoutExpires_armed t _ s2 Harmed Hpromise) as (Hrej & _).
      cbn [task_promise] in Hrej.
      unfold dispatch, settledAt.
      destruct (_initialize_resume_requests (timeoutExpires t s2))
        as (_ & -> & _).
      eexists. split; [exact Hrej|discriminate].
    - destruct Hsettled as (x & Hx & Hne).
      exists x. split; [|exact Hne].
      apply (ev_settled _ _ (evolves_act host (AEvent (TimeoutEvent t)) s2 Hcons2)
               p x Hx Hne). }
  split; [exact H3|].
  intros later. destruct H3 as (x & Hx & Hne). exists x. split; [|exact Hne].
  assert (Hcons3 : consistent (dispatch host (TimeoutEvent t) s2))
    by exact (consistent_act host (AEvent (TimeoutEvent t)) s2 Hcons2).
  exact (ev_settled _ _ (evolves_run host later _ Hcons3) p x Hx Hne).
Qed.

End Deadline.

Lemma request_settles_by_its_timeout_witness :
  let request := Lsp.sendRequest "textDocument/completion"
                   (Lsp.PPosition "file:///project/a.ts" 0 0) 5000
                   Demo.readyClient in
  let s3 := Lsp.dispatch Demo.demoHost (Lsp.TimeoutEvent (length (Lsp.timers Demo.readyClient)))
              (Trace.run Demo.demoHost [Trace.AEvent Lsp.ExitEvent] (snd request)) in
  Trace.settledAt s3 (fst request).
Proof.
  cbv zeta.
  destruct (request_settles_by_its_timeout Demo.demoHost Demo.readyClient
              "textDocument/completion" (Lsp.PPosition "file:///project/a.ts" 0 0)
              5000 [Trace.AEvent Lsp.ExitEvent])
    as [H _].
  - apply consistent_run, consistent_new.
  - split; [vm_compute; eexists; reflexivity | left; vm_compute; reflexivity].
  - exact H.
Defined.

(** ** The service *)

Section ServiceMore.
Import Lsp Service Trace Versions Requests.
Context (host : Host).

(** ** The language of a document *)

(** X17.  The language identifier announced for a document.  For every
    server of the table, the identifier sent in [textDocument/didOpen] is
    the first supported one that the test of [ensureDocumentOpen] lets
    through: files ending in [.js] or [.ts] are announced as "javascript"
    (also the TypeScript ones), files ending in [.jsx] or [.tsx] as
    "javascriptreact", and "typescript" is what every other file gets,
    except a file ending in [.vue]. *)
Theorem languageId_by_suffix (absolutePath : string) :
  Forall (fun '(_, lspConfig) =>
            languageIdFor (supportedLanguageIds lspConfig) absolutePath
            = if endsWith ".js" absolutePath || endsWith ".ts" absolutePath
              then "javascript"
              else if endsWith ".jsx" absolutePath || endsWith ".tsx" absolutePath
              then "javascriptreact"
              else if endsWith ".vue" absolutePath then "vue"
              else "typescript")
         lspServers.
Proof.
  repeat constructor. cbn [supportedLanguageIds]. unfold languageIdFor.
  cbn [List.find String.eqb Ascii.eqb Bool.eqb andb orb].
  destruct (endsWith ".js" absolutePath), (endsWith ".ts" absolutePath),
    (endsWith ".jsx" absolutePath), (endsWith ".tsx" absolutePath),
    (endsWith ".vue" absolutePath); reflexivity.
Qed.

(** ** A client that is no longer initialized *)

Lemma awaitInitialization_settled (key : string) (w : World) (s : LspProcess) :
  map_get key (lspInstances w) = Some s ->
  awaitInitialization host key w
  = match initializationPromise s with
    | Some InitFulfilled | None => (Returned tt, w)
    | Some (InitRejected e) => (Thrown e, w)
    | Some (InitAwaiting p) => awaitInitialization host key w
    end.
Proof.
  intros Hs. destruct w as [insts fs events]. cbn in Hs.
  unfold awaitInitialization. cbn [future lspInstances].
  destruct (initializationPromise s) as [[p|  |e]|] eqn:Hi; try reflexivity;
    destruct events; cbn [awaitInitialization_loop]; rewrite Hs;
    cbn [mbind option_bind]; rewrite Hi; reflexivity.
Qed.

Lemma ensureDocumentOpen_not_initialized (key rel : string) (w : World)
    (s : LspProcess) :
  map_get key (lspInstances w) = Some s ->
  isInitialized s = false ->
  match initializationPromise s with
  | Some InitFulfilled | None =>
    ensureDocumentOpen host key rel w
    = (Thrown (CouldNotBeInitialized (command (config s))), w)
  | Some (InitRejected e) => ensureDocumentOpen host key rel w = (Thrown e, w)
  | Some (InitAwaiting _) => True
  end.
Proof.
  intros Hs Hi. unfold ensureDocumentOpen.
  rewrite task_bind_unfold, (self_eq key w s Hs). rewrite Hi. cbn [negb].
  rewrite task_bind_unfold, (awaitInitialization_settled key w s Hs).
  destruct (initializationPromise s) as [[p| |e]|]; try exact I; try reflexivity.
  - rewrite task_bind_unfold, (self_eq key w s Hs), Hi. reflexivity.
  - rewrite task_bind_unfold, (self_eq key w s Hs), Hi. reflexivity.
Qed.

Lemma not_initialized_operations
    (relativeFilePath : string) (w : World) (s : LspProcess) :
  map_get "typescript" (lspInstances w) = Some s ->
  Path.extname relativeFilePath <> ".vue" ->
  isInitialized s = false ->
  initializationPromise s = Some InitFulfilled ->
  let failed {A} : Outcome A * World :=
    (Thrown (CouldNotBeInitialized (command (config s))), w) in
  getDiagnostics host relativeFilePath w = failed
  /\ (forall l c, getCompletions host relativeFilePath l c w = failed)
  /\ (forall l c, findDefinition host relativeFilePath l c w = failed)
  /\ formatDocument host relativeFilePath w = failed.
Proof.
  intros Hs Hext Hi Hp. cbv zeta.
  assert (Hsel : selectOrThrow relativeFilePath w = (Returned "typescript", w)).
  { unfold selectOrThrow. rewrite select_by_extension.
    rewrite (proj2 (String.eqb_neq _ _) Hext), Hs. reflexivity. }
  pose proof (ensureDocumentOpen_not_initialized "typescript" relativeFilePath w s Hs Hi)
    as Hopen.
  rewrite Hp in Hopen.
  repeat split; intros;
    [unfold getDiagnostics|unfold getCompletions|unfold findDefinition
    |unfold formatDocument];
    rewrite task_bind_unfold, Hsel, task_bind_unfold, Hopen; reflexivity.
Qed.

(** X18.  No operation revives a client.  Once a client that had completed
    its handshake is no longer initialized (its server exited, its pipe
    failed, or it was closed), every operation of the service on a file of
    that client throws "could not be initialized" at once, leaving
    everything as it is: nothing is sent, no file is read, and the server
    is not started again. *)
Theorem operations_fail_after_exit
    (relativeFilePath : string) (w : World) (s : LspProcess) :
  map_get "typescript" (lspInstances w) = Some s ->
  Path.extname relativeFilePath <> ".vue" ->
  isInitialized s = false ->
  initializationPromise s = Some InitFulfilled ->
  let failed {A} : Outcome A * World :=
    (Thrown (CouldNotBeInitialized (command (config s))), w) in
  getDiagnostics host relativeFilePath w = failed
  /\ (forall l c, getCompletions host relativeFilePath l c w = failed)
  /\ (forall l c, findDefinition host relativeFilePath l c w = failed)
  /\ formatDocument host relativeFilePath w = failed.
Proof. exact (not_initialized_operations relativeFilePath w s). Qed.


(** ** After [close] *)

Lemma sessionStep_gone (s s' : LspProcess) :
  sessionStep host anyPath s s' -> process s = None -> process s' = None.
Proof.
  intros Hstep Hs. destruct Hstep.
  - unfold dispatch.
    destruct (_initialize_resume_requests
                (match e with
                 | StdoutData data => _handleData host data s
                 | ExitEvent => onExit s
                 | ErrorEvent => onError s
                 | TimeoutEvent t => timeoutExpires t s
                 end)) as (_ & _ & _ & -> & _).
    destruct e as [data| | |t]; try reflexivity.
    + destruct (sameSession_handleData host data s) as (_ & _ & -> & _). exact Hs.
    + destruct (sameSession_timeoutExpires t s) as (_ & _ & -> & _). exact Hs.
  - destruct (sendRequest_session method params timeoutMs s) as (-> & _). exact Hs.
  - rewrite sendNotification_process. exact Hs.
  - exact Hs.
  - exact Hs.
  - reflexivity.
  - unfold opened. cbn [process set_openDocuments].
    rewrite sendNotification_process. exact Hs.
  - unfold changed. rewrite sendNotification_process. exact Hs.
Qed.

Lemma steps_gone (s s' : LspProcess) :
  rtc (sessionStep host anyPath) s s' -> process s = None -> process s' = None.
Proof.
  induction 1 as [|s1 s2 s3 Hstep _ IH]; [tauto|].
  intros Hs. apply IH. exact (sessionStep_gone _ _ Hstep Hs).
Qed.

Lemma advances_gone (key : string) insts insts' :
  advances host anyPath insts insts' ->
  holds key (fun s => process s = None) insts ->
  holds key (fun s => process s = None) insts'.
Proof.
  intros Hadv (s & Hs & Hgone). specialize (Hadv key). rewrite Hs in Hadv.
  destruct Hadv as (s' & Hs' & Hsteps). exists s'. split; [exact Hs'|].
  exact (steps_gone _ _ Hsteps Hgone).
Qed.

Lemma close_gone (key : string) (w : World) :
  holds key (fun s => process s = None) (lspInstances w) ->
  close host key w = (Returned tt, w).
Proof.
  intros (s & Hs & Hgone). unfold close.
  rewrite task_bind_unfold, (self_eq key w s Hs), Hgone. reflexivity.
Qed.

Lemma close_returned (key : string) (w w' : World) (u : unit) :
  is_Some (map_get key (lspInstances w)) ->
  close host key w = (Returned u, w') ->
  holds key (fun s => process s = None) (lspInstances w').
Proof.
  intros [s Hs] Hclose.
  destruct (process s) as [[]|] eqn:Hproc.
  2:{ rewrite close_gone in Hclose by (exists s; split; assumption).
      injection Hclose as _ <-. exists s. split; assumption. }
  rewrite (close_unfold host key w s Hs) in Hclose by (rewrite Hproc; eexists; reflexivity).
  unfold try_finally in Hclose.
  set (body := try_catch _ _) in Hclose.
  assert (Hbody : exists s1, map_get key (lspInstances (snd (body w))) = Some s1).
  { assert (Hspec : spec host anyPath anything body (fun _ _ => True)).
    { unfold body. apply spec_try_catch; [|intros e; apply spec_mret_any].
      destruct (isInitialized s); [|apply spec_mret_any].
      apply spec_bind_any; [apply spec_request_any; exact I|].
      intros p. apply spec_bind_any; [|intros v; apply spec_mret_any].
      apply spec_weak with (Q := fun _ i => anything i).
      apply spec_awaitPromise. apply stable_true. }
    destruct (Hspec w I) as [Hadv _]. specialize (Hadv key). rewrite Hs in Hadv.
    destruct Hadv as (s1 & Hs1 & _). exists s1. exact Hs1. }
  destruct Hbody as [s1 Hs1].
  destruct (body w) as [r w1]. cbn [snd] in Hs1.
  destruct r as [a|e|]; [| |discriminate].
  - destruct (process s1) as [[]|] eqn:Hproc1.
    + rewrite (closeFinally_live key w1 s1 Hs1) in Hclose
        by (rewrite Hproc1; eexists; reflexivity).
      injection Hclose as _ <-. exists (killed s1). cbn [lspInstances set_instances].
      split; [apply map_get_set_eq|]. apply killed_fields.
    + pose proof (closeFinally_gone key w1 s1 Hs1 Hproc1) as Hthrown.
      destruct (closeFinally key w1) as [[|e|] w2]; cbn in Hthrown;
        discriminate.
  - destruct (process s1) as [[]|] eqn:Hproc1.
    + rewrite (closeFinally_live key w1 s1 Hs1) in Hclose
        by (rewrite Hproc1; eexists; reflexivity).
      discriminate.
    + pose proof (closeFinally_gone key w1 s1 Hs1 Hproc1) as Hthrown.
      destruct (closeFinally key w1) as [[|e'|] w2]; cbn in Hthrown;
        discriminate.
Qed.

(** X19.  A closed client refuses everything.  When [close] has returned,
    the client has no process handle, and from then on every request, the
    handshake request included, is rejected at once with "not ready or
    process not running" and every notification is dropped, nothing being
    written. *)
Theorem closed_client_refuses_everything (key : string) (w w' : World) :
  is_Some (map_get key (lspInstances w)) ->
  close host key w = (Returned tt, w') ->
  exists s',
    map_get key (lspInstances w') = Some s'
    /\ process s' = None
    /\ (forall method params timeoutMs,
          let r := sendRequest method params timeoutMs s' in
          promises (snd r) !! fst r
            = Some (Rejected (NotReady (command (config s')) method))
          /\ stdin (snd r) = stdin s')
    /\ (forall method params, sendNotification method params s' = s').
Proof.
  intros Hkey Hclose.
  destruct (close_returned key w w' tt Hkey Hclose) as (s' & Hs' & Hgone).
  exists s'. split; [exact Hs'|]. split; [exact Hgone|]. split.
  - intros method params timeoutMs. cbv zeta. unfold sendRequest.
    rewrite Hgone. cbn. split; [|reflexivity].
    rewrite lookup_app_r by lia. rewrite Nat.sub_diag. reflexivity.
  - intros method params. unfold sendNotification. rewrite Hgone. reflexivity.
Qed.

(** ** [shutdownAll] a second time *)

Lemma map_get_keys {V} (key : string) (m : list (string * V)) :
  In key (map fst m) <-> is_Some (map_get key m).
Proof.
  induction m as [|[k v] m IH]; cbn [map fst In map_get].
  - split; [tauto|]. intros [x Hx]. discriminate.
  - destruct (String.eqb_spec k key) as [->|Hne].
    + split; [eexists; reflexivity|tauto].
    + rewrite <- IH. split; [|tauto]. intros [E|H]; [congruence|exact H].
Qed.

Lemma closeEach_gone (keys : list string) (w : World) :
  Forall (fun key => holds key (fun s => process s = None) (lspInstances w)) keys ->
  closeEach host keys w = (Returned tt, w).
Proof.
  induction 1 as [|key keys Hkey _ IH]; [reflexivity|].
  rewrite closeEach_cons, (close_gone key w Hkey). exact IH.
Qed.

Lemma closeEach_returned (keys : list string) (w w' : World) :
  Forall (fun key => is_Some (map_get key (lspInstances w))) keys ->
  closeEach host keys w = (Returned tt, w') ->
  Forall (fun key => holds key (fun s => process s = None) (lspInstances w')) keys.
Proof.
  revert w. induction keys as [|key keys IH]; intros w Hkeys Hclose; [constructor|].
  apply Forall_cons in Hkeys as [Hkey Hkeys].
  rewrite closeEach_cons in Hclose.
  destruct (close host key w) as [[[]|e|] w1] eqn:Hfirst; try discriminate.
  pose proof (close_returned key w w1 tt Hkey Hfirst) as Hgone.
  destruct (spec_close host anyPath key w I) as [Hadv1 _]. rewrite Hfirst in Hadv1.
  cbn [snd] in Hadv1.
  destruct (spec_closeEach host anyPath keys w1 I) as [Hadv _]. rewrite Hclose in Hadv.
  cbn [snd] in Hadv.
  constructor.
  - exact (advances_gone key _ _ Hadv Hgone).
  - apply (IH w1); [|exact Hclose].
    eapply Forall_impl; [exact Hkeys|]. intros k [s Hs]. cbn beta in *.
    specialize (Hadv1 k). rewrite Hs in Hadv1.
    destruct Hadv1 as (s' & -> & _). eexists; reflexivity.
Qed.

(** X20.  Shutting down twice is shutting down once.  When [shutdownAll]
    has returned, every client of the service is without a process, and a
    second [shutdownAll] returns at once and changes nothing: no request,
    no notification, no signal. *)
Theorem shutdownAll_twice (w w' : World) :
  shutdownAll host w = (Returned tt, w') ->
  shutdownAll host w' = (Returned tt, w')
  /\ forall key s', map_get key (lspInstances w') = Some s' -> process s' = None.
Proof.
  intros Hshut.
  assert (Hall : forall key, is_Some (map_get key (lspInstances w')) ->
                 holds key (fun s => process s = None) (lspInstances w')).
  { intros key Hkey.
    destruct (spec_shutdownAll host anyPath w I) as [Hadv _]. rewrite Hshut in Hadv.
    cbn [snd] in Hadv. pose proof (Hadv key) as Hk.
    destruct (map_get key (lspInstances w)) as [s|] eqn:Hs.
    - unfold shutdownAll in Hshut.
      assert (Hkeys : Forall (fun k => is_Some (map_get k (lspInstances w)))
                             (map fst (lspInstances w))).
      { apply Forall_forall. intros k Hk'. apply map_get_keys.
        apply list_elem_of_In. exact Hk'. }
      pose proof (closeEach_returned _ w w' Hkeys Hshut) as Hret.
      rewrite Forall_forall in Hret. apply Hret.
      apply list_elem_of_In. apply map_get_keys. rewrite Hs. eexists; reflexivity.
    - rewrite Hk in Hkey. destruct Hkey as [x Hx]. discriminate. }
  split.
  - unfold shutdownAll. apply closeEach_gone. apply Forall_forall. intros key Hkey.
    apply Hall. apply map_get_keys. apply list_elem_of_In. exact Hkey.
  - intros key s' Hs'. destruct (Hall key) as (s'' & Hs'' & Hgone).
    + rewrite Hs'. eexists; reflexivity.
    + congruence.
Qed.

End ServiceMore.

Lemma returned_eta {A} (x : Service.Outcome A * Service.World) (a : A) :
  fst x = Service.Returned a -> x = (Service.Returned a, snd x).
Proof. destruct x as [r w]. cbn. intros ->. reflexivity. Qed.

Lemma operations_fail_after_exit_witness :
  let w := {| Service.lspInstances :=
                [("typescript",
                  Lsp.dispatch Demo.demoHost Lsp.ExitEvent Demo.readyClient)];
              Service.files := ∅; Service.future := [] |} in
  Service.getCompletions Demo.demoHost "src/a.ts" 0 0 w
  = (Service.Thrown (CouldNotBeInitialized "typescript-language-server"), w)
  /\ Service.formatDocument Demo.demoHost "src/a.ts" w
     = (Service.Thrown (CouldNotBeInitialized "typescript-language-server"), w).
Proof.
  cbv zeta.
  destruct (operations_fail_after_exit Demo.demoHost "src/a.ts"
              {| Service.lspInstances :=
                   [("typescript",
                     Lsp.dispatch Demo.demoHost Lsp.ExitEvent Demo.readyClient)];
                 Service.files := ∅; Service.future := [] |}
              (Lsp.dispatch Demo.demoHost Lsp.ExitEvent Demo.readyClient))
    as (_ & H2 & _ & H4).
  - reflexivity.
  - intros H. vm_compute in H. discriminate H.
  - vm_compute. reflexivity.
  - vm_compute. reflexivity.
  - split; [exact (H2 0%nat 0%nat)|exact H4].
Defined.

Lemma closed_client_refuses_everything_witness :
  let w := Service.new_LspService Demo.demoHost ∅ [] in
  exists s',
    Service.map_get "typescript"
      (Service.lspInstances (snd (Service.close Demo.demoHost "typescript" w)))
    = Some s'
    /\ Lsp.process s' = None
    /\ Lsp.sendNotification "exit" Lsp.PNull s' = s'.
Proof.
  cbv zeta.
  destruct (closed_client_refuses_everything Demo.demoHost "typescript"
              (Service.new_LspService Demo.demoHost ∅ [])
              (snd (Service.close Demo.demoHost "typescript"
                      (Service.new_LspService Demo.demoHost ∅ []))))
    as (s' & H1 & H2 & _ & H4).
  - vm_compute. eexists. reflexivity.
  - apply returned_eta. vm_compute. reflexivity.
  - exists s'. split; [exact H1|]. split; [exact H2|]. apply H4.
Defined.

Lemma shutdownAll_twice_witness :
  let w := Service.new_LspService Demo.demoHost ∅ [] in
  let w' := snd (Service.shutdownAll Demo.demoHost w) in
  Service.shutdownAll Demo.demoHost w' = (Service.Returned tt, w').
Proof.
  cbv zeta.
  apply (shutdownAll_twice Demo.demoHost (Service.new_LspService Demo.demoHost ∅ [])).
  apply returned_eta. vm_compute. reflexivity.
Defined.

(** ** The files *)

Section FilesKept.
Import EditApplier Lsp Service Trace Files.
Context (host : Host).

Lemma keepsFiles_mret {A} (a : A) : keepsFiles (mret a).
Proof. intros w. reflexivity. Qed.

Lemma keepsFiles_throw {A} (e : Error) : keepsFiles (@throw A e).
Proof. intros w. reflexivity. Qed.

Lemma keepsFiles_liftE {A} (r : Error + A) : keepsFiles (liftE r).
Proof. intros w. destruct r; reflexivity. Qed.

Lemma keepsFiles_bind {A B} (m : Task A) (f : A -> Task B) :
  keepsFiles m -> (forall a, keepsFiles (f a)) -> keepsFiles (m ≫= f).
Proof.
  intros Hm Hf w. rewrite task_bind_unfold. specialize (Hm w).
  destruct (m w) as [[a|e|] w1]; cbn [snd] in *; [|exact Hm|exact Hm].
  rewrite (Hf a w1). exact Hm.
Qed.

Lemma keepsFiles_try_catch {A} (body : Task A) (handler : Error -> Task A) :
  keepsFiles body -> (forall e, keepsFiles (handler e)) ->
  keepsFiles (try_catch body handler).
Proof.
  intros Hm Hf w. unfold try_catch. specialize (Hm w).
  destruct (body w) as [[a|e|] w1]; cbn [snd] in *; [exact Hm| |exact Hm].
  rewrite (Hf e w1). exact Hm.
Qed.

Lemma keepsFiles_try_finally {A} (body : Task A) (final : Task unit) :
  keepsFiles body -> keepsFiles final -> keepsFiles (try_finally body final).
Proof.
  intros Hm Hf w. unfold try_finally. specialize (Hm w).
  destruct (body w) as [[a|e|] w1]; cbn [snd] in *; [| |exact Hm];
    specialize (Hf w1); destruct (final w1) as [[[]|e'|] w2]; cbn [snd] in *;
    congruence.
Qed.

Lemma keepsFiles_self (key : string) : keepsFiles (self key).
Proof. intros w. unfold self. destruct (map_get key (lspInstances w)); reflexivity. Qed.

Lemma keepsFiles_call {A} (key : string) (f : LspProcess -> A * LspProcess) :
  keepsFiles (call key f).
Proof.
  intros w. unfold call. destruct (map_get key (lspInstances w)) as [s|];
    [|reflexivity]. destruct (f s). reflexivity.
Qed.

Lemma keepsFiles_update (key : string) (f : LspProcess -> LspProcess) :
  keepsFiles (update key f).
Proof. apply keepsFiles_call. Qed.

Lemma keepsFiles_awaitPromise (key : string) (p : nat) :
  keepsFiles (awaitPromise host key p).
Proof.
  intros w. unfold awaitPromise.
  destruct (awaitPromise_loop host key p (future w) (lspInstances w))
    as [r [insts events]]. reflexivity.
Qed.

Lemma keepsFiles_awaitInitialization (key : string) :
  keepsFiles (awaitInitialization host key).
Proof.
  intros w. unfold awaitInitialization.
  destruct (awaitInitialization_loop host key (future w) (lspInstances w))
    as [r [insts events]]. reflexivity.
Qed.

Lemma keepsFiles_awaitCompletion : keepsFiles (awaitCompletion host).
Proof.
  intros w. unfold awaitCompletion.
  destruct (awaitCompletion_loop host (future w) (lspInstances w))
    as [r [insts events]]. reflexivity.
Qed.

Lemma keepsFiles_readFile (path : string) : keepsFiles (readFile host path).
Proof.
  apply keepsFiles_bind; [apply keepsFiles_awaitCompletion|].
  intros failed w. destruct (files w !! fileAt host path); [destruct failed|];
    reflexivity.
Qed.

Lemma keepsFiles_select (rel : string) : keepsFiles (selectOrThrow rel).
Proof.
  intros w. unfold selectOrThrow.
  destruct (_getLspInstanceForFile rel w); reflexivity.
Qed.

Lemma keepsFiles_ensureDocumentOpen (key rel : string) :
  keepsFiles (ensureDocumentOpen host key rel).
Proof.
  unfold ensureDocumentOpen.
  apply keepsFiles_bind; [apply keepsFiles_self|]. intros this.
  apply keepsFiles_bind.
  { destruct (negb (isInitialized this));
      [apply keepsFiles_awaitInitialization|apply keepsFiles_mret]. }
  intros _. apply keepsFiles_bind; [apply keepsFiles_self|]. intros this'.
  destruct (negb (isInitialized this')); [apply keepsFiles_throw|].
  apply keepsFiles_bind; [apply keepsFiles_liftE|]. intros a.
  apply keepsFiles_bind; [|intros u; apply keepsFiles_mret].
  destruct (negb _); [|apply keepsFiles_mret].
  apply keepsFiles_bind; [apply keepsFiles_readFile|]. intros content.
  apply keepsFiles_bind; [apply keepsFiles_liftE|]. intros uri.
  apply keepsFiles_bind; [apply keepsFiles_update|]. intros u.
  apply keepsFiles_update.
Qed.

Lemma keepsFiles_notifyChange (lsp a : string) (text : list N) :
  keepsFiles (notifyChange host lsp a text).
Proof.
  unfold notifyChange.
  apply keepsFiles_bind; [apply keepsFiles_self|]. intros this.
  apply keepsFiles_bind; [apply keepsFiles_update|]. intros u.
  apply keepsFiles_bind; [apply keepsFiles_liftE|]. intros uri.
  apply keepsFiles_update.
Qed.

Lemma keepsFiles_close (key : string) : keepsFiles (close host key).
Proof.
  unfold close.
  apply keepsFiles_bind; [apply keepsFiles_self|]. intros this.
  destruct (bool_decide _); [|apply keepsFiles_mret].
  apply keepsFiles_try_finally.
  - apply keepsFiles_try_catch; [|intros e; apply keepsFiles_mret].
    destruct (isInitialized this); [|apply keepsFiles_mret].
    apply keepsFiles_bind; [apply keepsFiles_call|]. intros p.
    apply keepsFiles_bind; [apply keepsFiles_awaitPromise|]. intros v.
    apply keepsFiles_mret.
  - unfold closeFinally.
    apply keepsFiles_bind; [apply keepsFiles_update|]. intros u.
    apply keepsFiles_bind; [apply keepsFiles_self|]. intros this'.
    destruct (process this'); [|apply keepsFiles_throw].
    apply keepsFiles_bind; [apply keepsFiles_update|]. intros u1.
    apply keepsFiles_bind; [apply keepsFiles_update|]. intros u2.
    apply keepsFiles_update.
Qed.

Lemma keepsFiles_closeEach (keys : list string) : keepsFiles (closeEach host keys).
Proof.
  induction keys as [|key keys IH]; [apply keepsFiles_mret|].
  cbn [closeEach]. apply keepsFiles_bind; [apply keepsFiles_close|].
  intros u. exact IH.
Qed.

Lemma keepsFiles_getDiagnostics (relativeFilePath : string) :
  keepsFiles (getDiagnostics host relativeFilePath).
Proof.
  unfold getDiagnostics.
  apply keepsFiles_bind; [apply keepsFiles_select|]. intros lsp.
  apply keepsFiles_bind; [apply keepsFiles_ensureDocumentOpen|]. intros a.
  apply keepsFiles_bind; [apply keepsFiles_awaitCompletion|]. intros b.
  apply keepsFiles_bind; [apply keepsFiles_self|]. intros this.
  apply keepsFiles_mret.
Qed.

Lemma keepsFiles_getCompletions (relativeFilePath : string) (l c : nat) :
  keepsFiles (getCompletions host relativeFilePath l c).
Proof.
  unfold getCompletions.
  apply keepsFiles_bind; [apply keepsFiles_select|]. intros lsp.
  apply keepsFiles_bind; [apply keepsFiles_ensureDocumentOpen|]. intros a.
  apply keepsFiles_bind; [apply keepsFiles_liftE|]. intros uri.
  apply keepsFiles_bind; [apply keepsFiles_call|]. intros p.
  apply keepsFiles_awaitPromise.
Qed.

Lemma keepsFiles_findDefinition (relativeFilePath : string) (l c : nat) :
  keepsFiles (findDefinition host relativeFilePath l c).
Proof.
  unfold findDefinition.
  apply keepsFiles_bind; [apply keepsFiles_select|]. intros lsp.
  apply keepsFiles_bind; [apply keepsFiles_ensureDocumentOpen|]. intros a.
  apply keepsFiles_bind; [apply keepsFiles_liftE|]. intros uri.
  apply keepsFiles_bind; [apply keepsFiles_call|]. intros p.
  apply keepsFiles_awaitPromise.
Qed.

Lemma keepsFiles_shutdownAll : keepsFiles (shutdownAll host).
Proof. intros w. unfold shutdownAll. apply keepsFiles_closeEach. Qed.

(** X21.  Only formatting writes.  However they end -- with a result, with
    an exception, or waiting for ever -- [getDiagnostics],
    [getCompletions], [findDefinition] and [shutdownAll] leave every file
    as it is. *)
Theorem only_formatDocument_writes (relativeFilePath : string) (l c : nat) :
  keepsFiles (getDiagnostics host relativeFilePath)
  /\ keepsFiles (getCompletions host relativeFilePath l c)
  /\ keepsFiles (findDefinition host relativeFilePath l c)
  /\ keepsFiles (shutdownAll host).
Proof.
  split; [apply keepsFiles_getDiagnostics|].
  split; [apply keepsFiles_getCompletions|].
  split; [apply keepsFiles_findDefinition|apply keepsFiles_shutdownAll].
Qed.


Lemma readFile_returned (path : string) (content : list N) (w w' : World) :
  readFile host path w = (Returned content, w') ->
  files w' = files w
  /\ exists bytes, files w !! fileAt host path = Some bytes
                   /\ content = Js.toString bytes.
Proof.
  unfold readFile. rewrite task_bind_unfold.
  pose proof (keepsFiles_awaitCompletion w) as Hk. unfold awaitCompletion in *.
  destruct (awaitCompletion_loop host (future w) (lspInstances w))
    as [failed [insts events]]. cbn [snd files set_future set_instances] in *.
  destruct (files w !! fileAt host path) as [c|] eqn:Hc; [|discriminate].
  destruct failed; [discriminate|]. intros [= <- <-].
  split; [reflexivity|]. exists c. split; reflexivity.
Qed.

Lemma writeFile_returned (path : string) (content : list N) (w w' : World)
    (u : unit) :
  writeFile host path content w = (Returned u, w') ->
  files w' = <[fileAt host path := Js.fromString content]> (files w).
Proof.
  unfold writeFile. rewrite task_bind_unfold.
  pose proof (keepsFiles_awaitCompletion w) as Hk. unfold awaitCompletion in *.
  destruct (awaitCompletion_loop host (future w) (lspInstances w))
    as [failed [insts events]]. cbn [snd files set_future set_instances] in *.
  destruct failed; [discriminate|]. intros H. inversion H. reflexivity.
Qed.

Lemma ensureDocumentOpen_path (key rel a : string) (w : World) :
  fst (ensureDocumentOpen host key rel w) = Returned a ->
  getAbsolutePath host rel = inr a.
Proof.
  intros Hret.
  destruct (spec_ensureDocumentOpen host Versions.anyPath key rel I w I) as [_ Ha].
  destruct (Ha a Hret) as [Habs _]. exact Habs.
Qed.

(** X22.  What [formatDocument] does to the files.  When it answers that
    nothing was applied, no file has changed.  When it answers that the
    edits were applied, with a new content, then what the server answered
    to the formatting request of this call is a list of edits that is not
    empty, the new content is what the edit applier makes with these edits
    of the text of the file, and the file that is found at the path of the
    document, and no other, now holds the bytes of the new content. *)
Theorem formatDocument_writes_what_it_returns
    (relativeFilePath : string) (w : World) :
  let r := formatDocument host relativeFilePath w in
  match fst r with
  | Returned NotApplied =>
    files (snd r) = files w
    /\ exists answer,
         fst (formattingAnswer host relativeFilePath w) = Returned answer
         /\ forall edit edits, answer <> VEdits (edit :: edits)
  | Returned (Applied newContent) =>
    exists absolutePath bytes edits,
      fst (formattingAnswer host relativeFilePath w) = Returned (VEdits edits)
      /\ edits <> []
      /\ getAbsolutePath host relativeFilePath = inr absolutePath
      /\ files w !! fileAt host absolutePath = Some bytes
      /\ applyEdits (Js.toString bytes) edits = inr newContent
      /\ files (snd r)
         = <[fileAt host absolutePath := Js.fromString newContent]> (files w)
  | _ => True
  end.
Proof.
  cbv zeta. unfold formatDocument, formattingAnswer. rewrite !task_bind_unfold.
  pose proof (keepsFiles_select relativeFilePath w) as H0.
  destruct (selectOrThrow relativeFilePath w) as [[lsp|e|] w0];
    [|exact I|exact I]. cbn [snd] in H0.
  rewrite !task_bind_unfold.
  pose proof (keepsFiles_ensureDocumentOpen lsp relativeFilePath w0) as H1.
  pose proof (ensureDocumentOpen_path lsp relativeFilePath) as Ha.
  specialize (fun a => Ha a w0).
  destruct (ensureDocumentOpen host lsp relativeFilePath w0) as [[a|e|] w1];
    [|exact I|exact I]. cbn [fst snd] in H1, Ha.
  pose proof (Ha a eq_refl) as Habs. clear Ha.
  rewrite !task_bind_unfold.
  destruct (_pathToUri host a) as [e|uri]; [exact I|].
  change (liftE (inr uri) w1) with (@Returned string uri, w1). cbn iota.
  rewrite !task_bind_unfold.
  match goal with |- context [call lsp ?f w1] =>
    pose proof (keepsFiles_call lsp f w1) as H2;
    destruct (call lsp f w1) as [[p|e|] w2]; [|exact I|exact I] end.
  cbn [snd] in H2. rewrite !task_bind_unfold.
  pose proof (keepsFiles_awaitPromise lsp p w2) as H3.
  destruct (awaitPromise host lsp p w2) as [[v|e|] w3]; [|exact I|exact I].
  cbn [snd] in H3.
  assert (Hfiles : files w3 = files w) by congruence.
  destruct v as [|caps|[|edit edits]|payload];
    try (cbn [fst snd]; split; [exact Hfiles|]; eexists; split; [reflexivity|];
         intros; discriminate).
  rewrite task_bind_unfold.
  destruct (readFile host a w3) as [[content|e|] w4] eqn:Hread; [|exact I|exact I].
  apply readFile_returned in Hread as [H4 (bytes & Hbytes & ->)].
  rewrite task_bind_unfold.
  destruct (applyEdits (Js.toString bytes) (edit :: edits)) as [e|newContent]
    eqn:Happly; [exact I|].
  change (liftE (inr newContent) w4) with (@Returned (list N) newContent, w4).
  cbn iota. rewrite task_bind_unfold.
  destruct (writeFile host a newContent w4) as [[u|e|] w5] eqn:Hwrite;
    [|exact I|exact I].
  apply writeFile_returned in Hwrite. rewrite task_bind_unfold.
  pose proof (keepsFiles_notifyChange lsp a newContent w5) as H6.
  destruct (notifyChange host lsp a newContent w5) as [[u'|e|] w6];
    [|exact I|exact I].
  cbn [fst snd] in *.
  exists a, bytes, (edit :: edits). repeat split.
  - discriminate.
  - exact Habs.
  - rewrite <- Hfiles. exact Hbytes.
  - exact Happly.
  - change (files w6 = <[fileAt host a := Js.fromString newContent]> (files w)).
    rewrite H6, Hwrite, H4, Hfiles. reflexivity.
Qed.

End FilesKept.

(** ** The edit applier *)

Section EditsMore.
Import EditApplier Edits.

Lemma split_nonempty (s : list N) : split s <> [].
Proof.
  destruct s as [|c s]; cbn [split]; [discriminate|].
  destruct (c =? newline); [discriminate|].
  destruct (split s); discriminate.
Qed.

Lemma join_cons (l : list N) (ls : list (list N)) :
  ls <> [] -> join (l :: ls) = l ++ newline :: join ls.
Proof. destruct ls; [congruence|reflexivity]. Qed.

(** [split] and [join] are inverse to each other on a text. *)
Lemma join_split (s : list N) : join (split s) = s.
Proof.
  induction s as [|c s IH]; [reflexivity|]. cbn [split].
  destruct (N.eqb_spec c newline) as [->|Hc].
  - rewrite join_cons by apply split_nonempty. rewrite IH. reflexivity.
  - pose proof (split_nonempty s) as Hne.
    destruct (split s) as [|l ls]; [congruence|].
    destruct ls as [|l' ls]; cbn [join] in *; rewrite <- IH; reflexivity.
Qed.

(** A line cut in two: the text up to the cut, and the text from it. *)
Lemma join_cut (A B : list (list N)) (x y : list N) :
  join (A ++ (x ++ y) :: B) = join (A ++ [x]) ++ join (y :: B).
Proof.
  induction A as [|a A IH].
  - cbn [app]. destruct B as [|b B]; cbn [join]; [reflexivity|].
    rewrite <- app_assoc. reflexivity.
  - cbn [app]. rewrite !join_cons by (destruct A; discriminate).
    rewrite IH, <- app_assoc. reflexivity.
Qed.

Lemma join_replace (A B : list (list N)) (x t y : list N) :
  join (A ++ [x ++ t ++ y] ++ B) = join (A ++ [x]) ++ t ++ join (y :: B).
Proof.
  cbn [app]. rewrite join_cut. f_equal. exact (join_cut [] B t y).
Qed.

Lemma take_last {A} (l : list A) (d : A) :
  l <> [] -> take (length l - 1) l ++ [List.last l d] = l.
Proof.
  induction l as [|a l IH]; [congruence|]. intros _.
  destruct l as [|b l]; [reflexivity|].
  change (List.last (a :: b :: l) d) with (List.last (b :: l) d).
  replace (length (a :: b :: l) - 1)%nat with (S (length (b :: l) - 1))
    by (cbn [length]; lia).
  cbn [take app]. rewrite IH by discriminate. reflexivity.
Qed.

Lemma applyEdit_onLines (lines : list (list N)) (edit : TextEdit) :
  onLines lines edit ->
  exists lines',
    applyEdit lines edit = inr lines'
    /\ join lines' = textBefore lines (start (range edit))
                     ++ newText edit
                     ++ textFrom lines (end_ (range edit)).
Proof.
  intros [Hle Hlt]. unfold applyEdit, textBefore, textFrom.
  set (sl := line (start (range edit))) in *.
  set (el := line (end_ (range edit))) in *.
  set (sc := character (start (range edit))).
  set (ec := character (end_ (range edit))).
  destruct (lookup_lt_is_Some_2 lines sl) as [first Hfirst]; [lia|].
  destruct (lookup_lt_is_Some_2 lines el) as [last Hlast]; [lia|].
  rewrite Hfirst, Hlast.
  destruct (Nat.eqb_spec sl el) as [E|Hne].
  - eexists. split; [reflexivity|].
    assert (first = last) by congruence. subst last.
    rewrite insert_take_drop by lia.
    rewrite <- E. apply (join_replace (take sl lines) (drop (S sl) lines)).
  - pose proof (split_nonempty (newText edit)) as Hsplit.
    pose proof (join_split (newText edit)) as Hjoin.
    destruct (split (newText edit)) as [|m0 [|m1 ms]] eqn:Hm; [congruence| |].
    + eexists. split; [reflexivity|]. unfold splice. cbn [hd].
      cbn [join] in Hjoin. subst m0.
      replace (sl + (el + 1 - sl))%nat with (S el) by lia.
      apply (join_replace (take sl lines) (drop (S el) lines)).
    + eexists. split; [reflexivity|]. unfold splice, slice.
      replace (sl + (el + 1 - sl))%nat with (S el) by lia.
      set (middle := m0 :: m1 :: ms) in *.
      assert (Hmid : m0 :: take (length middle - 1 - 1) (drop 1 middle)
                     ++ [List.last middle []] = middle).
      { unfold middle. change (drop 1 (m0 :: m1 :: ms)) with (m1 :: ms).
        change (List.last (m0 :: m1 :: ms) []) with (List.last (m1 :: ms) []).
        replace (length (m0 :: m1 :: ms) - 1 - 1)%nat
          with (length (m1 :: ms) - 1)%nat by (cbn [length]; lia).
        f_equal. apply take_last. discriminate. }
      rewrite <- !app_assoc. cbn [app].
      rewrite (join_cut (take sl lines) _ (Js.substring 0 sc first) m0). f_equal.
      etransitivity;
        [exact (join_cut (m0 :: take (length middle - 1 - 1) (drop 1 middle))
                  (drop (S el) lines) (List.last middle [])
                  (Js.substring_from ec last))|].
      f_equal. cbn [app]. rewrite Hmid. exact Hjoin.
Qed.


(** X23.  One edit replaces its range, and nothing else.  For an edit on
    lines of the document, the new content is the text before the start
    of the range, then the new text, then the text from the end of the
    range on -- whether the range is within one line or spans several, and
    whether the new text has line breaks or not.  The characters of a
    position count UTF-16 code units. *)
Theorem single_edit_replaces_its_range (content : list N) (edit : TextEdit) :
  onLines (split content) edit ->
  applyEdits content [edit]
  = inr (textBefore (split content) (start (range edit))
         ++ newText edit
         ++ textFrom (split content) (end_ (range edit))).
Proof.
  intros Hon. unfold applyEdits. cbn [sort insert_sorted applyInOrder].
  destruct (applyEdit_onLines (split content) edit Hon) as (lines' & -> & Hjoin).
  rewrite Hjoin. reflexivity.
Qed.

(** X24.  An edit of the whole document gives the new text.  When the one
    edit returned reaches from the start of the first line to the end of
    the last line (or beyond it), counted in UTF-16 code units, the new
    content is exactly the new text of the edit, whatever the document
    held. *)
Theorem whole_document_edit_gives_new_text
    (content : list N) (edit : TextEdit) (lastLine : list N) :
  start (range edit) = {| line := 0; character := 0 |} ->
  line (end_ (range edit)) = (length (split content) - 1)%nat ->
  split content !! line (end_ (range edit)) = Some lastLine ->
  (length lastLine <= character (end_ (range edit)))%nat ->
  applyEdits content [edit] = inr (newText edit).
Proof.
  intros Hstart Hend Hlast Hchar.
  pose proof (split_nonempty content) as Hne.
  assert (Hlen : (0 < length (split content))%nat)
    by (destruct (split content); [congruence|simpl; lia]).
  assert (Hon : onLines (split content) edit)
    by (split; [rewrite Hstart; simpl; lia|rewrite Hend; lia]).
  unfold applyEdits. cbn [sort insert_sorted applyInOrder].
  destruct (applyEdit_onLines (split content) edit Hon) as (lines' & -> & ->).
  f_equal. unfold textBefore, textFrom. rewrite Hstart, Hlast. cbn [line character].
  destruct (split content) as [|l0 ls] eqn:Hs; [congruence|].
  cbn [lookup list_lookup take app].
  unfold Js.substring, Js.substring_from.
  rewrite (drop_ge lastLine) by exact Hchar.
  rewrite (drop_ge (l0 :: ls)) by (rewrite Hend; cbn [length]; lia).
  cbn. apply app_nil_r.
Qed.

(** The edit that the loop applies first starts on the last of the lines
    on which edits start. *)
Lemma insert_sorted_head (x : TextEdit) (l : list TextEdit) :
  exists h t, insert_sorted compareEdits x l = h :: t
    /\ (line (start (range x)) <= line (start (range h)))%nat
    /\ match l with
       | [] => True
       | h0 :: _ => (line (start (range h0)) <= line (start (range h)))%nat
       end.
Proof.
  destruct l as [|h0 l]; cbn [insert_sorted].
  - eexists _, _. split; [reflexivity|]. split; [lia|exact I].
  - destruct (compareEdits x h0 <=? 0)%Z eqn:C.
    + eexists _, _. split; [reflexivity|]. split; [lia|].
      apply Z.leb_le in C. unfold compareEdits in C.
      destruct (_ =? 0)%Z eqn:D; [apply Z.eqb_eq in D|]; lia.
    + eexists _, _. split; [reflexivity|]. split; [|lia].
      apply Z.leb_gt in C. unfold compareEdits in C.
      destruct (_ =? 0)%Z eqn:D; [apply Z.eqb_eq in D|]; lia.
Qed.

Lemma sort_head (edits : list TextEdit) :
  edits <> [] ->
  exists h t, sort compareEdits edits = h :: t
    /\ Forall (fun e => (line (start (range e)) <= line (start (range h)))%nat)
              edits.
Proof.
  induction edits as [|x edits IH]; [congruence|]. intros _. cbn [sort].
  destruct edits as [|y edits].
  - cbn [sort insert_sorted]. eexists _, _. split; [reflexivity|].
    constructor; [lia|constructor].
  - destruct IH as (h0 & t0 & Hsort & Hall); [discriminate|].
    rewrite Hsort.
    destruct (insert_sorted_head x (h0 :: t0)) as (h & t & -> & Hx & Hh0).
    eexists _, _. split; [reflexivity|]. constructor; [exact Hx|].
    eapply Forall_impl; [exact Hall|]. intros e He. cbn beta in *. lia.
Qed.

(** X25.  An edit that starts below the last line makes the whole
    application fail.  If one of the edits returned by the server starts
    on a line that the document does not have, the edit applier throws a
    [TypeError] (on [lines[startLine].substring]) and no new content is
    produced, whatever the other edits are. *)
Theorem edit_beyond_last_line_throws (content : list N) (edits : list TextEdit) :
  Exists (fun e => (length (split content) <= line (start (range e)))%nat) edits ->
  exists what, applyEdits content edits = inl (TypeError what).
Proof.
  intros Hex.
  destruct (sort_head edits) as (h & t & Hsort & Hall).
  { intros ->. inversion Hex. }
  assert (Hh : (length (split content) <= line (start (range h)))%nat).
  { apply Exists_exists in Hex as (e & He & Hlen).
    rewrite Forall_forall in Hall. specialize (Hall e He). cbn beta in Hall. lia. }
  unfold applyEdits. rewrite Hsort. cbn [applyInOrder].
  assert (Hnone : split content !! line (start (range h)) = None)
    by (apply lookup_ge_None_2; exact Hh).
  unfold applyEdit. rewrite Hnone.
  destruct (_ =? _)%nat; eexists; reflexivity.
Qed.

End EditsMore.

(** The second character of a line of Japanese text is replaced. *)
Lemma single_edit_replaces_its_range_witness :
  let edit := {| EditApplier.range :=
                   {| EditApplier.start := {| EditApplier.line := 1; EditApplier.character := 1 |};
                      EditApplier.end_ := {| EditApplier.line := 1; EditApplier.character := 2 |} |};
                 EditApplier.newText := Js.codes "X" |} in
  let content := Js.codes "let x = 1" ++ [EditApplier.newline]
                 ++ [26085; 26412] ++ Js.codes " = x" in
  EditApplier.applyEdits content [edit]
  = inr (Js.codes "let x = 1" ++ [EditApplier.newline]
         ++ [26085] ++ Js.codes "X = x").
Proof.
  cbv zeta.
  rewrite single_edit_replaces_its_range.
  - vm_compute. reflexivity.
  - vm_compute. lia.
Defined.

Lemma whole_document_edit_gives_new_text_witness :
  let edit := {| EditApplier.range :=
                   {| EditApplier.start := {| EditApplier.line := 0; EditApplier.character := 0 |};
                      EditApplier.end_ := {| EditApplier.line := 1; EditApplier.character := 2 |} |};
                 EditApplier.newText := Js.codes "const x = 1;" |} in
  let content := Js.codes "let x = 1" ++ [EditApplier.newline] ++ [26085; 26412] in
  EditApplier.applyEdits content [edit] = inr (Js.codes "const x = 1;").
Proof.
  cbv zeta.
  refine (whole_document_edit_gives_new_text
            (Js.codes "let x = 1" ++ [EditApplier.newline] ++ [26085; 26412])
            {| EditApplier.range :=
                 {| EditApplier.start := {| EditApplier.line := 0; EditApplier.character := 0 |};
                    EditApplier.end_ := {| EditApplier.line := 1; EditApplier.character := 2 |} |};
               EditApplier.newText := Js.codes "const x = 1;" |}
            [26085; 26412] _ _ _ _).
  - reflexivity.
  - vm_compute. reflexivity.
  - vm_compute. reflexivity.
  - vm_compute. lia.
Defined.

Lemma edit_beyond_last_line_throws_witness :
  let edit l c t :=
    {| EditApplier.range :=
         {| EditApplier.start := {| EditApplier.line := l; EditApplier.character := c |};
            EditApplier.end_ := {| EditApplier.line := l; EditApplier.character := c |} |};
       EditApplier.newText := Js.codes t |} in
  exists what,
    EditApplier.applyEdits (Js.codes "let x = 1")
      [edit 0%nat 3%nat "a"; edit 1%nat 0%nat "b"]
    = inl (TypeError what).
Proof.
  cbv zeta. apply edit_beyond_last_line_throws.
  apply Exists_cons_tl, Exists_cons_hd. vm_compute. lia.
Defined.

(** ** Paths and the base directory *)

Section Confinement.
Import Lsp Service Trace Versions Files FileUtils.
Context (env : Env).

(** What [getAbsolutePath] returns, case by case. *)
Lemma getAbsolutePath_cases (relativePath : string) :
  match getAbsolutePath env relativePath with
  | inr absolutePath =>
    inside env absolutePath
    /\ relativePath <> ""
    /\ Lsp.startsWith ".." (normalize env relativePath) = false
    /\ isPathAllowed env relativePath = true
  | inl InvalidRelativePath => relativePath = ""
  | inl (PathNotAllowed p) =>
    p = relativePath /\ isPathAllowed env relativePath = false
  | inl ReadOnlyMode => False
  end.
Proof.
  unfold getAbsolutePath.
  destruct (String.eqb_spec relativePath "") as [->|Hne]; [reflexivity|].
  destruct (isPathAllowed env relativePath) eqn:Hallowed; cbn [negb];
    [|split; reflexivity].
  unfold isPathAllowed in Hallowed.
  destruct (Lsp.startsWith ".." (normalize env relativePath)) eqn:Hdots;
    [discriminate|].
  repeat split; try assumption.
  apply orb_true_iff in Hallowed as [H|H].
  - right. exact H.
  - left. apply String.eqb_eq. exact H.
Qed.

(** X26.  [getAbsolutePath] never leaves the base directory.  Whatever
    [path.normalize] and [path.resolve] do, a path that [getAbsolutePath]
    returns is the base directory itself or starts with the base directory
    followed by the separator (so a sibling directory whose name merely
    starts like the base directory is not let through), and the normal
    form of the path given does not start with two dots.  It fails with
    'Invalid relative path' exactly for the empty path and with 'Path not
    allowed' exactly for a path that is not empty and that [isPathAllowed]
    refuses; it never fails for the read-only mode. *)
Theorem getAbsolutePath_inside (relativePath : string) :
  (forall absolutePath,
     getAbsolutePath env relativePath = inr absolutePath ->
     inside env absolutePath
     /\ Lsp.startsWith ".." (normalize env relativePath) = false)
  /\ (getAbsolutePath env relativePath = inl InvalidRelativePath
      <-> relativePath = "")
  /\ (getAbsolutePath env relativePath = inl (PathNotAllowed relativePath)
      <-> relativePath <> "" /\ isPathAllowed env relativePath = false)
  /\ getAbsolutePath env relativePath <> inl ReadOnlyMode.
Proof.
  pose proof (getAbsolutePath_cases relativePath) as Hcases.
  split; [|split; [|split]].
  - intros absolutePath H. rewrite H in Hcases. tauto.
  - split; [intros H; rewrite H in Hcases; exact Hcases|].
    intros ->. reflexivity.
  - revert Hcases. unfold getAbsolutePath.
    destruct (String.eqb_spec relativePath "") as [->|Hne].
    + intros _. split; [discriminate|]. intros [H _]. contradiction.
    + destruct (isPathAllowed env relativePath); cbn [negb]; intros _.
      * split; [discriminate|]. intros [_ H]. discriminate.
      * split; [intros _; split; [exact Hne|reflexivity]|reflexivity].
  - intros H. rewrite H in Hcases. exact Hcases.
Qed.


Context (host : Host).

Local Ltac kept :=
  left; first [cbn [snd]; congruence | cbn; congruence | simpl; congruence].

Lemma writeFile_files (path : string) (content : list N) (w : World) :
  files (snd (writeFile host path content w)) = files w
  \/ files (snd (writeFile host path content w))
     = <[fileAt host path := Js.fromString content]> (files w).
Proof.
  unfold writeFile. rewrite task_bind_unfold.
  pose proof (keepsFiles_awaitCompletion host w) as Hk. unfold awaitCompletion in *.
  destruct (awaitCompletion_loop host (future w) (lspInstances w))
    as [failed [insts events]]. cbn [snd files set_future set_instances] in *.
  destruct failed; [left|right]; reflexivity.
Qed.

(** The one file that [formatDocument] may write is the file found at the
    path of the document. *)
Lemma formatDocument_files (relativeFilePath : string) (w : World) :
  files (snd (formatDocument host relativeFilePath w)) = files w
  \/ exists absolutePath content,
       Lsp.getAbsolutePath host relativeFilePath = inr absolutePath
       /\ files (snd (formatDocument host relativeFilePath w))
          = <[fileAt host absolutePath := content]> (files w).
Proof.
  unfold formatDocument. rewrite task_bind_unfold.
  pose proof (keepsFiles_select relativeFilePath w) as H0.
  destruct (selectOrThrow relativeFilePath w) as [[lsp|e|] w0];
    [|left; exact H0|left; exact H0]. cbn [snd] in H0.
  rewrite task_bind_unfold.
  pose proof (keepsFiles_ensureDocumentOpen host lsp relativeFilePath w0) as H1.
  destruct (spec_ensureDocumentOpen host anyPath lsp relativeFilePath I w0 I) as [_ Ha].
  destruct (ensureDocumentOpen host lsp relativeFilePath w0) as [[a|e|] w1];
    cbn [fst snd] in H1, Ha; [|kept|kept].
  destruct (Ha a eq_refl) as [Habs _]. clear Ha.
  rewrite task_bind_unfold.
  destruct (_pathToUri host a) as [e|uri]; [kept|].
  change (liftE (inr uri) w1) with (@Returned string uri, w1). cbn iota.
  rewrite task_bind_unfold.
  match goal with |- context [call lsp ?f w1] =>
    pose proof (keepsFiles_call lsp f w1) as H2;
    destruct (call lsp f w1) as [[p|e|] w2] end;
    cbn [snd] in H2; [|kept|kept].
  rewrite task_bind_unfold.
  pose proof (keepsFiles_awaitPromise host lsp p w2) as H3.
  destruct (awaitPromise host lsp p w2) as [[v|e|] w3];
    cbn [snd] in H3; [|kept|kept].
  assert (Hfiles : files w3 = files w) by congruence.
  destruct v as [|caps|[|edit edits]|payload]; try (left; exact Hfiles).
  rewrite task_bind_unfold.
  pose proof (keepsFiles_readFile host a w3) as H4.
  destruct (readFile host a w3) as [[content|e|] w4];
    cbn [snd] in H4; [|kept|kept].
  rewrite task_bind_unfold.
  destruct (EditApplier.applyEdits content (edit :: edits)) as [e|newContent];
    [kept|].
  change (liftE (inr newContent) w4) with (@Returned (list N) newContent, w4).
  cbn iota. rewrite task_bind_unfold.
  pose proof (writeFile_files a newContent w4) as H5.
  destruct (writeFile host a newContent w4) as [[u|e|] w5]; cbn [snd] in H5.
  - rewrite task_bind_unfold.
    pose proof (keepsFiles_notifyChange host lsp a newContent w5) as H6.
    assert (H7 : forall r : Outcome FormatResult * World,
                   files (snd r) = files w5 ->
                   files (snd r) = files w
                   \/ exists absolutePath content0,
                        Lsp.getAbsolutePath host relativeFilePath = inr absolutePath
                        /\ files (snd r)
                           = <[fileAt host absolutePath := content0]> (files w)).
    { intros r Hr. rewrite Hr. destruct H5 as [H5|H5]; rewrite H5.
      - left. congruence.
      - right. exists a, (Js.fromString newContent). split; [exact Habs|].
        congruence. }
    destruct (notifyChange host lsp a newContent w5) as [[u'|e|] w6];
      cbn [snd] in H6; apply H7; exact H6.
  - destruct H5 as [H5|H5]; [kept|].
    right. exists a, (Js.fromString newContent). split; [exact Habs|].
    cbn. congruence.
  - destruct H5 as [H5|H5]; [kept|].
    right. exists a, (Js.fromString newContent). split; [exact Habs|].
    cbn. congruence.
Qed.

(** X27.  What [formatDocument] writes is found at a path below the base
    directory.  When the client resolves its paths with [getAbsolutePath]
    of [utils/fileUtils.mjs], then however a call of [formatDocument] ends,
    a file whose content has changed is the file found at the absolute
    path of the document, and this path is the base directory itself or
    lies below it.  The check is made on the path: where the path is a
    link, the file that is written is the one the link leads to, which
    need not lie below the base directory. *)
Theorem service_writes_inside_BASE_DIR
    (relativeFilePath : string) (w : World) (file : string) :
  resolvesPaths env host ->
  files (snd (formatDocument host relativeFilePath w)) !! file
  <> files w !! file ->
  exists absolutePath,
    getAbsolutePath env relativeFilePath = inr absolutePath
    /\ inside env absolutePath
    /\ fileAt host absolutePath = file.
Proof.
  intros Hhost Hdiff.
  destruct (formatDocument_files relativeFilePath w)
    as [H|(a & content & Ha & H)]; [congruence|].
  rewrite H in Hdiff.
  destruct (decide (fileAt host a = file)) as [Hfile|Hne];
    [|rewrite lookup_insert_ne in Hdiff by exact Hne; congruence].
  rewrite (Hhost relativeFilePath) in Ha.
  pose proof (getAbsolutePath_cases relativeFilePath) as Hin.
  destruct (getAbsolutePath env relativeFilePath) as [f|a']; [discriminate|].
  injection Ha as ->. exists a. split; [reflexivity|].
  split; [apply Hin|exact Hfile].
Qed.

End Confinement.

(** The file of the document is a link that leads out of the project. *)
Lemma service_writes_inside_BASE_DIR_witness :
  Service.files (snd Demo.linkedFormat) !! "/home/user/notes.ts"
  = Some (list_byte_of_string "const x = 1")
  /\ exists absolutePath,
       FileUtils.getAbsolutePath Posix.env "src/a.ts" = inr absolutePath
       /\ FileUtils.inside Posix.env absolutePath
       /\ Lsp.fileAt Demo.linkedHost absolutePath = "/home/user/notes.ts".
Proof.
  split; [vm_compute; reflexivity|].
  apply (service_writes_inside_BASE_DIR Posix.env Demo.linkedHost "src/a.ts"
           (Service.new_LspService Demo.linkedHost Demo.linkedFiles
              Demo.formatOnceEvents)
           "/home/user/notes.ts").
  - intros relativePath. reflexivity.
  - intros H. vm_compute in H. discriminate H.
Defined.

(** ** Commands *)

Section Commands.
Import Config Security.

Example test_validateCommand :
  validateCommand "rm" ["-rf"; "/"]
  = Denied "Command not allowed: rm. Allowed commands are: git, grep, find, ls, cat, diff, mkdir."
  /\ validateCommand "git" ["status"; "--short"] = Allowed "git" ["status"; "--short"]
  /\ validateCommand "git" [] = Allowed "git" []
  /\ validateCommand "ls" ["-la"] = Allowed "ls" ["-la"]
  /\ validateCommand "toString" ["x"] = Allowed "toString" ["x"].
Proof. vm_compute. repeat split. Qed.

Lemma commandConfigOf_cases (command : string) :
  (command = "git"
   /\ commandConfigOf command
      = Some {| baseCommand := Some "git"; allowedArgs := Some gitSubcommands |})
  \/ (command ∈ unrestricted
      /\ commandConfigOf command
         = Some {| baseCommand := Some command; allowedArgs := None |})
  \/ (command ∈ objectPrototypeKeys
      /\ commandConfigOf command
         = Some {| baseCommand := None; allowedArgs := None |})
  \/ (command <> "git" /\ (command ∉ unrestricted)
      /\ (command ∉ objectPrototypeKeys)
      /\ commandConfigOf command = None).
Proof.
  unfold commandConfigOf, ALLOWED_COMMANDS. cbn [Service.map_get].
  destruct (String.eqb_spec "git" command) as [<-|H1]; [left; split; reflexivity|].
  destruct (String.eqb_spec "grep" command) as [<-|H2].
  { right; left. split; [set_solver|reflexivity]. }
  destruct (String.eqb_spec "find" command) as [<-|H3].
  { right; left. split; [set_solver|reflexivity]. }
  destruct (String.eqb_spec "ls" command) as [<-|H4].
  { right; left. split; [set_solver|reflexivity]. }
  destruct (String.eqb_spec "cat" command) as [<-|H5].
  { right; left. split; [set_solver|reflexivity]. }
  destruct (String.eqb_spec "diff" command) as [<-|H6].
  { right; left. split; [set_solver|reflexivity]. }
  destruct (String.eqb_spec "mkdir" command) as [<-|H7].
  { right; left. split; [set_solver|reflexivity]. }
  destruct (decide (command ∈ objectPrototypeKeys)) as [Hin|Hout].
  - right; right; left. split; [exact Hin|].
    rewrite bool_decide_eq_true_2 by exact Hin. reflexivity.
  - right; right; right. rewrite bool_decide_eq_false_2 by exact Hout.
    repeat split; try congruence; try exact Hout.
    unfold unrestricted. rewrite !elem_of_cons, elem_of_nil. intuition congruence.
Qed.


(** The commands that [validateCommand] lets through. *)
Lemma validateCommand_allowed_iff (command : string) (args : list string) :
  (exists base sanitized, validateCommand command args = Allowed base sanitized)
  <-> (command = "git"
       /\ match args with
          | [] => True
          | firstArg :: _ => firstArg ∈ gitSubcommands
          end)
      \/ command ∈ unrestricted
      \/ command ∈ objectPrototypeKeys.
Proof.
  unfold validateCommand.
  destruct (commandConfigOf_cases command)
    as [[-> ->]|[[Hin ->]|[[Hin ->]|(Hgit & Hun & Hproto & ->)]]];
    cbn [allowedArgs baseCommand].
  - destruct args as [|firstArg rest].
    + split; [intros _; left; split; [reflexivity|exact I]|].
      intros _. eexists _, _. reflexivity.
    + destruct (decide (firstArg ∈ gitSubcommands)) as [Hok|Hbad].
      * rewrite bool_decide_eq_true_2 by exact Hok. cbn [negb].
        split; [intros _; left; split; [reflexivity|exact Hok]|].
        intros _. eexists _, _. reflexivity.
      * rewrite bool_decide_eq_false_2 by exact Hbad. cbn [negb].
        split; [intros (b & a & H); discriminate|].
        intros [[_ H]|[H|H]]; [contradiction| |];
          exfalso; revert H; clear; unfold unrestricted, objectPrototypeKeys;
          rewrite !elem_of_cons, elem_of_nil; intuition discriminate.
  - split; [intros _; right; left; exact Hin|].
    intros _. destruct args; eexists _, _; reflexivity.
  - split; [intros _; right; right; exact Hin|].
    intros _. destruct args; eexists _, _; reflexivity.
  - split; [intros (b & a & H); discriminate|].
    intros [[H _]|[H|H]]; contradiction.
Qed.

(** An allowed command is run as it was given. *)
Lemma validateCommand_allowed_as_given
    (command base : string) (args sanitized : list string) :
  validateCommand command args = Allowed base sanitized ->
  base = command /\ sanitized = args.
Proof.
  unfold validateCommand.
  destruct (commandConfigOf_cases command)
    as [[-> ->]|[[Hin ->]|[[Hin ->]|(Hgit & Hun & Hproto & ->)]]];
    cbn [allowedArgs baseCommand]; [| | |discriminate].
  - destruct args as [|firstArg rest]; [intros [= <- <-]; split; reflexivity|].
    destruct (negb _); [discriminate|]. intros [= <- <-]. split; reflexivity.
  - assert (Hne : String.eqb command "" = false).
    { apply String.eqb_neq. intros ->. revert Hin. unfold unrestricted.
      rewrite !elem_of_cons, elem_of_nil. intuition discriminate. }
    rewrite Hne. destruct args; intros [= <- <-]; split; reflexivity.
  - destruct args; intros [= <- <-]; split; reflexivity.
Qed.

(** X28.  What [validateCommand] lets through, and with what.  A command
    is allowed exactly when it is [git] with no argument or with a first
    argument among status, diff, log, show, branch, tag and rev-parse, or
    one of grep, find, ls, cat, diff and mkdir with any arguments -- or
    when its name is that of a property every object inherits, such as
    [constructor] or [toString], for which the lookup in the table does
    not give [undefined].  Arguments after the first are not looked at.
    An allowed command is run as given: the program is the command itself
    and the arguments are the ones given, all of them, unchanged and in
    order. *)
Theorem validateCommand_allows_exactly (command : string) (args : list string) :
  (validateCommand command args = Allowed command args
   <-> (command = "git"
        /\ match args with
           | [] => True
           | firstArg :: _ => firstArg ∈ gitSubcommands
           end)
       \/ command ∈ unrestricted
       \/ command ∈ objectPrototypeKeys)
  /\ (forall base sanitized,
        validateCommand command args = Allowed base sanitized ->
        base = command /\ sanitized = args).
Proof.
  split.
  - rewrite <- validateCommand_allowed_iff. split.
    + intros H. eexists _, _. exact H.
    + intros (base & sanitized & H).
      destruct (validateCommand_allowed_as_given _ _ _ _ H) as [-> ->]. exact H.
  - intros base sanitized. apply validateCommand_allowed_as_given.
Qed.

End Commands.

(** ** The tool handlers *)

Section HandlersWrap.
Import Lsp Service Trace Handlers.
Context (host : Host).
Context (hostMessage : Error -> string).
Context (stringifyDiagnostics : list string -> string).
Context (stringify : Value -> string).

Lemma try_catch_wraps {A} (operation : Task A) (what : string)
    (ok : A -> ToolResult) :
  wraps hostMessage operation
    (try_catch (a ← operation; mret (ok a))
               (fun error => mret (failure hostMessage what error)))
    what ok.
Proof.
  intros w. unfold try_catch. rewrite task_bind_unfold.
  destruct (operation w) as [[a|e|] w']; reflexivity.
Qed.

Lemma wraps_never_throws {A} (operation : Task A) (handler : Task ToolResult)
    (what : string) (ok : A -> ToolResult) :
  wraps hostMessage operation handler what ok ->
  forall w error, fst (handler w) <> Thrown error.
Proof.
  intros H w error. rewrite (H w).
  destruct (operation w) as [[a|e|] w']; discriminate.
Qed.

Lemma formatDocumentHandler_wraps (filePath : string) :
  wraps hostMessage (formatDocument host filePath)
    (formatDocumentHandler host hostMessage filePath)
    "Error formatting document: "
    (fun result =>
       {| content :=
            [ Text (match result with
                    | Applied _ =>
                      "Document " +:+ filePath +:+ " formatted successfully."
                    | NotApplied =>
                      "No formatting changes needed or returned by LSP."
                    end) ];
          isError := false |}).
Proof.
  intros w. unfold formatDocumentHandler, try_catch. rewrite task_bind_unfold.
  destruct (formatDocument host filePath w) as [[[c|]|e|] w']; reflexivity.
Qed.

(** X29.  The tool handlers never throw, whatever the state of the service,
    and the result that a handler returns is marked as an error exactly
    when the operation of the service that it wraps threw. *)
Theorem handlers_never_throw (filePath : string) (line character : nat) :
  let handlers :=
    [ getDiagnosticsHandler host hostMessage stringifyDiagnostics filePath;
      getCompletionsHandler host hostMessage stringify filePath line character;
      findDefinitionHandler host hostMessage stringify filePath line character;
      formatDocumentHandler host hostMessage filePath ] in
  Forall (fun handler => forall w error, fst (handler w) <> Thrown error) handlers
  /\ (forall w result,
        fst (getDiagnosticsHandler host hostMessage stringifyDiagnostics filePath w)
        = Returned result ->
        isError result = true
        <-> exists error, fst (getDiagnostics host filePath w) = Thrown error)
  /\ (forall w result,
        fst (getCompletionsHandler host hostMessage stringify filePath line character w)
        = Returned result ->
        isError result = true
        <-> exists error,
              fst (getCompletions host filePath line character w) = Thrown error)
  /\ (forall w result,
        fst (findDefinitionHandler host hostMessage stringify filePath line character w)
        = Returned result ->
        isError result = true
        <-> exists error,
              fst (findDefinition host filePath line character w) = Thrown error)
  /\ (forall w result,
        fst (formatDocumentHandler host hostMessage filePath w) = Returned result ->
        isError result = true
        <-> exists error, fst (formatDocument host filePath w) = Thrown error).
Proof.
  cbv zeta.
  assert (Hflag : forall A (operation : Task A) handler what ok,
            (forall a, isError (ok a) = false) ->
            wraps hostMessage operation handler what ok ->
            forall w result, fst (handler w) = Returned result ->
              isError result = true
              <-> exists error, fst (operation w) = Thrown error).
  { intros A operation handler what ok Hok H w result. rewrite (H w).
    destruct (operation w) as [[a|e|] w']; cbn [fst]; intros [= <-].
    - rewrite Hok. split; [discriminate|]. intros [e He]. discriminate.
    - split; [intros _; eexists; reflexivity|reflexivity]. }
  split; [|split; [|split; [|split]]].
  - repeat constructor.
    + eapply wraps_never_throws. apply try_catch_wraps.
    + eapply wraps_never_throws. apply try_catch_wraps.
    + eapply wraps_never_throws. apply try_catch_wraps.
    + eapply wraps_never_throws. apply formatDocumentHandler_wraps.
  - eapply Hflag; [|apply try_catch_wraps]. reflexivity.
  - eapply Hflag; [|apply try_catch_wraps]. reflexivity.
  - eapply Hflag; [|apply try_catch_wraps]. reflexivity.
  - eapply Hflag; [|apply formatDocumentHandler_wraps]. reflexivity.
Qed.

(** X30.  What the tools answer once the server is gone.  When the
    TypeScript client had completed its handshake and is no longer
    initialized, each of the four handlers, for a file that is not a Vue
    file, returns at once an error result with the text of its title
    followed by "LSP <command> could not be initialized.", and changes
    nothing. *)
Theorem handlers_report_lost_server
    (filePath : string) (line character : nat) (w : World) (s : LspProcess) :
  map_get "typescript" (lspInstances w) = Some s ->
  Path.extname filePath <> ".vue" ->
  isInitialized s = false ->
  initializationPromise s = Some InitFulfilled ->
  let answer (what : string) : Outcome ToolResult * World :=
    (Returned
       {| content := [ Text (what +:+ "LSP " +:+ command (config s)
                             +:+ " could not be initialized.") ];
          isError := true |}, w) in
  getDiagnosticsHandler host hostMessage stringifyDiagnostics filePath w
  = answer "Error getting diagnostics: "
  /\ getCompletionsHandler host hostMessage stringify filePath line character w
     = answer "Error getting completions: "
  /\ findDefinitionHandler host hostMessage stringify filePath line character w
     = answer "Error finding definition: "
  /\ formatDocumentHandler host hostMessage filePath w
     = answer "Error formatting document: ".
Proof.
  intros Hs Hext Hi Hp. cbv zeta.
  destruct (not_initialized_operations host filePath w s Hs Hext Hi Hp)
    as (H1 & H2 & H3 & H4).
  repeat split.
  - unfold getDiagnosticsHandler.
    rewrite (try_catch_wraps _ _ _ w), H1. reflexivity.
  - unfold getCompletionsHandler.
    rewrite (try_catch_wraps _ _ _ w), H2. reflexivity.
  - unfold findDefinitionHandler.
    rewrite (try_catch_wraps _ _ _ w), H3. reflexivity.
  - rewrite (formatDocumentHandler_wraps filePath w), H4. reflexivity.
Qed.

End HandlersWrap.

Lemma handlers_report_lost_server_witness :
  let w := {| Service.lspInstances :=
                [("typescript",
                  Lsp.dispatch Demo.demoHost Lsp.ExitEvent Demo.readyClient)];
              Service.files := ∅; Service.future := [] |} in
  Handlers.getCompletionsHandler Demo.demoHost (fun _ => "") (fun _ => "")
    "src/a.ts" 0 0 w
  = (Service.Returned
       {| Handlers.content :=
            [ Handlers.Text
                "Error getting completions: LSP typescript-language-server could not be initialized." ];
          Handlers.isError := true |}, w).
Proof.
  cbv zeta.
  destruct (handlers_report_lost_server Demo.demoHost (fun _ => "") (fun _ => "")
              (fun _ => "") "src/a.ts" 0 0
              {| Service.lspInstances :=
                   [("typescript",
                     Lsp.dispatch Demo.demoHost Lsp.ExitEvent Demo.readyClient)];
                 Service.files := ∅; Service.future := [] |}
              (Lsp.dispatch Demo.demoHost Lsp.ExitEvent Demo.readyClient))
    as (_ & H2 & _).
  - reflexivity.
  - intros H. vm_compute in H. discriminate H.
  - vm_compute. reflexivity.
  - vm_compute. reflexivity.
  - exact H2.
Defined.
